(** * wow-sync: profile store, Drive reconciliation, capture and apply

    A shallow embedding of the profile synchronisation code of wow-sync
    ([electron/services/profileManager.ts], [electron/services/googleDrive.ts]
    and the [gdrive:sync] handler of [electron/main.ts]), followed by the
    properties that the specification states about it.

    Conventions of the embedding
    - A JavaScript string is a [string]; an optional field is an [option].
    - A JavaScript object that is iterated ([Profile.addons], [AddonConfig.files])
      is an association list in insertion order; the [Map] and the [Set] of
      [syncProfiles] are a [gmap] and a [gset].
    - A directory is the list of its entries in the order [fs.readdirSync]
      returns them.
    - [new Date(s).getTime()] is a number or NaN: [option Z], [None] for NaN.
      The parser itself belongs to the JavaScript runtime and is a parameter
      ([JSDate]); [iso_date] is the instance used by the examples.
    - Every [new Date()] and every server-assigned time is an input.
    - Calls of the Drive API return, except a download, which may throw
      ([DriveFile.fetchable]).  [fs.writeFileSync] into an existing directory
      returns; [JSON.parse], [fs.readFileSync] and [fs.copyFileSync] may
      throw.  [console.log] and the progress callback are left out. *)

From Stdlib Require Import ZArith String Ascii.
From stdpp Require Import base option list sorting strings gmap.

(** ** Strings *)

(** [s.endsWith(suffix)]. *)
Definition endsWith (s suffix : string) : bool :=
  let n := String.length s in
  let m := String.length suffix in
  if (m <=? n)%nat then String.eqb (String.substring (n - m) m s) suffix
  else false.

(** [s.split(sep)] for a one-character separator. *)
Fixpoint split_go (sep : ascii) (cur : string) (s : string) : list string :=
  match s with
  | EmptyString => [String.rev cur]
  | String c s' =>
      if Ascii.eqb c sep then String.rev cur :: split_go sep EmptyString s'
      else split_go sep (String c cur) s'
  end.

Definition split (sep : ascii) (s : string) : list string :=
  split_go sep EmptyString s.

(** [s.replace(/[:.]/g, '-')]. *)
Fixpoint replace_colon_dot (s : string) : string :=
  match s with
  | EmptyString => EmptyString
  | String c s' =>
      String (if Ascii.eqb c ":" || Ascii.eqb c "." then "-"%char else c)
             (replace_colon_dot s')
  end.

(** ** Dates *)

(** [Date_getTime s] is [new Date(s).getTime()]: milliseconds since the epoch,
    or [None] when the string is not a date (NaN). *)
Class JSDate := Date_getTime : string → option Z.

(** [a > b] on numbers: false as soon as one side is NaN. *)
Definition num_gt (a b : option Z) : bool :=
  match a, b with
  | Some x, Some y => bool_decide (y < x)%Z
  | _, _ => false
  end.

(** [b - a] on numbers. *)
Definition num_sub (b a : option Z) : option Z :=
  match b, a with
  | Some x, Some y => Some (x - y)%Z
  | _, _ => None
  end.

(** ** Data model ([src/types/index.ts]) *)

Inductive WoWVersion := retail | classic | classic_era.

Module AddonConfig.
Record t := mk { enabled : bool; files : list (string * string) }.
End AddonConfig.

Module Profile.
Record t := mk {
  id : string;
  name : string;
  description : option string;
  device : option string;
  createdAt : string;
  updatedAt : string;
  wowVersion : WoWVersion;
  accountName : option string;
  addons : list (string * AddonConfig.t);
  gameSettings : option string
}.

(** [profile.updatedAt = v]. *)
Definition set_updatedAt (v : string) (p : t) : t :=
  mk (id p) (name p) (description p) (device p) (createdAt p) v
     (wowVersion p) (accountName p) (addons p) (gameSettings p).

(** [profile.addons = v] and [profile.gameSettings = v]. *)
Definition set_addons (v : list (string * AddonConfig.t)) (p : t) : t :=
  mk (id p) (name p) (description p) (device p) (createdAt p) (updatedAt p)
     (wowVersion p) (accountName p) v (gameSettings p).
Definition set_gameSettings (v : option string) (p : t) : t :=
  mk (id p) (name p) (description p) (device p) (createdAt p) (updatedAt p)
     (wowVersion p) (accountName p) (addons p) v.
End Profile.

Module SyncResult.
Record t := mk {
  uploaded : list string;
  downloaded : list string;
  conflicts : list string
}.
End SyncResult.

(** ** JavaScript objects as ordered association lists *)

(** [obj[key] = v]: an existing key keeps its place, a new key goes last. *)
Fixpoint obj_set {A} (key : string) (v : A) (obj : list (string * A))
  : list (string * A) :=
  match obj with
  | [] => [(key, v)]
  | (k, x) :: rest =>
      if decide (k = key) then (k, v) :: rest
      else (k, x) :: obj_set key v rest
  end.

Fixpoint obj_get {A} (key : string) (obj : list (string * A)) : option A :=
  match obj with
  | [] => None
  | (k, x) :: rest => if decide (k = key) then Some x else obj_get key rest
  end.

(** ** The local profile store ([ProfileManager]) *)

(** The text of a file of the profiles directory, as [JSON.parse] sees it:
    the encoding of a profile, or a text on which [JSON.parse] throws. *)
Inductive json_text := Encoded (p : Profile.t) | Malformed.

Definition JSON_parse (c : json_text) : option Profile.t :=
  match c with Encoded p => Some p | Malformed => None end.

Definition JSON_stringify (p : Profile.t) : json_text := Encoded p.

(** The loop of [listProfiles] inside its [try]: the first [JSON.parse] that
    throws leaves the loop, and the [catch] keeps what was pushed so far. *)
Fixpoint readProfiles (files : list (string * json_text)) : list Profile.t :=
  match files with
  | [] => []
  | (file, content) :: rest =>
      if endsWith file ".json" then
        match JSON_parse content with
        | Some p => p :: readProfiles rest
        | None => []
        end
      else readProfiles rest
  end.

(** [Array.prototype.sort] with a comparator: a stable sort, [a] is moved
    behind [b] only when [cmp a b > 0] (a NaN result counts as [+0]).  The
    language fixes the outcome only for a consistent comparator. *)
Definition num_pos (v : option Z) : bool :=
  match v with Some z => bool_decide (0 < z)%Z | None => false end.

Fixpoint sort_insert {A} (cmp : A → A → option Z) (x : A) (l : list A)
  : list A :=
  match l with
  | [] => [x]
  | y :: l' => if num_pos (cmp x y) then y :: sort_insert cmp x l' else x :: l
  end.

Definition Array_sort {A} (cmp : A → A → option Z) (l : list A) : list A :=
  foldr (sort_insert cmp) [] l.

Section ProfileStore.
Context `{JSDate}.

(** [(a, b) => new Date(b.updatedAt).getTime() - new Date(a.updatedAt).getTime()] *)
Definition byUpdatedAtDesc (a b : Profile.t) : option Z :=
  num_sub (Date_getTime (Profile.updatedAt b))
          (Date_getTime (Profile.updatedAt a)).

Definition listProfiles (profilesDir : list (string * json_text))
  : list Profile.t :=
  Array_sort byUpdatedAtDesc (readProfiles profilesDir).
End ProfileStore.

(** [getProfile(id)]. *)
Definition getProfile (id : string) (profilesDir : list (string * json_text))
  : option Profile.t :=
  match obj_get (id +:+ ".json") profilesDir with
  | Some content => JSON_parse content
  | None => None
  end.

(** [saveProfile(profile)]; [now] is [new Date().toISOString()].  The
    argument object itself is mutated: the second component is the caller's
    object after the call. *)
Definition saveProfile (now : string) (profile : Profile.t)
    (profilesDir : list (string * json_text))
  : list (string * json_text) * Profile.t :=
  let profile := Profile.set_updatedAt now profile in
  (obj_set (Profile.id profile +:+ ".json") (JSON_stringify profile) profilesDir,
   profile).

(** ** The remote store ([GoogleDriveService]) *)

Module DriveFile.
(** A file of the application folder, among those that the query of
    [listRemoteProfiles] selects.  [fileId] stands for the opaque identifier
    that the server assigns, numbered in order of creation; [fetchable]
    tells whether [files.get] succeeds on the file. *)
Record t := mk {
  fileId : nat;
  fileName : string;
  modifiedTime : string;
  body : Profile.t;
  fetchable : bool
}.
End DriveFile.

Module Drive.
Record t := mk { files : list DriveFile.t; nextId : nat }.
End Drive.

Module Remote.
(** An element of the array that [listRemoteProfiles] returns. *)
Record t := mk {
  id : nat;
  name : string;
  modifiedTime : string;
  profile : Profile.t
}.
End Remote.

Definition profileFileName (p : Profile.t) : string :=
  "profile-" +:+ Profile.id p +:+ ".json".

(** [findFileByName]: the id of the first file with that name. *)
Definition findFileByName (fname : string) (d : Drive.t) : option nat :=
  DriveFile.fileId <$>
    List.find (λ f, bool_decide (DriveFile.fileName f = fname)) (Drive.files d).

(** [uploadProfile(profile)] on a connected service; [serverNow] is the
    modification time that the server assigns to the write. *)
Definition uploadProfile (serverNow : string) (profile : Profile.t)
    (d : Drive.t) : Drive.t :=
  match findFileByName (profileFileName profile) d with
  | Some existingFileId =>
      Drive.mk
        ((λ f, if decide (DriveFile.fileId f = existingFileId)
               then DriveFile.mk (DriveFile.fileId f) (DriveFile.fileName f)
                      serverNow profile (DriveFile.fetchable f)
               else f) <$> Drive.files d)
        (Drive.nextId d)
  | None =>
      Drive.mk
        (Drive.files d ++
           [DriveFile.mk (Drive.nextId d) (profileFileName profile)
              serverNow profile true])
        (S (Drive.nextId d))
  end.

(** [listRemoteProfiles]: a file whose download throws is logged and left
    out, the loop goes on. *)
Definition listRemoteProfiles (d : Drive.t) : list Remote.t :=
  (λ f, Remote.mk (DriveFile.fileId f) (DriveFile.fileName f)
          (DriveFile.modifiedTime f) (DriveFile.body f)) <$>
    filter (λ f, DriveFile.fetchable f = true) (Drive.files d).

Definition pullProfiles (d : Drive.t) : list Profile.t :=
  Remote.profile <$> listRemoteProfiles d.

(** [new Map(remoteProfiles.map((r) => [r.profile.id, r]))]: a later entry
    with the same key replaces an earlier one. *)
Definition remoteMap (remoteProfiles : list Remote.t) : gmap string Remote.t :=
  foldl (λ m r, <[Profile.id (Remote.profile r) := r]> m) ∅ remoteProfiles.

(** [new Set(localProfiles.map((p) => p.id))]. *)
Definition localIds (localProfiles : list Profile.t) : gset string :=
  list_to_set (Profile.id <$> localProfiles).

Module SyncState.
(** The state that [syncProfiles] threads through its two loops.
    [uploadLog] and [markLog] are a trace for the proofs: the argument of
    every [uploadProfile] call, and the profile behind every name pushed on
    [result.downloaded], in order. *)
Record t := mk {
  result : SyncResult.t;
  drive : Drive.t;
  uploadLog : list Profile.t;
  markLog : list Profile.t
}.
End SyncState.

Section Sync.
Context `{JSDate}.

(** The k-th [uploadProfile] of a pass is stamped [serverNow k]. *)
Context (serverNow : nat → string).

Definition doUpload (localProfile : Profile.t) (st : SyncState.t)
  : SyncState.t :=
  let r := SyncState.result st in
  SyncState.mk
    (SyncResult.mk (SyncResult.uploaded r ++ [Profile.name localProfile])
       (SyncResult.downloaded r) (SyncResult.conflicts r))
    (uploadProfile (serverNow (length (SyncState.uploadLog st)))
       localProfile (SyncState.drive st))
    (SyncState.uploadLog st ++ [localProfile])
    (SyncState.markLog st).

Definition markDownload (p : Profile.t) (st : SyncState.t) : SyncState.t :=
  let r := SyncState.result st in
  SyncState.mk
    (SyncResult.mk (SyncResult.uploaded r)
       (SyncResult.downloaded r ++ [Profile.name p]) (SyncResult.conflicts r))
    (SyncState.drive st)
    (SyncState.uploadLog st)
    (SyncState.markLog st ++ [p]).

(** Body of [for (const localProfile of localProfiles)]. *)
Definition syncLocal (rmap : gmap string Remote.t) (st : SyncState.t)
    (localProfile : Profile.t) : SyncState.t :=
  match rmap !! Profile.id localProfile with
  | None => doUpload localProfile st
  | Some remote =>
      let localTime := Date_getTime (Profile.updatedAt localProfile) in
      let remoteTime := Date_getTime (Remote.modifiedTime remote) in
      if num_gt localTime remoteTime then doUpload localProfile st
      else if num_gt remoteTime localTime then markDownload localProfile st
      else st
  end.

(** Body of [for (const remote of remoteProfiles)]. *)
Definition syncRemote (ids : gset string) (st : SyncState.t)
    (remote : Remote.t) : SyncState.t :=
  if decide (Profile.id (Remote.profile remote) ∈ ids) then st
  else markDownload (Remote.profile remote) st.

(** [syncProfiles(localProfiles)]; [None] is the thrown
    'Not connected to Google Drive'. *)
Definition syncProfiles (localProfiles : list Profile.t)
    (drive : option Drive.t) : option SyncState.t :=
  match drive with
  | None => None
  | Some d =>
      let st0 := SyncState.mk (SyncResult.mk [] [] []) d [] [] in
      let remoteProfiles := listRemoteProfiles d in
      let st1 := foldl (syncLocal (remoteMap remoteProfiles)) st0 localProfiles in
      Some (foldl (syncRemote (localIds localProfiles)) st1 remoteProfiles)
  end.
End Sync.

(** ** The [gdrive:sync] handler ([main.ts]) *)

Module World.
(** The profiles directory and the Drive behind the service ([None]: the
    service has no [drive], it is not connected). *)
Record t := mk {
  profilesDir : list (string * json_text);
  googleDrive : option Drive.t
}.
End World.

Section Handler.
Context `{JSDate}.

(** The k-th [saveProfile] of the handler runs at local time [now k]. *)
Context (now : nat → string) (serverNow : nat → string).

(** [new Date(a) > new Date(b)]. *)
Definition date_gt (a b : string) : bool :=
  num_gt (Date_getTime a) (Date_getTime b).

(** The test of the apply loop, on the list read at the start of the pass. *)
Definition shouldSave (localProfiles : list Profile.t)
    (remoteProfile : Profile.t) : bool :=
  match List.find (λ p, bool_decide (Profile.id p = Profile.id remoteProfile))
          localProfiles with
  | None => true
  | Some localProfile =>
      date_gt (Profile.updatedAt remoteProfile) (Profile.updatedAt localProfile)
  end.

(** Body of [for (const remoteProfile of remoteProfiles)]; the state is the
    profiles directory and the trace of the [saveProfile] arguments. *)
Definition applyRemote (localProfiles : list Profile.t)
    (st : list (string * json_text) * list Profile.t)
    (remoteProfile : Profile.t) : list (string * json_text) * list Profile.t :=
  if shouldSave localProfiles remoteProfile then
    ((saveProfile (now (length st.2)) remoteProfile st.1).1,
     st.2 ++ [remoteProfile])
  else st.

(** The apply loop.  [dirNow] is the profiles directory when the loop
    starts; the handler has awaited two remote calls since it read
    [localProfiles]. *)
Definition applyDownloads (localProfiles remoteProfiles : list Profile.t)
    (dirNow : list (string * json_text))
  : list (string * json_text) * list Profile.t :=
  foldl (applyRemote localProfiles) (dirNow, []) remoteProfiles.

(** The handler without the settings file it stamps at the end; [None] is
    a rejected call. *)
Definition gdrive_sync (w : World.t) : option (SyncResult.t * World.t) :=
  let localProfiles := listProfiles (World.profilesDir w) in
  match syncProfiles serverNow localProfiles (World.googleDrive w) with
  | None => None
  | Some st =>
      let result := SyncState.result st in
      let dir :=
        match SyncResult.downloaded result with
        | [] => World.profilesDir w
        | _ :: _ =>
            (applyDownloads localProfiles (pullProfiles (SyncState.drive st))
               (World.profilesDir w)).1
        end in
      Some (result, World.mk dir (Some (SyncState.drive st)))
  end.
End Handler.

(** ** Capture and apply ([ProfileManager], live configuration tree) *)

Module AddonFileConfig.
Record t := mk {
  accountLevel : list string;
  characterLevel : option (list string)
}.
End AddonFileConfig.

Definition ADDON_FILES : list (string * AddonFileConfig.t) :=
  [ ("ConsolePort",
      AddonFileConfig.mk
        ["ConsolePort.lua"; "ConsolePortBar.lua"; "ConsolePort_Config.lua"] None);
    ("ElvUI", AddonFileConfig.mk ["ElvUI.lua"] (Some ["ElvUI.lua"]));
    ("WeakAuras",
      AddonFileConfig.mk ["WeakAuras.lua"; "WeakAurasSaved.lua"] None);
    ("Details",
      AddonFileConfig.mk ["Details.lua"; "Details_DataStorage.lua"] None);
    ("DBM",
      AddonFileConfig.mk ["DBM-Core.lua"; "DBM-StatusBarTimers.lua"]
        (Some ["DBM-Core.lua"]));
    ("BigWigs", AddonFileConfig.mk ["BigWigs.lua"] (Some ["BigWigs.lua"]));
    ("Bartender4",
      AddonFileConfig.mk ["Bartender4.lua"] (Some ["Bartender4.lua"]));
    ("Dominos", AddonFileConfig.mk ["Dominos.lua"] (Some ["Dominos.lua"])) ].

Definition getVersionFolder (version : WoWVersion) : string :=
  match version with
  | retail => "_retail_"
  | classic => "_classic_"
  | classic_era => "_classic_era_"
  end.

Module AccountDir.
(** The account directory
    [<wowPath>/<getVersionFolder version>/WTF/Account/<accountName>] that a
    capture or an apply addresses: its [SavedVariables] directory ([None]:
    it does not exist) and its [config-cache.wtf] file. *)
Record t := mk {
  SavedVariables : option (list (string * string));
  config_cache : option string
}.
End AccountDir.

Module FS.
(** What an apply can touch: the account directory ([None]: it does not
    exist) and the directories under [backupsDir], by name. *)
Record t := mk {
  account : option AccountDir.t;
  backups : list (string * list (string * string))
}.
End FS.

Definition savedVars (account : option AccountDir.t)
  : option (list (string * string)) :=
  account ≫= AccountDir.SavedVariables.

(** A call returns or throws; the file system keeps what was done before
    the throw. *)
Inductive outcome := Returned | Threw.

Section Capture.
(** [readable f]: [fs.readFileSync] does not throw on the existing file
    [f]. *)
Context (readable : string → bool).

(** [for (const fileName of addonConfig.accountLevel)], building
    [addonData.files]. *)
Definition captureFile (dir : list (string * string))
    (files : list (string * string)) (fileName : string)
  : list (string * string) :=
  match obj_get fileName dir with
  | Some content =>
      if readable fileName then obj_set ("account/" +:+ fileName) content files
      else files
  | None => files
  end.

(** Body of [for (const addonName of addons)], building [profile.addons]. *)
Definition captureAddon (dir : list (string * string))
    (profileAddons : list (string * AddonConfig.t)) (addonName : string)
  : list (string * AddonConfig.t) :=
  match obj_get addonName ADDON_FILES with
  | None => profileAddons
  | Some addonConfig =>
      let files :=
        foldl (captureFile dir) [] (AddonFileConfig.accountLevel addonConfig) in
      if bool_decide (0 < length files)
      then obj_set addonName (AddonConfig.mk true files) profileAddons
      else profileAddons
  end.

(** [createFromCurrentSettings]; [uuid] is [uuidv4()], [created], [updated]
    and [saved] are the three readings of the clock.  Returns the profiles
    directory and the profile object, which [saveProfile] has stamped. *)
Definition createFromCurrentSettings (uuid created updated saved : string)
    (name : string) (version : WoWVersion) (accountName : string)
    (addons : list string) (account : option AccountDir.t)
    (profilesDir : list (string * json_text))
  : list (string * json_text) * Profile.t :=
  let profile :=
    Profile.mk uuid name None None created updated version (Some accountName)
      [] None in
  match savedVars account with
  | None => saveProfile saved profile profilesDir
  | Some dir =>
      let profile :=
        Profile.set_addons (foldl (captureAddon dir) [] addons) profile in
      let profile :=
        match account ≫= AccountDir.config_cache with
        | Some content =>
            if readable "config-cache.wtf"
            then Profile.set_gameSettings (Some content) profile
            else profile
        | None => profile
        end in
      saveProfile saved profile profilesDir
  end.
End Capture.

Section Apply.
(** [copy_ok f]: [fs.copyFileSync] of the file [f] of [SavedVariables]
    into the backup directory does not throw. *)
Context (copy_ok : string → bool).

(** The copy loop of [createBackup]; [dest] is the backup directory. *)
Fixpoint copyFiles (files : list (string * string))
    (dest : list (string * string)) : outcome * list (string * string) :=
  match files with
  | [] => (Returned, dest)
  | (file, content) :: rest =>
      if endsWith file ".lua" || endsWith file ".lua.bak" then
        if copy_ok file then copyFiles rest (obj_set file content dest)
        else (Threw, dest)
      else copyFiles rest dest
  end.

Definition backupDirName (accountName now : string) : string :=
  accountName +:+ "-" +:+ replace_colon_dot now.

(** [createBackup]; [now] is [new Date().toISOString()]. *)
Definition createBackup (accountName now : string) (fs : FS.t)
  : outcome * FS.t :=
  let backupDir := backupDirName accountName now in
  match savedVars (FS.account fs) with
  | None => (Returned, fs)
  | Some files =>
      (* mkdirSync(backupDir, { recursive: true }) *)
      let dest := default [] (obj_get backupDir (FS.backups fs)) in
      let '(o, dest) := copyFiles files dest in
      (o, FS.mk (FS.account fs) (obj_set backupDir dest (FS.backups fs)))
  end.

(** [fs.writeFileSync(path.join(savedVarsPath, fileName), content)] after
    the [mkdirSync] of a missing target directory.  [fileName] is taken to
    be a plain file name. *)
Definition writeSavedVar (fileName content : string)
    (account : option AccountDir.t) : option AccountDir.t :=
  match account with
  | None => Some (AccountDir.mk (Some [(fileName, content)]) None)
  | Some a =>
      Some (AccountDir.mk
              (Some (obj_set fileName content
                       (default [] (AccountDir.SavedVariables a))))
              (AccountDir.config_cache a))
  end.

(** [for (const [fileKey, content] of Object.entries(addonConfig.files))].
    A key without a [/] leaves [fileName] undefined and [path.join]
    throws. *)
Fixpoint writeFiles (files : list (string * string))
    (account : option AccountDir.t) : outcome * option AccountDir.t :=
  match files with
  | [] => (Returned, account)
  | (fileKey, content) :: rest =>
      match split "/" fileKey with
      | level :: parts =>
          if decide (level = "account") then
            match parts with
            | fileName :: _ =>
                writeFiles rest (writeSavedVar fileName content account)
            | [] => (Threw, account)
            end
          else writeFiles rest account
      | [] => writeFiles rest account
      end
  end.

(** [for (const [, addonConfig] of Object.entries(profile.addons))]. *)
Fixpoint writeAddons (addons : list (string * AddonConfig.t))
    (account : option AccountDir.t) : outcome * option AccountDir.t :=
  match addons with
  | [] => (Returned, account)
  | (_, addonConfig) :: rest =>
      if AddonConfig.enabled addonConfig then
        match writeFiles (AddonConfig.files addonConfig) account with
        | (Returned, account) => writeAddons rest account
        | (Threw, account) => (Threw, account)
        end
      else writeAddons rest account
  end.

(** [if (profile.gameSettings) fs.writeFileSync(configCachePath, ...)];
    the write throws when the account directory does not exist. *)
Definition writeGameSettings (gameSettings : option string)
    (account : option AccountDir.t) : outcome * option AccountDir.t :=
  match gameSettings with
  | None => (Returned, account)
  | Some content =>
      if decide (content = "") then (Returned, account)
      else
        match account with
        | None => (Threw, account)
        | Some a =>
            (Returned,
             Some (AccountDir.mk (AccountDir.SavedVariables a) (Some content)))
        end
  end.

(** The writes of [loadProfile], after the backup. *)
Definition applyProfile (profile : Profile.t) (account : option AccountDir.t)
  : outcome * option AccountDir.t :=
  match writeAddons (Profile.addons profile) account with
  | (Returned, account) =>
      writeGameSettings (Profile.gameSettings profile) account
  | (Threw, account) => (Threw, account)
  end.

(** [loadProfile(profile, wowPath)]. *)
Definition loadProfile (now : string) (profile : Profile.t) (fs : FS.t)
  : outcome * FS.t :=
  match createBackup (default "" (Profile.accountName profile)) now fs with
  | (Threw, fs) => (Threw, fs)
  | (Returned, fs) =>
      let '(o, account) := applyProfile profile (FS.account fs) in
      (o, FS.mk account (FS.backups fs))
  end.
End Apply.

(** ** More of the profile store and of the remote store *)

(** Removal of a directory entry ([fs.unlinkSync]); names in a directory
    are unique. *)
Fixpoint obj_del {A} (key : string) (obj : list (string * A))
  : list (string * A) :=
  match obj with
  | [] => []
  | (k, x) :: rest =>
      if decide (k = key) then obj_del key rest else (k, x) :: obj_del key rest
  end.

(** [deleteProfile(id)]. *)
Definition deleteProfile (id : string) (profilesDir : list (string * json_text))
  : list (string * json_text) :=
  match obj_get (id +:+ ".json") profilesDir with
  | Some _ => obj_del (id +:+ ".json") profilesDir
  | None => profilesDir
  end.

(** [deleteRemoteProfile(profileId)] on a connected service:
    [files.delete] removes the file that [findFileByName] found. *)
Definition deleteRemoteProfile (profileId : string) (d : Drive.t) : Drive.t :=
  match findFileByName ("profile-" +:+ profileId +:+ ".json") d with
  | Some fileId =>
      Drive.mk (filter (λ f, DriveFile.fileId f ≠ fileId) (Drive.files d))
        (Drive.nextId d)
  | None => d
  end.



Section BulkHandlers.
Context `{JSDate}.
Context (now : nat → string) (serverNow : nat → string).



End BulkHandlers.

(** ** Installed add-ons ([ProfileManager.scanInstalledAddons]) *)

(** [existingFiles.includes(fileName)]. *)
Definition includes (fileName : string) (existingFiles : list string) : bool :=
  bool_decide (fileName ∈ existingFiles).

Definition hasAnyFile (existingFiles : list string)
    (config : AddonFileConfig.t) : bool :=
  existsb (λ fileName, includes fileName existingFiles)
    (AddonFileConfig.accountLevel config).

Definition scanInstalledAddons (account : option AccountDir.t) : list string :=
  match savedVars account with
  | None => []
  | Some dir =>
      let existingFiles := dir.*1 in
      (filter (λ e, hasAnyFile existingFiles e.2 = true) ADDON_FILES).*1
  end.

(** ** Application settings ([SettingsManager]) *)

Module AppSettings.
Record t := mk {
  wowPath : option string;
  selectedVersion : option WoWVersion;
  selectedAccount : option string;
  enabledAddons : list string;
  googleDriveConnected : bool;
  googleDriveEmail : option string;
  autoSync : bool;
  lastSyncTime : option string
}.
End AppSettings.

Module PartialSettings.
(** [Partial<AppSettings>]: every key may be missing ([None]). *)
Record t := mk {
  wowPath : option (option string);
  selectedVersion : option (option WoWVersion);
  selectedAccount : option (option string);
  enabledAddons : option (list string);
  googleDriveConnected : option bool;
  googleDriveEmail : option (option string);
  autoSync : option bool;
  lastSyncTime : option (option string)
}.
End PartialSettings.

Definition DEFAULT_SETTINGS : AppSettings.t :=
  AppSettings.mk None None None
    ["ElvUI"; "WeakAuras"; "Details"; "DBM"; "ConsolePort"]
    false None false None.

(** The text of [settings.json], as [JSON.parse] sees it. *)
Inductive settings_text :=
  | SettingsJson (p : PartialSettings.t)
  | SettingsMalformed.

(** [{ ...base, ...over }]. *)
Definition spread (base : AppSettings.t) (over : PartialSettings.t)
  : AppSettings.t :=
  AppSettings.mk
    (default (AppSettings.wowPath base) (PartialSettings.wowPath over))
    (default (AppSettings.selectedVersion base)
       (PartialSettings.selectedVersion over))
    (default (AppSettings.selectedAccount base)
       (PartialSettings.selectedAccount over))
    (default (AppSettings.enabledAddons base)
       (PartialSettings.enabledAddons over))
    (default (AppSettings.googleDriveConnected base)
       (PartialSettings.googleDriveConnected over))
    (default (AppSettings.googleDriveEmail base)
       (PartialSettings.googleDriveEmail over))
    (default (AppSettings.autoSync base) (PartialSettings.autoSync over))
    (default (AppSettings.lastSyncTime base) (PartialSettings.lastSyncTime over)).

(** [JSON.stringify(settings)] of a complete settings object. *)
Definition stringify_settings (s : AppSettings.t) : settings_text :=
  SettingsJson
    (PartialSettings.mk (Some (AppSettings.wowPath s))
       (Some (AppSettings.selectedVersion s))
       (Some (AppSettings.selectedAccount s))
       (Some (AppSettings.enabledAddons s))
       (Some (AppSettings.googleDriveConnected s))
       (Some (AppSettings.googleDriveEmail s))
       (Some (AppSettings.autoSync s))
       (Some (AppSettings.lastSyncTime s))).

(** [getSettings()]; the argument is [settings.json] ([None]: no such
    file). *)
Definition getSettings (file : option settings_text) : AppSettings.t :=
  match file with
  | None => DEFAULT_SETTINGS
  | Some (SettingsJson p) => spread DEFAULT_SETTINGS p
  | Some SettingsMalformed => DEFAULT_SETTINGS
  end.

(** [saveSettings(settings)]. *)
Definition saveSettings (settings : AppSettings.t)
    (file : option settings_text) : option settings_text :=
  Some (stringify_settings settings).

(** The tail of the [gdrive:sync], [gdrive:push] and [gdrive:pull] handlers:
    [saveSettings({ ...settings, lastSyncTime: new Date().toISOString() })]
    on what [getSettings] returned. *)
Definition stampLastSyncTime (now : string) (file : option settings_text)
  : option settings_text :=
  let settings := getSettings file in
  saveSettings
    (AppSettings.mk (AppSettings.wowPath settings)
       (AppSettings.selectedVersion settings)
       (AppSettings.selectedAccount settings)
       (AppSettings.enabledAddons settings)
       (AppSettings.googleDriveConnected settings)
       (AppSettings.googleDriveEmail settings)
       (AppSettings.autoSync settings)
       (Some now))
    file.

(** ** Accounts and characters ([wowDetector.scanWoWAccounts]) *)

(** An entry of a directory listing read [withFileTypes]: not a directory,
    or a directory with what [fs.readdirSync] returns on it ([None]: it
    throws). *)
Inductive dirent (A : Type) :=
  | NotDirectory
  | Directory (listing : option A).
Arguments NotDirectory {A}.
Arguments Directory {A} listing.

Module WoWCharacter.
Record t := mk { name : string; realm : string; path : string }.
End WoWCharacter.

Module WoWAccount.
Record t := mk {
  name : string;
  path : string;
  characters : list WoWCharacter.t
}.
End WoWAccount.

Section Accounts.
(** [path.join] of a directory path and an entry name. *)
Context (path_join : string → string → string).

(** [for (const charDir of charDirs)]; an entry is a name and whether it is
    a directory. *)
Definition scanCharDirs (realm realmPath : string)
    (charDirs : list (string * bool)) : list WoWCharacter.t :=
  (λ e, WoWCharacter.mk e.1 realm (path_join realmPath e.1)) <$>
    filter (λ e, e.2 = true) charDirs.

(** [for (const realmDir of realmDirs)] inside the [try] of
    [scanCharacters]: a realm that cannot be read ends the loop, the
    characters pushed so far are returned. *)
Fixpoint scanRealmDirs (accountPath : string)
    (realmDirs : list (string * dirent (list (string * bool))))
  : list WoWCharacter.t :=
  match realmDirs with
  | [] => []
  | (name, NotDirectory) :: rest => scanRealmDirs accountPath rest
  | (name, Directory listing) :: rest =>
      if decide (name = "SavedVariables") then scanRealmDirs accountPath rest
      else
        match listing with
        | Some charDirs =>
            scanCharDirs name (path_join accountPath name) charDirs
              ++ scanRealmDirs accountPath rest
        | None => []
        end
  end.

Definition scanCharacters (accountPath : string)
    (listing : option (list (string * dirent (list (string * bool)))))
  : list WoWCharacter.t :=
  match listing with
  | Some realmDirs => scanRealmDirs accountPath realmDirs
  | None => []
  end.

(** [for (const accountDir of accountDirs)]. *)
Fixpoint scanAccountDirs (wtfPath : string)
    (accountDirs :
       list (string * dirent (list (string * dirent (list (string * bool))))))
  : list WoWAccount.t :=
  match accountDirs with
  | [] => []
  | (name, NotDirectory) :: rest => scanAccountDirs wtfPath rest
  | (name, Directory listing) :: rest =>
      if decide (name = "SavedVariables") then scanAccountDirs wtfPath rest
      else
        WoWAccount.mk name (path_join wtfPath name)
          (scanCharacters (path_join wtfPath name) listing)
          :: scanAccountDirs wtfPath rest
  end.

(** [scanWoWAccounts(wowPath, version)]; [wtf] is the directory
    [<wowPath>/<version folder>/WTF/Account]: [None] when it does not
    exist, [Some None] when reading it throws. *)
Definition scanWoWAccounts (wowPath : string) (version : WoWVersion)
    (wtf : option
             (option
                (list (string *
                       dirent (list (string * dirent (list (string * bool))))))))
  : list WoWAccount.t :=
  let wtfPath :=
    path_join (path_join (path_join wowPath (getVersionFolder version)) "WTF")
      "Account" in
  match wtf with
  | None => []
  | Some None => []
  | Some (Some accountDirs) => scanAccountDirs wtfPath accountDirs
  end.
End Accounts.

(** ** A date parser for the examples

    [iso_getTime] reads the format that [Date.prototype.toISOString] writes
    and that Drive uses for [modifiedTime]: [YYYY-MM-DDTHH:mm:ss.sssZ].  Any
    other text is taken to be no date. *)

Fixpoint digits (n : nat) (acc : Z) (s : string) : option (Z * string) :=
  match n with
  | O => Some (acc, s)
  | S n' =>
      match s with
      | String c s' =>
          d ← Ascii.is_nat c; digits n' (acc * 10 + Z.of_nat d)%Z s'
      | EmptyString => None
      end
  end.

Definition expect (c : ascii) (s : string) : option string :=
  match s with
  | String c' s' => if Ascii.eqb c c' then Some s' else None
  | EmptyString => None
  end.

Definition leap_year (y : Z) : bool :=
  ((y mod 4 =? 0) && negb (y mod 100 =? 0) || (y mod 400 =? 0))%Z.

Definition days_in_month (y m : Z) : Z :=
  if (m =? 2)%Z then (if leap_year y then 29 else 28)%Z
  else if ((m =? 4) || (m =? 6) || (m =? 9) || (m =? 11))%Z then 30%Z
  else 31%Z.

(** Days from 1970-01-01 to the given civil date. *)
Definition days_from_civil (y m d : Z) : Z :=
  let y' := (if (m <=? 2)%Z then y - 1 else y)%Z in
  let era := (y' / 400)%Z in
  let yoe := (y' - era * 400)%Z in
  let mp := (if (2 <? m)%Z then m - 3 else m + 9)%Z in
  let doy := ((153 * mp + 2) / 5 + d - 1)%Z in
  let doe := (yoe * 365 + yoe / 4 - yoe / 100 + doy)%Z in
  (era * 146097 + doe - 719468)%Z.

Definition iso_getTime (s : string) : option Z :=
  '(y, s) ← digits 4 0 s; s ← expect "-" s;
  '(mo, s) ← digits 2 0 s; s ← expect "-" s;
  '(d, s) ← digits 2 0 s; s ← expect "T" s;
  '(h, s) ← digits 2 0 s; s ← expect ":" s;
  '(mi, s) ← digits 2 0 s; s ← expect ":" s;
  '(sec, s) ← digits 2 0 s; s ← expect "." s;
  '(ms, s) ← digits 3 0 s; s ← expect "Z" s;
  if decide (s = "") then
    if ((1 <=? mo) && (mo <=? 12) && (1 <=? d) && (d <=? days_in_month y mo)
        && (h <=? 23) && (mi <=? 59) && (sec <=? 59))%Z
    then Some ((((days_from_civil y mo d * 24 + h) * 60 + mi) * 60 + sec)
               * 1000 + ms)%Z
    else None
  else None.

Definition iso_date : JSDate := iso_getTime.

(** ** Example data *)

Module Ex.
Definition elvui : AddonConfig.t :=
  AddonConfig.mk true [("account/ElvUI.lua", "ElvDB = {}")].

Definition mk (id name updatedAt : string) : Profile.t :=
  Profile.mk id name None None "2024-01-01T08:00:00.000Z" updatedAt retail
    (Some "PLAYER1") [("ElvUI", elvui)] (Some "SET cameraDistance 2").

Definition t1 : string := "2024-03-01T10:00:00.000Z".
Definition t2 : string := "2024-03-02T10:00:00.000Z".
Definition t3 : string := "2024-03-03T10:00:00.000Z".
Definition t4 : string := "2024-03-04T10:00:00.000Z".

Definition raid : Profile.t := mk "a1" "Raid UI" t2.
Definition solo : Profile.t := mk "b2" "Solo UI" t2.
Definition pvp : Profile.t := mk "c3" "PvP UI" t1.

Definition clock (t : string) : nat → string := λ _, t.

(** A profiles directory whose first record does not decode. *)
Definition dir_broken : list (string * json_text) :=
  [("0-broken.json", Malformed); ("a1.json", Encoded raid);
   ("c3.json", Encoded pvp)].

(** Two records written at the same instant, as [fs.readdirSync] lists
    their files. *)
Definition dir_ab : list (string * json_text) :=
  [("a1.json", Encoded raid); ("b2.json", Encoded solo)].

Definition file_of (fid : nat) (modified : string) (p : Profile.t)
  : DriveFile.t :=
  DriveFile.mk fid (profileFileName p) modified p true.

(** A Drive folder that holds one profile the local store does not have. *)
Definition drive_pvp : Drive.t := Drive.mk [file_of 0 t1 pvp] 1.
Definition world_remote_only : World.t := World.mk [] (Some drive_pvp).


(** [raid] as another device wrote and uploaded it at [t3], and as a local
    edit left it at [t4] while a pass was under way. *)
Definition raid_remote : Profile.t := mk "a1" "Raid UI" t3.
Definition raid_edited : Profile.t := mk "a1" "Raid UI" t4.
Definition drive_raid : Drive.t := Drive.mk [file_of 0 t3 raid_remote] 1.
Definition record_raid : Remote.t :=
  Remote.mk 0 (profileFileName raid_remote) t3 raid_remote.

(** A Drive folder in which two files hold the profile [a1]: the first as
    uploaded at [t1], the second as another device uploaded it at [t3]. *)
Definition raid_first : Profile.t := mk "a1" "Raid UI" t1.
Definition drive_raid_twice : Drive.t :=
  Drive.mk [file_of 0 t1 raid_first; file_of 1 t3 raid_remote] 2.
Definition record_raid_first : Remote.t :=
  Remote.mk 0 (profileFileName raid_first) t1 raid_first.

(** A Drive folder in which two files hold the profile [c3]: the first
    as written at [t2], the second as written at [t1]. *)
Definition pvp_later : Profile.t := mk "c3" "PvP UI" t2.
Definition world_two_blobs : World.t :=
  World.mk [] (Some (Drive.mk [file_of 0 t2 pvp_later; file_of 1 t1 pvp] 2)).

(** Both sides hold [raid], written at the same instant. *)
Definition world_converged : World.t :=
  World.mk [("a1.json", Encoded raid)]
    (Some (Drive.mk [file_of 0 t2 raid] 1)).

(** A live account directory with settings of its own. *)
Definition live : AccountDir.t :=
  AccountDir.mk
    (Some [("ElvUI.lua", "ElvDB = { old = true }"); ("Details.lua", "old")])
    (Some "SET cameraDistance 1").
Definition fs_live : FS.t := FS.mk (Some live) [].

(** The same tree before the game created [SavedVariables]. *)
Definition fs_fresh : FS.t := FS.mk (Some (AccountDir.mk None None)) [].

Definition all_ok : string → bool := λ _, true.
Definition details_fails : string → bool :=
  λ f, negb (String.eqb f "Details.lua").

(** A profiles directory as [saveProfile] leaves it. *)
Definition dir_two : list (string * json_text) :=
  [("a1.json", Encoded raid); ("c3.json", Encoded pvp)].
End Ex.

(** ** Vocabulary of the properties *)

Section Vocabulary.
Context `{JSDate}.

(** The instant a profile was last written, as the comparisons see it. *)
Definition instant (p : Profile.t) : option Z :=
  Date_getTime (Profile.updatedAt p).

(** [p] was written no earlier than [q]. *)
Definition not_older (p q : Profile.t) : Prop :=
  ∃ tp tq, instant p = Some tp ∧ instant q = Some tq ∧ (tq ≤ tp)%Z.

(** No profile of the list is older than one that comes after it. *)
Definition newest_first (l : list Profile.t) : Prop :=
  ∀ i j p q, i < j → l !! i = Some p → l !! j = Some q → not_older p q.

(** The branch that the first loop of [syncProfiles] takes on a local
    profile. *)
Definition uploadsLocal (rmap : gmap string Remote.t) (l : Profile.t) : bool :=
  match rmap !! Profile.id l with
  | None => true
  | Some r => date_gt (Profile.updatedAt l) (Remote.modifiedTime r)
  end.

Definition marksLocal (rmap : gmap string Remote.t) (l : Profile.t) : bool :=
  match rmap !! Profile.id l with
  | None => false
  | Some r =>
      negb (date_gt (Profile.updatedAt l) (Remote.modifiedTime r))
      && date_gt (Remote.modifiedTime r) (Profile.updatedAt l)
  end.

(** Last write wins as the specification has it: the comparison of a
    local profile with any remote record of its id decides the transfer. *)
Definition every_record_decides : Prop :=
  ∀ (serverNow : nat → string) locals d st L R,
    syncProfiles serverNow locals (Some d) = Some st →
    L ∈ locals →
    R ∈ listRemoteProfiles d →
    Profile.id (Remote.profile R) = Profile.id L →
    (L ∈ SyncState.uploadLog st
       ↔ date_gt (Profile.updatedAt L) (Remote.modifiedTime R) = true) ∧
    (L ∈ SyncState.markLog st
       ↔ date_gt (Remote.modifiedTime R) (Profile.updatedAt L) = true).

(** Every name of the result lists is the name of a logged profile. *)
Definition names_agree (st : SyncState.t) : Prop :=
  SyncResult.uploaded (SyncState.result st)
    = Profile.name <$> SyncState.uploadLog st ∧
  SyncResult.downloaded (SyncState.result st)
    = Profile.name <$> SyncState.markLog st.

(** Local and remote hold the same ids, and for no id is one side later
    than the other. *)
Definition converged (locals : list Profile.t) (remotes : list Remote.t)
  : Prop :=
  (∀ L, L ∈ locals →
        ∃ R, remoteMap remotes !! Profile.id L = Some R ∧
             date_gt (Profile.updatedAt L) (Remote.modifiedTime R) = false ∧
             date_gt (Remote.modifiedTime R) (Profile.updatedAt L) = false) ∧
  (∀ R, R ∈ remotes →
        ∃ L, L ∈ locals ∧ Profile.id L = Profile.id (Remote.profile R)).

(** Idempotence as the specification has it: whatever the start, the
    second of two passes in succession transfers nothing. *)
Definition second_pass_empty : Prop :=
  ∀ (now1 server1 now2 server2 : nat → string) w r1 w1 r2 w2,
    gdrive_sync now1 server1 w = Some (r1, w1) →
    gdrive_sync now2 server2 w1 = Some (r2, w2) →
    SyncResult.uploaded r2 = [] ∧ SyncResult.downloaded r2 = [].

(** The apply-time test as the specification has it: a remote profile
    whose id was marked for download is saved only if the profiles
    directory, as it is when the apply loop runs, holds no profile with
    that id or holds one older than the remote [modifiedTime]. *)
Definition apply_rechecks_store : Prop :=
  ∀ (now serverNow : nat → string) locals d st dirNow R,
    syncProfiles serverNow locals (Some d) = Some st →
    R ∈ listRemoteProfiles (SyncState.drive st) →
    Profile.id (Remote.profile R) ∈ Profile.id <$> SyncState.markLog st →
    Remote.profile R
      ∈ (applyDownloads now locals (pullProfiles (SyncState.drive st))
           dirNow).2 →
    match getProfile (Profile.id (Remote.profile R)) dirNow with
    | None => True
    | Some l => date_gt (Remote.modifiedTime R) (Profile.updatedAt l) = true
    end.
End Vocabulary.

(** [fs.readdirSync] lists the files of a directory in increasing order of
    their names, compared byte by byte. *)
Definition readdir_sorted {A} (dir : list (string * A)) : Prop :=
  StronglySorted (λ f g, String.compare f g = Lt) dir.*1.

(** The file ids of a Drive folder are the server's: no two files share
    one, and each is below the next one that the server assigns. *)
Definition drive_ids (d : Drive.t) : Prop :=
  NoDup (DriveFile.fileId <$> Drive.files d) ∧
  ∀ f, f ∈ Drive.files d → DriveFile.fileId f < Drive.nextId d.

(** The Drive folder holds [p] as an [uploadProfile] of the pass wrote it:
    as the body of the file named after it, with the server's stamp of
    that upload. *)
Definition holds_upload (serverNow : nat → string) (d : Drive.t)
    (p : Profile.t) : Prop :=
  ∃ f k, f ∈ Drive.files d ∧
         DriveFile.fileName f = profileFileName p ∧
         DriveFile.body f = p ∧
         DriveFile.modifiedTime f = serverNow k.

(** The shape of a Drive folder that only [uploadProfile] has written: file
    ids and file names are unique, every file is named after the profile it
    holds, and its id is below the next fresh one. *)
Definition drive_wf (d : Drive.t) : Prop :=
  NoDup (DriveFile.fileId <$> Drive.files d) ∧
  NoDup (DriveFile.fileName <$> Drive.files d) ∧
  ∀ f, f ∈ Drive.files d →
       DriveFile.fileName f = profileFileName (DriveFile.body f) ∧
       DriveFile.fileId f < Drive.nextId d.

(** What a capture stores under an add-on name: an enabled bundle of at
    least one file, for a requested add-on, every file a settings file of
    that add-on that was found in [dir] and read. *)
Definition captured (readable : string → bool) (dir : list (string * string))
    (addons : list string) (a : string) (data : AddonConfig.t) : Prop :=
  AddonConfig.enabled data = true ∧
  AddonConfig.files data ≠ [] ∧
  a ∈ addons ∧
  ∃ cfg, obj_get a ADDON_FILES = Some cfg ∧
    ∀ key content, (key, content) ∈ AddonConfig.files data →
      ∃ f, key = "account/" +:+ f ∧ f ∈ AddonFileConfig.accountLevel cfg ∧
           obj_get f dir = Some content ∧ readable f = true.

(** The shape of a profiles directory that only [saveProfile] and
    [deleteProfile] have written: file names are unique and every file is
    the encoding of a profile, named after its id. *)
Definition store_ok (dir : list (string * json_text)) : Prop :=
  NoDup dir.*1 ∧
  ∀ f c, (f, c) ∈ dir → ∃ q, c = Encoded q ∧ f = Profile.id q +:+ ".json".


(** What a file of [SavedVariables] reads as in an account directory, and
    the content of its [config-cache.wtf]. *)
Definition reads (account : option AccountDir.t) (f : string) : option string :=
  savedVars account ≫= obj_get f.

Definition config_of (account : option AccountDir.t) : option string :=
  account ≫= AccountDir.config_cache.

(** The files of an add-on bundle are keyed [account/<file>] for settings
    files of the table [ADDON_FILES], with the content that [dir] holds. *)
Definition keyed (dir : list (string * string))
    (files : list (string * string)) : Prop :=
  ∀ key c, (key, c) ∈ files →
    ∃ f, key = "account/" +:+ f ∧ split "/" key = ["account"; f] ∧
         obj_get f dir = Some c.

(** An entry of a listing that the scans of [wowDetector] keep: a directory
    that is not named [SavedVariables]. *)
Definition kept_dir {A} (e : string * dirent A) : bool :=
  match e.2 with
  | Directory _ => bool_decide (e.1 ≠ "SavedVariables")
  | NotDirectory => false
  end.
(** * Properties *)

(** ** Objects and file names *)

Lemma obj_get_set_eq {A} key (v : A) obj : obj_get key (obj_set key v obj) = Some v.
Proof.
  induction obj as [|[k x] rest IH]; simpl.
  - by rewrite decide_True.
  - destruct (decide (k = key)) as [->|Hne]; simpl.
    + by rewrite decide_True.
    + by rewrite decide_False.
Qed.

Lemma obj_get_set_ne {A} key key' (v : A) obj :
  key ≠ key' → obj_get key' (obj_set key v obj) = obj_get key' obj.
Proof.
  intros Hne. induction obj as [|[k x] rest IH]; simpl.
  - by rewrite decide_False.
  - destruct (decide (k = key)) as [->|Hk]; simpl.
    + by rewrite !decide_False.
    + by rewrite IH.
Qed.

Lemma obj_get_elem_of {A} key (v : A) obj :
  obj_get key obj = Some v → (key, v) ∈ obj.
Proof.
  induction obj as [|[k x] rest IH]; simpl; [done|].
  destruct (decide (k = key)) as [->|Hk].
  - intros [= ->]. apply list_elem_of_here.
  - intros Hg. apply list_elem_of_further. auto.
Qed.

Lemma obj_get_None {A} key (obj : list (string * A)) :
  obj_get key obj = None ↔ ∀ v, (key, v) ∉ obj.
Proof.
  induction obj as [|[k x] rest IH]; simpl.
  - split; [intros _ v Hin; by apply elem_of_nil in Hin|done].
  - destruct (decide (k = key)) as [->|Hk].
    + split; [done|]. intros Hno. destruct (Hno x). apply list_elem_of_here.
    + rewrite IH. split.
      * intros Hno v [Heq|Hin]%elem_of_cons; [congruence|by eapply Hno].
      * intros Hno v Hin. eapply Hno. by apply list_elem_of_further.
Qed.

Lemma obj_get_None_keys {A} key (obj : list (string * A)) :
  obj_get key obj = None ↔ key ∉ obj.*1.
Proof.
  induction obj as [|[k y] rest IH]; simpl.
  - split; [intros _ Hin; by apply elem_of_nil in Hin|done].
  - destruct (decide (k = key)) as [->|Hne].
    + split; [done|]. intros Hnot. destruct Hnot. by left.
    + rewrite IH, not_elem_of_cons. split; [by intros ?|by intros [_ ?]].
Qed.

Lemma obj_get_NoDup {A} key (x : A) obj :
  NoDup obj.*1 → (key, x) ∈ obj → obj_get key obj = Some x.
Proof.
  induction obj as [|[k y] rest IH]; intros Hnd Hin.
  - by apply elem_of_nil in Hin.
  - rewrite fmap_cons in Hnd. apply NoDup_cons in Hnd as [Hk Hnd]. simpl.
    apply elem_of_cons in Hin as [[= <- <-]|Hin]; [by rewrite decide_True|].
    rewrite decide_False; [by apply IH|]. intros ->. apply Hk.
    apply list_elem_of_fmap. by exists (key, x).
Qed.

Lemma string_app_cons c (s t : string) : String c s +:+ t = String c (s +:+ t).
Proof. reflexivity. Qed.

Lemma string_app_length (s t : string) :
  String.length (s +:+ t) = String.length s + String.length t.
Proof.
  induction s as [|c s IH]; [done|].
  rewrite string_app_cons. simpl. by rewrite IH.
Qed.

Lemma string_app_inj_r (s1 s2 t : string) : s1 +:+ t = s2 +:+ t → s1 = s2.
Proof.
  revert s2. induction s1 as [|c s1 IH]; intros [|c2 s2] Heq.
  - done.
  - apply (f_equal String.length) in Heq.
    rewrite !string_app_length in Heq. simpl in Heq. lia.
  - apply (f_equal String.length) in Heq.
    rewrite !string_app_length in Heq. simpl in Heq. lia.
  - rewrite !string_app_cons in Heq. injection Heq as -> Heq.
    f_equal. by apply IH.
Qed.

Lemma json_name_inj (id1 id2 : string) :
  id1 +:+ ".json" = id2 +:+ ".json" → id1 = id2.
Proof. apply string_app_inj_r. Qed.

Lemma profileFileName_inj p q :
  profileFileName p = profileFileName q → Profile.id p = Profile.id q.
Proof.
  unfold profileFileName. intros Heq.
  apply (inj (String.app "profile-")) in Heq. by apply string_app_inj_r in Heq.
Qed.

Lemma substring_all (t : string) : String.substring 0 (String.length t) t = t.
Proof. induction t as [|c t IH]; simpl; [done|]. by rewrite IH. Qed.

Lemma substring_app_skip (s t : string) m :
  String.substring (String.length s) m (s +:+ t) = String.substring 0 m t.
Proof.
  induction s as [|c s IH]; [done|]. rewrite string_app_cons. simpl. apply IH.
Qed.

Lemma endsWith_app (s t : string) : endsWith (s +:+ t) t = true.
Proof.
  unfold endsWith. rewrite string_app_length.
  assert ((String.length t <=? String.length s + String.length t)%nat = true)
    as -> by (apply Nat.leb_le; lia).
  replace (String.length s + String.length t - String.length t)
    with (String.length s) by lia.
  rewrite substring_app_skip, substring_all. apply String.eqb_refl.
Qed.

(** ** [saveProfile] *)

Lemma getProfile_save_eq now p dir :
  getProfile (Profile.id p) (saveProfile now p dir).1
  = Some (Profile.set_updatedAt now p).
Proof. unfold getProfile, saveProfile. simpl. by rewrite obj_get_set_eq. Qed.

Lemma getProfile_save_ne now p dir id :
  Profile.id p ≠ id →
  getProfile id (saveProfile now p dir).1 = getProfile id dir.
Proof.
  intros Hne. unfold getProfile, saveProfile. simpl.
  rewrite obj_get_set_ne; [done|]. intros Heq. by apply json_name_inj in Heq.
Qed.

(** C10.  [saveProfile] writes, under [<id>.json], the record it was given
    with [updatedAt] replaced by the time of the save: the file decodes to a
    profile in which [id], [name], [description], [device], [createdAt],
    [wowVersion], [accountName], [addons] and [gameSettings] are those of the
    argument and [updatedAt] is [now].  The caller's object carries the same
    stamp after the call. *)
Theorem saveProfile_frame (now : string) (p : Profile.t)
    (dir : list (string * json_text)) :
  ∃ q,
    obj_get (Profile.id p +:+ ".json") (saveProfile now p dir).1
      = Some (JSON_stringify q) ∧
    getProfile (Profile.id p) (saveProfile now p dir).1 = Some q ∧
    (saveProfile now p dir).2 = q ∧
    Profile.id q = Profile.id p ∧
    Profile.name q = Profile.name p ∧
    Profile.description q = Profile.description p ∧
    Profile.device q = Profile.device p ∧
    Profile.createdAt q = Profile.createdAt p ∧
    Profile.wowVersion q = Profile.wowVersion p ∧
    Profile.accountName q = Profile.accountName p ∧
    Profile.addons q = Profile.addons p ∧
    Profile.gameSettings q = Profile.gameSettings p ∧
    Profile.updatedAt q = now.
Proof.
  exists (Profile.set_updatedAt now p). split.
  { unfold saveProfile. simpl. by rewrite obj_get_set_eq. }
  split; [apply getProfile_save_eq|]. by repeat split.
Qed.

(** ** [listProfiles] *)

Lemma readProfiles_stops pre f post :
  endsWith f ".json" = true →
  readProfiles (pre ++ (f, Malformed) :: post) = readProfiles pre.
Proof.
  intros Hjson. induction pre as [|[g c] pre IH]; simpl.
  - by rewrite Hjson.
  - destruct (endsWith g ".json"); [|done].
    destruct (JSON_parse c); [by rewrite IH|done].
Qed.

Lemma readProfiles_all_valid dir :
  (∀ f c, (f, c) ∈ dir → endsWith f ".json" = true → c ≠ Malformed) →
  readProfiles dir
  = omap (λ e, if endsWith e.1 ".json" then JSON_parse e.2 else None) dir.
Proof.
  induction dir as [|[f c] dir IH]; intros Hok; simpl; [done|].
  destruct (endsWith f ".json") eqn:Hf.
  - destruct c as [p|]; simpl.
    + rewrite IH; [done|]. intros g c' Hin. apply Hok. by right.
    + destruct (Hok f Malformed); [left|done..].
  - apply IH. intros g c' Hin. apply Hok. by right.
Qed.

(** The remote listing, by contrast, leaves out the one file that fails. *)
Lemma listRemoteProfiles_skips pre f post n :
  DriveFile.fetchable f = false →
  listRemoteProfiles (Drive.mk (pre ++ f :: post) n)
  = listRemoteProfiles (Drive.mk (pre ++ post) n).
Proof.
  intros Hf. unfold listRemoteProfiles. simpl.
  rewrite !filter_app, filter_cons_False; [done|]. by rewrite Hf.
Qed.

(** C6.  On a profiles directory whose first record does not decode,
    [listProfiles] returns the empty list although the two records after it
    are valid: the [try] encloses the whole loop, so the records that follow
    an undecodable one are lost with it. *)
Theorem listProfiles_corrupt_first :
  listProfiles (H := iso_date) Ex.dir_broken = [] ∧
  getProfile "a1" Ex.dir_broken = Some Ex.raid ∧
  getProfile "c3" Ex.dir_broken = Some Ex.pvp.
Proof. by vm_compute. Qed.

Lemma store_ok_readProfiles dir :
  store_ok dir →
  readProfiles dir = omap (λ e, JSON_parse e.2) dir.
Proof.
  intros [_ Hfiles]. induction dir as [|[f c] dir IH]; simpl; [done|].
  destruct (Hfiles f c) as (q & -> & ->); [by left|].
  rewrite endsWith_app. simpl. rewrite IH; [done|].
  intros g c' Hin. apply Hfiles. by right.
Qed.

Lemma store_ok_listed dir q :
  store_ok dir →
  (q ∈ readProfiles dir ↔ (Profile.id q +:+ ".json", Encoded q) ∈ dir).
Proof.
  intros Hok. rewrite store_ok_readProfiles by done.
  rewrite list_elem_of_omap. destruct Hok as [_ Hfiles]. split.
  - intros ([f c] & Hin & Hparse). simpl in Hparse.
    destruct (Hfiles f c Hin) as (q' & -> & ->). simpl in Hparse.
    by injection Hparse as ->.
  - intros Hin. by exists (Profile.id q +:+ ".json", Encoded q).
Qed.

Section Sorting.
Context `{JSDate}.

Lemma sort_insert_perm {A} (cmp : A → A → option Z) x l :
  sort_insert cmp x l ≡ₚ x :: l.
Proof.
  induction l as [|y l IH]; simpl; [done|].
  destruct (num_pos (cmp x y)); [|done].
  rewrite IH. apply Permutation_swap.
Qed.

Lemma Array_sort_perm {A} (cmp : A → A → option Z) l : Array_sort cmp l ≡ₚ l.
Proof.
  induction l as [|x l IH]; simpl; [done|].
  rewrite sort_insert_perm. by f_equiv.
Qed.

Lemma sort_insert_filter {A} (cmp : A → A → option Z) (P : A → Prop)
    `{∀ x, Decision (P x)} x l :
  (∀ y, P x → P y → num_pos (cmp x y) = false) →
  filter P (sort_insert cmp x l) = filter P (x :: l).
Proof.
  intros Htie. induction l as [|y l IH]; simpl; [done|].
  destruct (num_pos (cmp x y)) eqn:Hc; [|done].
  rewrite (filter_cons _ y), IH, !(filter_cons _ x), (filter_cons _ y).
  destruct (decide (P x)) as [Hx|Hx], (decide (P y)) as [Hy|Hy]; try done.
  specialize (Htie y Hx Hy). congruence.
Qed.

Lemma byUpdatedAtDesc_tie t x y :
  instant x = Some t → instant y = Some t →
  num_pos (byUpdatedAtDesc x y) = false.
Proof.
  unfold instant, byUpdatedAtDesc. intros -> ->. simpl.
  apply bool_decide_eq_false. lia.
Qed.

Lemma Array_sort_stable t l :
  filter (λ p, instant p = Some t) (Array_sort byUpdatedAtDesc l)
  = filter (λ p, instant p = Some t) l.
Proof.
  induction l as [|x l IH]; simpl; [done|].
  rewrite sort_insert_filter.
  - by rewrite !filter_cons, IH.
  - intros y. apply byUpdatedAtDesc_tie.
Qed.

Lemma sort_insert_sorted x l :
  is_Some (instant x) →
  Forall (λ p, is_Some (instant p)) l →
  StronglySorted not_older l →
  StronglySorted not_older (sort_insert byUpdatedAtDesc x l).
Proof.
  intros [tx Hx] Hval Hs. induction l as [|y l IH]; simpl.
  - repeat constructor.
  - apply Forall_cons in Hval as [[ty Hy] Hval].
    apply StronglySorted_cons in Hs as [Hyl Hs].
    unfold byUpdatedAtDesc. fold (instant x) (instant y).
    rewrite Hx, Hy. simpl. case_bool_decide as Hlt.
    + apply StronglySorted_cons. split; [|by apply IH].
      rewrite sort_insert_perm. constructor; [|done].
      exists ty, tx. repeat split; [done..|lia].
    + apply StronglySorted_cons. split.
      * constructor; [exists tx, ty; repeat split; [done..|lia]|].
        eapply Forall_impl; [exact Hyl|].
        intros z (ty' & tz & Hy' & Hz & Hle).
        exists tx, tz. repeat split; [done..|].
        rewrite Hy in Hy'. injection Hy' as <-. lia.
      * apply StronglySorted_cons. by split.
Qed.

Lemma Array_sort_sorted l :
  Forall (λ p, is_Some (instant p)) l →
  StronglySorted not_older (Array_sort byUpdatedAtDesc l).
Proof.
  induction l as [|x l IH]; simpl; [constructor|].
  intros [Hx Hval]%Forall_cons. apply sort_insert_sorted; [done| |by apply IH].
  by rewrite Array_sort_perm.
Qed.

Lemma StronglySorted_newest_first l :
  StronglySorted not_older l → newest_first l.
Proof.
  induction 1 as [|x l Hs IH Hx]; intros i j p q Hij Hi Hj.
  - by rewrite lookup_nil in Hi.
  - destruct j as [|j]; [lia|]. simpl in Hj. destruct i as [|i]; simpl in Hi.
    + injection Hi as <-. eapply Forall_forall; [exact Hx|].
      by eapply list_elem_of_lookup_2.
    + eapply (IH i j); [lia|done..].
Qed.

Lemma lookup_lt_sublist {A} (l : list A) i j x y :
  i < j → l !! i = Some x → l !! j = Some y → [x; y] `sublist_of` l.
Proof.
  revert i j. induction l as [|a l IH]; intros i j Hij Hi Hj.
  - by rewrite lookup_nil in Hi.
  - destruct j as [|j]; [lia|]. simpl in Hj. destruct i as [|i]; simpl in Hi.
    + injection Hi as ->. apply sublist_skip, singleton_sublist_l.
      by eapply list_elem_of_lookup_2.
    + apply sublist_cons. apply (IH i j); [lia|done..].
Qed.

Lemma filter_sublist_mono {A} (P : A → Prop) `{∀ x, Decision (P x)}
    (l k : list A) :
  l `sublist_of` k → filter P l `sublist_of` filter P k.
Proof.
  induction 1 as [|x l k Hs IH|x l k Hs IH]; [done|..].
  - rewrite !filter_cons. destruct (decide (P x)); [by apply sublist_skip|done].
  - rewrite filter_cons. destruct (decide (P x)); [by apply sublist_cons|done].
Qed.

Lemma StronglySorted_sublist {A} (R : A → A → Prop) (l k : list A) :
  l `sublist_of` k → StronglySorted R k → StronglySorted R l.
Proof.
  induction 1 as [|x l k Hs IH|x l k Hs IH]; intros Hk; [done|..].
  - apply StronglySorted_cons in Hk as [Hx Hk].
    apply StronglySorted_cons. split; [|by apply IH].
    apply Forall_forall. intros y Hy.
    eapply Forall_forall; [exact Hx|]. by eapply elem_of_sublist.
  - apply StronglySorted_cons in Hk as [_ Hk]. by apply IH.
Qed.

(** In a directory of the shape [saveProfile] leaves, the listing of the
    file names is the listing of the records read. *)
Lemma store_ok_names dir :
  store_ok dir →
  (λ p, Profile.id p +:+ ".json") <$> readProfiles dir = dir.*1.
Proof.
  intros [_ Hfiles]. induction dir as [|[f c] dir IH]; simpl; [done|].
  destruct (Hfiles f c) as (q & -> & ->); [by left|].
  rewrite endsWith_app. simpl. f_equal. apply IH.
  intros g c' Hin. apply Hfiles. by right.
Qed.

(** Profiles written at the same instant keep the order in which their
    files were listed. *)
Lemma listProfiles_ties_in_listing_order dir i j p q :
  i < j →
  listProfiles dir !! i = Some p →
  listProfiles dir !! j = Some q →
  is_Some (instant p) →
  instant p = instant q →
  [p; q] `sublist_of` readProfiles dir.
Proof.
  intros Hij Hi Hj [t Ht] Heq.
  pose proof (lookup_lt_sublist _ _ _ _ _ Hij Hi Hj) as Hsub.
  apply (filter_sublist_mono (λ r, instant r = Some t)) in Hsub.
  rewrite !filter_cons, filter_nil in Hsub.
  rewrite decide_True in Hsub by done.
  rewrite decide_True in Hsub by congruence.
  unfold listProfiles in Hsub. rewrite Array_sort_stable in Hsub.
  etrans; [exact Hsub|]. apply sublist_filter.
Qed.

(** C8.  The stored profiles are the files [<id>.json] that [saveProfile]
    wrote, each with the valid [updatedAt] it stamped, and
    [fs.readdirSync] lists them in increasing order of their names.
    [listProfiles] then returns exactly the stored profiles, newest
    [updatedAt] first, and two profiles whose [updatedAt] are the same
    instant come out in a fixed order of their ids: the byte order of
    [<id>.json]. *)
Theorem listProfiles_newest_first_ties_by_id
    (dir : list (string * json_text)) :
  store_ok dir →
  readdir_sorted dir →
  (∀ p, p ∈ readProfiles dir → is_Some (instant p)) →
  (∀ p, p ∈ listProfiles dir ↔ getProfile (Profile.id p) dir = Some p) ∧
  length (listProfiles dir) = length dir ∧
  newest_first (listProfiles dir) ∧
  ∀ i j p q,
    i < j →
    listProfiles dir !! i = Some p →
    listProfiles dir !! j = Some q →
    instant p = instant q →
    String.compare (Profile.id p +:+ ".json") (Profile.id q +:+ ".json") = Lt.
Proof.
  intros Hok Hsorted Hval.
  assert (listProfiles dir ≡ₚ readProfiles dir) as Hperm
    by apply Array_sort_perm.
  split; [|split; [|split]].
  - intros p. rewrite Hperm, store_ok_listed by done.
    destruct Hok as [Hnd Hfiles]. unfold getProfile. split.
    + intros Hin. by rewrite (obj_get_NoDup _ (Encoded p)).
    + destruct (obj_get _ dir) as [c|] eqn:Hget; [|done].
      apply obj_get_elem_of in Hget.
      destruct (Hfiles _ _ Hget) as (q & -> & _). simpl.
      by intros [= ->].
  - rewrite Hperm. rewrite <-(length_fmap (λ p, Profile.id p +:+ ".json")).
    by rewrite store_ok_names, length_fmap.
  - apply StronglySorted_newest_first, Array_sort_sorted.
    by apply Forall_forall.
  - intros i j p q Hij Hi Hj Heq.
    assert (is_Some (instant p)) as Hp.
    { apply Hval. rewrite <-Hperm. by eapply list_elem_of_lookup_2. }
    pose proof (listProfiles_ties_in_listing_order dir i j p q Hij Hi Hj Hp Heq)
      as Hsub.
    apply (fmap_sublist (λ r, Profile.id r +:+ ".json")) in Hsub.
    rewrite store_ok_names in Hsub by done.
    apply (StronglySorted_sublist _ _ _ Hsub) in Hsorted.
    apply StronglySorted_cons in Hsorted as [Hlt _].
    by apply Forall_cons in Hlt as [Hlt _].
Qed.
End Sorting.

Lemma dir_ab_ok : store_ok Ex.dir_ab.
Proof.
  split.
  - apply NoDup_cons. split; [|apply NoDup_singleton].
    by intros Hin%list_elem_of_singleton.
  - intros f c Hin.
    apply elem_of_cons in Hin as [[= -> ->]|Hin]; [by exists Ex.raid|].
    apply elem_of_cons in Hin as [[= -> ->]|Hin]; [by exists Ex.solo|].
    by apply elem_of_nil in Hin.
Qed.

Lemma listProfiles_newest_first_ties_by_id_witness :
  listProfiles (H := iso_date) Ex.dir_ab = [Ex.raid; Ex.solo] ∧
  newest_first (H := iso_date) (listProfiles (H := iso_date) Ex.dir_ab) ∧
  String.compare "a1.json" "b2.json" = Lt.
Proof.
  assert (readdir_sorted Ex.dir_ab) as Hsorted.
  { repeat constructor. }
  assert (∀ p, p ∈ readProfiles Ex.dir_ab → is_Some (instant (H := iso_date) p))
    as Hval.
  { intros p Hp. vm_compute in Hp.
    apply elem_of_cons in Hp as [->|Hp]; [by vm_compute; eexists|].
    apply elem_of_cons in Hp as [->|Hp]; [by vm_compute; eexists|].
    by apply elem_of_nil in Hp. }
  destruct (listProfiles_newest_first_ties_by_id (H := iso_date) Ex.dir_ab
              dir_ab_ok Hsorted Hval) as (_ & _ & Hnewest & Hties).
  split; [by vm_compute|]. split; [exact Hnewest|].
  apply (Hties 0 1 Ex.raid Ex.solo); [lia|by vm_compute..].
Defined.

(** ** [syncProfiles] *)

Lemma num_gt_asym a b : num_gt a b = true → num_gt b a = false.
Proof.
  destruct a as [x|], b as [y|]; simpl; try done.
  intros Hlt%bool_decide_eq_true. apply bool_decide_eq_false. lia.
Qed.

Lemma num_gt_irrefl a : num_gt a a = false.
Proof. destruct a as [x|]; simpl; [|done]. apply bool_decide_eq_false. lia. Qed.

Lemma remoteMap_snoc rs r :
  remoteMap (rs ++ [r]) = <[Profile.id (Remote.profile r) := r]> (remoteMap rs).
Proof. unfold remoteMap. by rewrite foldl_snoc. Qed.

Lemma remoteMap_lookup_Some rs k r :
  remoteMap rs !! k = Some r → r ∈ rs ∧ Profile.id (Remote.profile r) = k.
Proof.
  induction rs as [|r' rs IH] using rev_ind.
  - unfold remoteMap. simpl. by rewrite lookup_empty.
  - rewrite remoteMap_snoc, lookup_insert. case_decide as Hk.
    + intros [= <-]. split; [|done]. apply elem_of_app. right. by left.
    + intros [Hin Hid]%IH. split; [|done]. apply elem_of_app. by left.
Qed.

Lemma remoteMap_lookup_None rs k :
  remoteMap rs !! k = None ↔ ∀ r, r ∈ rs → Profile.id (Remote.profile r) ≠ k.
Proof.
  induction rs as [|r' rs IH] using rev_ind.
  - split; [intros _ r Hr; by apply elem_of_nil in Hr|].
    intros _. unfold remoteMap. simpl. apply lookup_empty.
  - rewrite remoteMap_snoc, lookup_insert. case_decide as Hk.
    + split; [done|]. intros Hno. destruct (Hno r'); [|done].
      apply elem_of_app. right. by left.
    + rewrite IH. split.
      * intros Hno r [Hr|Hr%list_elem_of_singleton]%elem_of_app;
          [by apply Hno|by subst].
      * intros Hno r Hr. apply Hno, elem_of_app. by left.
Qed.

Lemma remoteMap_lookup_unique rs r :
  r ∈ rs →
  (∀ r', r' ∈ rs →
         Profile.id (Remote.profile r') = Profile.id (Remote.profile r) → r' = r) →
  remoteMap rs !! Profile.id (Remote.profile r) = Some r.
Proof.
  intros Hin Huniq.
  destruct (remoteMap rs !! Profile.id (Remote.profile r)) as [r'|] eqn:Hl.
  - apply remoteMap_lookup_Some in Hl as [Hin' Hid]. f_equal. by apply Huniq.
  - rewrite remoteMap_lookup_None in Hl. by destruct (Hl r Hin).
Qed.

(** The Map holds, for an id, the last record listed with it. *)
Lemma remoteMap_lookup_last earlier r later :
  (∀ r', r' ∈ later →
         Profile.id (Remote.profile r') ≠ Profile.id (Remote.profile r)) →
  remoteMap (earlier ++ r :: later) !! Profile.id (Remote.profile r) = Some r.
Proof.
  induction later as [|x later IH] using rev_ind; intros Hlater.
  - rewrite remoteMap_snoc, lookup_insert. by rewrite decide_True.
  - replace (earlier ++ r :: later ++ [x]) with ((earlier ++ r :: later) ++ [x])
      by (by rewrite <-app_assoc).
    rewrite remoteMap_snoc, lookup_insert. rewrite decide_False.
    + apply IH. intros r' Hr'. apply Hlater, elem_of_app. by left.
    + apply Hlater, elem_of_app. right. by left.
Qed.

Section SyncLemmas.
Context `{JSDate}.
Context (serverNow : nat → string).

Lemma uploads_marks_exclusive rmap l :
  uploadsLocal rmap l = true → marksLocal rmap l = false.
Proof.
  unfold uploadsLocal, marksLocal. destruct (rmap !! Profile.id l); [|done].
  by intros ->.
Qed.

Lemma syncLocal_cases rmap st l :
  syncLocal serverNow rmap st l =
    if uploadsLocal rmap l then doUpload serverNow l st
    else if marksLocal rmap l then markDownload l st
    else st.
Proof.
  unfold syncLocal, uploadsLocal, marksLocal, date_gt.
  destruct (rmap !! Profile.id l) as [r|]; [|done].
  by destruct (num_gt _ _).
Qed.

Lemma syncLocal_names rmap st l :
  names_agree st → names_agree (syncLocal serverNow rmap st l).
Proof.
  intros [Hu Hd]. rewrite syncLocal_cases.
  destruct (uploadsLocal rmap l); [|destruct (marksLocal rmap l)];
    unfold names_agree; simpl; rewrite ?fmap_app, ?Hu, ?Hd; done.
Qed.

Lemma syncRemote_names ids st r :
  names_agree st → names_agree (syncRemote ids st r).
Proof.
  intros [Hu Hd]. unfold syncRemote. case_decide; [done|].
  unfold names_agree; simpl. by rewrite fmap_app, Hu, Hd.
Qed.

Lemma foldl_syncLocal_names rmap ls st :
  names_agree st → names_agree (foldl (syncLocal serverNow rmap) st ls).
Proof.
  revert st. induction ls as [|l ls IH]; intros st Hst; simpl; [done|].
  by apply IH, syncLocal_names.
Qed.

Lemma foldl_syncRemote_names ids rs st :
  names_agree st → names_agree (foldl (syncRemote ids) st rs).
Proof.
  revert st. induction rs as [|r rs IH]; intros st Hst; simpl; [done|].
  by apply IH, syncRemote_names.
Qed.

(** The logs after the first loop. *)
Lemma foldl_syncLocal_logs rmap ls st :
  SyncState.uploadLog (foldl (syncLocal serverNow rmap) st ls)
    = SyncState.uploadLog st ++ filter (λ l, uploadsLocal rmap l = true) ls ∧
  SyncState.markLog (foldl (syncLocal serverNow rmap) st ls)
    = SyncState.markLog st ++ filter (λ l, marksLocal rmap l = true) ls.
Proof.
  revert st. induction ls as [|l ls IH]; intros st; simpl.
  - by rewrite !app_nil_r.
  - destruct (IH (syncLocal serverNow rmap st l)) as [-> ->].
    rewrite syncLocal_cases, !filter_cons.
    pose proof (uploads_marks_exclusive rmap l) as Hex.
    destruct (uploadsLocal rmap l), (marksLocal rmap l);
      try (by specialize (Hex eq_refl));
      simpl; repeat case_decide; try done; by rewrite <-?app_assoc.
Qed.

(** The second loop marks, and touches neither the Drive nor the upload
    log. *)
Lemma foldl_syncRemote_logs ids rs st :
  SyncState.uploadLog (foldl (syncRemote ids) st rs) = SyncState.uploadLog st ∧
  SyncState.drive (foldl (syncRemote ids) st rs) = SyncState.drive st ∧
  SyncState.markLog (foldl (syncRemote ids) st rs)
    = SyncState.markLog st ++
      (Remote.profile <$>
         filter (λ r, Profile.id (Remote.profile r) ∉ ids) rs).
Proof.
  revert st. induction rs as [|r rs IH]; intros st; simpl.
  - by rewrite app_nil_r.
  - destruct (IH (syncRemote ids st r)) as (-> & -> & ->).
    unfold syncRemote. rewrite filter_cons. case_decide as Hin.
    + by rewrite decide_False by (by intros ?).
    + rewrite decide_True by done. simpl. by rewrite <-app_assoc.
Qed.

Lemma elem_of_localIds ls k :
  k ∈ localIds ls ↔ ∃ l, l ∈ ls ∧ Profile.id l = k.
Proof.
  unfold localIds. rewrite elem_of_list_to_set, list_elem_of_fmap.
  split; intros (l & Hl & Hl'); eauto.
Qed.

(** What a pass logs, in one statement. *)
Lemma syncProfiles_logs locals d st :
  syncProfiles serverNow locals (Some d) = Some st →
  let rmap := remoteMap (listRemoteProfiles d) in
  names_agree st ∧
  SyncState.uploadLog st = filter (λ l, uploadsLocal rmap l = true) locals ∧
  SyncState.markLog st
    = filter (λ l, marksLocal rmap l = true) locals ++
      (Remote.profile <$>
         filter (λ r, Profile.id (Remote.profile r) ∉ localIds locals)
           (listRemoteProfiles d)).
Proof.
  intros Hrun rmap. unfold syncProfiles in Hrun. cbv zeta in Hrun.
  injection Hrun as <-. fold rmap.
  set (st0 := SyncState.mk (SyncResult.mk [] [] []) d [] []).
  destruct (foldl_syncRemote_logs (localIds locals) (listRemoteProfiles d)
    (foldl (syncLocal serverNow rmap) st0 locals)) as (Hu & _ & Hm).
  destruct (foldl_syncLocal_logs rmap locals st0) as [Hu1 Hm1].
  split; [|split].
  - by apply foldl_syncRemote_names, foldl_syncLocal_names.
  - by rewrite Hu, Hu1.
  - by rewrite Hm, Hm1.
Qed.

End SyncLemmas.

(** ** The Drive folder under [uploadProfile] *)

Lemma NoDup_fmap_elem_inj {A B} (h : A → B) (l : list A) x y :
  NoDup (h <$> l) → x ∈ l → y ∈ l → h x = h y → x = y.
Proof.
  induction l as [|a l IH]; simpl; intros Hnd Hx Hy Heq.
  - by apply elem_of_nil in Hx.
  - apply NoDup_cons in Hnd as [Ha Hnd].
    apply elem_of_cons in Hx as [->|Hx]; apply elem_of_cons in Hy as [->|Hy].
    + done.
    + destruct Ha. rewrite Heq. by apply list_elem_of_fmap_2.
    + destruct Ha. rewrite <-Heq. by apply list_elem_of_fmap_2.
    + by apply IH.
Qed.

Lemma find_Some_elem_of {A} (P : A → bool) l x :
  List.find P l = Some x → x ∈ l ∧ P x = true.
Proof. intros [Hin HP]%find_some. split; [by apply list_elem_of_In|done]. Qed.

Lemma find_None_elem_of {A} (P : A → bool) l :
  List.find P l = None ↔ ∀ x, x ∈ l → P x = false.
Proof.
  split.
  - intros Hnone x Hx%list_elem_of_In. by eapply find_none.
  - intros Hall. induction l as [|a l IH]; simpl; [done|].
    rewrite (Hall a) by (by left). apply IH. intros x Hx. apply Hall. by right.
Qed.

(** [find] returns the first element that passes the test. *)
Lemma find_Some_first {A} (P : A → bool) l x :
  List.find P l = Some x ↔
  ∃ before after, l = before ++ x :: after ∧
                  (∀ y, y ∈ before → P y = false) ∧ P x = true.
Proof.
  induction l as [|a l IH]; simpl.
  - split; [done|]. intros (before & after & Heq & _). by destruct before.
  - destruct (P a) eqn:Ha.
    + split.
      * intros [= ->]. exists [], l. split; [done|]. split; [|done].
        intros y Hy. by apply elem_of_nil in Hy.
      * intros ([|b before] & after & Heq & Hbefore & Hx).
        -- by injection Heq as ->.
        -- injection Heq as -> _. rewrite Hbefore in Ha; [done|by left].
    + rewrite IH. split.
      * intros (before & after & -> & Hbefore & Hx).
        exists (a :: before), after. split; [done|]. split; [|done].
        intros y [->|Hy]%elem_of_cons; [done|by apply Hbefore].
      * intros ([|b before] & after & Heq & Hbefore & Hx).
        -- injection Heq as ->. congruence.
        -- injection Heq as -> ->. exists before, after. split; [done|].
           split; [|done]. intros y Hy. apply Hbefore. by right.
Qed.

Lemma findFileByName_Some fname d fid :
  findFileByName fname d = Some fid →
  ∃ f, f ∈ Drive.files d ∧ DriveFile.fileName f = fname ∧ DriveFile.fileId f = fid.
Proof.
  unfold findFileByName. destruct (List.find _ _) as [f|] eqn:Hfind; [|done].
  intros [= <-]. apply find_Some_elem_of in Hfind as [Hin Hname].
  exists f. by apply bool_decide_eq_true in Hname.
Qed.

Lemma findFileByName_None fname d :
  findFileByName fname d = None →
  ∀ f, f ∈ Drive.files d → DriveFile.fileName f ≠ fname.
Proof.
  unfold findFileByName. destruct (List.find _ _) as [f|] eqn:Hfind; [done|].
  intros _ f Hf. rewrite find_None_elem_of in Hfind.
  specialize (Hfind f Hf). by apply bool_decide_eq_false in Hfind.
Qed.

Lemma drive_wf_empty n : drive_wf (Drive.mk [] n).
Proof.
  split; [constructor|]. split; [constructor|].
  intros f Hf. by apply elem_of_nil in Hf.
Qed.

(** [uploadProfile] keeps the folder well formed. *)
Lemma uploadProfile_wf t p d : drive_wf d → drive_wf (uploadProfile t p d).
Proof.
  intros (Hids & Hnames & Hfiles). unfold uploadProfile.
  destruct (findFileByName (profileFileName p) d) as [fid|] eqn:Hfind.
  - apply findFileByName_Some in Hfind as (x & Hx & Hxname & Hxid).
    unfold drive_wf. simpl. rewrite <-!list_fmap_compose.
    split; [|split].
    + erewrite list_fmap_ext; [exact Hids|]. intros i f _. simpl.
      by case_decide.
    + erewrite list_fmap_ext; [exact Hnames|]. intros i f _. simpl.
      by case_decide.
    + intros f' (f & -> & Hf)%list_elem_of_fmap. case_decide as Hid; simpl.
      * assert (f = x) as ->.
      { apply (NoDup_fmap_elem_inj DriveFile.fileId (Drive.files d));
          [done..|congruence]. }
        split; [done|]. by apply Hfiles.
      * by apply Hfiles.
  - pose proof (findFileByName_None _ _ Hfind) as Hfresh.
    unfold drive_wf. simpl. rewrite !fmap_app. simpl. split; [|split].
    + apply NoDup_app. split; [done|]. split; [|apply NoDup_singleton].
      intros i (f & -> & Hf)%list_elem_of_fmap Hi%list_elem_of_singleton.
      apply Hfiles in Hf as [_ Hlt]. lia.
    + apply NoDup_app. split; [done|]. split; [|apply NoDup_singleton].
      intros n (f & -> & Hf)%list_elem_of_fmap Hn%list_elem_of_singleton.
      by apply (Hfresh f).
    + intros f [Hf|Hf%list_elem_of_singleton]%elem_of_app; simpl.
      * apply Hfiles in Hf as [? ?]. split; [done|lia].
      * subst f. simpl. split; [done|lia].
Qed.

(** [uploadProfile] leaves the files of other profiles as they are. *)
Lemma uploadProfile_keeps t p d f :
  drive_wf d → f ∈ Drive.files d →
  Profile.id (DriveFile.body f) ≠ Profile.id p →
  f ∈ Drive.files (uploadProfile t p d).
Proof.
  intros (Hids & Hnames & Hfiles) Hf Hne. unfold uploadProfile.
  destruct (findFileByName (profileFileName p) d) as [fid|] eqn:Hfind; simpl.
  - apply findFileByName_Some in Hfind as (x & Hx & Hxname & Hxid).
    apply list_elem_of_fmap. exists f. split; [|done].
    rewrite decide_False; [done|]. intros Hid.
    assert (f = x) as ->.
      { apply (NoDup_fmap_elem_inj DriveFile.fileId (Drive.files d));
          [done..|congruence]. }
    destruct (Hfiles x Hx) as [Hname _]. rewrite Hname in Hxname.
    by apply profileFileName_inj in Hxname.
  - apply elem_of_app. by left.
Qed.

(** In a well-formed folder a profile id names one file. *)
Lemma uploadProfile_stored t p d :
  ∃ f, f ∈ Drive.files (uploadProfile t p d) ∧
       DriveFile.fileName f = profileFileName p ∧
       DriveFile.body f = p ∧ DriveFile.modifiedTime f = t.
Proof.
  unfold uploadProfile.
  destruct (findFileByName (profileFileName p) d) as [fid|] eqn:Hfind; simpl.
  - apply findFileByName_Some in Hfind as (x & Hx & Hname & Hid).
    exists (DriveFile.mk (DriveFile.fileId x) (DriveFile.fileName x) t p
              (DriveFile.fetchable x)).
    split; [|done]. apply list_elem_of_fmap. exists x. split; [|done].
    by rewrite decide_True.
  - eexists. split; [apply elem_of_app; right; apply list_elem_of_here|done].
Qed.

Lemma drive_wf_ids d : drive_wf d → drive_ids d.
Proof.
  intros (Hids & _ & Hfiles). split; [done|].
  intros f Hf. by destruct (Hfiles f Hf).
Qed.

Lemma uploadProfile_ids t p d : drive_ids d → drive_ids (uploadProfile t p d).
Proof.
  intros [Hids Hlt]. unfold uploadProfile.
  destruct (findFileByName (profileFileName p) d) as [fid|]; simpl.
  - split; simpl.
    + rewrite <-list_fmap_compose.
      erewrite list_fmap_ext; [exact Hids|]. intros i f _. simpl.
      by case_decide.
    + intros f' (f & -> & Hf)%list_elem_of_fmap.
      specialize (Hlt f Hf). by case_decide.
  - split; simpl.
    + rewrite fmap_app. apply NoDup_app. split; [done|]. split.
      * intros n (f & -> & Hf)%list_elem_of_fmap Hn.
        apply list_elem_of_singleton in Hn. simpl in Hn.
        specialize (Hlt f Hf). lia.
      * apply NoDup_singleton.
    + intros f [Hf|Hf%list_elem_of_singleton]%elem_of_app.
      * specialize (Hlt f Hf). lia.
      * subst f. simpl. lia.
Qed.

(** An upload leaves alone every file that does not carry the name of the
    uploaded profile. *)
Lemma uploadProfile_keeps_name t p d f :
  drive_ids d → f ∈ Drive.files d →
  DriveFile.fileName f ≠ profileFileName p →
  f ∈ Drive.files (uploadProfile t p d).
Proof.
  intros [Hids _] Hf Hname. unfold uploadProfile.
  destruct (findFileByName (profileFileName p) d) as [fid|] eqn:Hfind; simpl.
  - apply findFileByName_Some in Hfind as (x & Hx & Hxname & Hxid).
    apply list_elem_of_fmap. exists f. split; [|done].
    rewrite decide_False; [done|]. intros Hid.
    assert (f = x) as ->; [|congruence].
    apply (NoDup_fmap_elem_inj DriveFile.fileId (Drive.files d));
      [done..|congruence].
  - apply elem_of_app. by left.
Qed.

Lemma drive_wf_id_unique d f g :
  drive_wf d → f ∈ Drive.files d → g ∈ Drive.files d →
  Profile.id (DriveFile.body f) = Profile.id (DriveFile.body g) → f = g.
Proof.
  intros (_ & Hnames & Hfiles) Hf Hg Hid.
  apply (NoDup_fmap_elem_inj DriveFile.fileName (Drive.files d)); [done..|].
  destruct (Hfiles f Hf) as [-> _], (Hfiles g Hg) as [-> _].
  unfold profileFileName. by rewrite Hid.
Qed.

Lemma elem_of_listRemoteProfiles d r :
  r ∈ listRemoteProfiles d ↔
  ∃ f, f ∈ Drive.files d ∧ DriveFile.fetchable f = true ∧
       r = Remote.mk (DriveFile.fileId f) (DriveFile.fileName f)
             (DriveFile.modifiedTime f) (DriveFile.body f).
Proof.
  unfold listRemoteProfiles. rewrite list_elem_of_fmap. split.
  - intros (f & -> & [Hfetch Hf]%list_elem_of_filter). eauto.
  - intros (f & Hf & Hfetch & ->). exists f. split; [done|].
    by apply list_elem_of_filter.
Qed.

Section DriveUnderSync.
Context `{JSDate}.
Context (serverNow : nat → string).




Lemma foldl_syncLocal_ids rmap ls st :
  drive_ids (SyncState.drive st) →
  drive_ids (SyncState.drive (foldl (syncLocal serverNow rmap) st ls)).
Proof.
  revert st. induction ls as [|l ls IH]; intros st Hids; simpl; [done|].
  apply IH. rewrite syncLocal_cases.
  destruct (uploadsLocal rmap l); [by apply uploadProfile_ids|].
  by destruct (marksLocal rmap l).
Qed.

(** The first loop leaves alone every file that carries the name of no
    profile it uploads. *)
Lemma foldl_syncLocal_keeps_name rmap ls st f :
  drive_ids (SyncState.drive st) →
  f ∈ Drive.files (SyncState.drive st) →
  (∀ l, l ∈ ls → uploadsLocal rmap l = true →
        DriveFile.fileName f ≠ profileFileName l) →
  f ∈ Drive.files (SyncState.drive (foldl (syncLocal serverNow rmap) st ls)).
Proof.
  revert st. induction ls as [|l ls IH]; intros st Hids Hf Hne; simpl; [done|].
  apply IH.
  - apply (foldl_syncLocal_ids rmap [l] st Hids).
  - rewrite syncLocal_cases.
    destruct (uploadsLocal rmap l) eqn:Hup; [|by destruct (marksLocal rmap l)].
    simpl. apply uploadProfile_keeps_name; [done..|].
    apply Hne; [by left|done].
  - intros l' Hl'. apply Hne. by right.
Qed.

(** A profile that the first loop uploads is in the folder when the loop
    ends, provided no other local profile carries its id. *)
Lemma foldl_syncLocal_stores rmap ls st L :
  drive_ids (SyncState.drive st) →
  (∀ L', L' ∈ ls → Profile.id L' = Profile.id L → L' = L) →
  uploadsLocal rmap L = true →
  L ∈ ls ∨ holds_upload serverNow (SyncState.drive st) L →
  holds_upload serverNow
    (SyncState.drive (foldl (syncLocal serverNow rmap) st ls)) L.
Proof.
  intros Hids Huniq Hup. revert st Hids.
  induction ls as [|l ls IH]; intros st Hids Hor.
  - destruct Hor as [Hin|Hheld]; [by apply elem_of_nil in Hin|done].
  - cbn [foldl]. apply IH.
    + intros L' HL'. apply Huniq. by right.
    + apply (foldl_syncLocal_ids rmap [l] st Hids).
    + destruct (decide (Profile.id l = Profile.id L)) as [Hid|Hid].
      * right. rewrite (Huniq l (list_elem_of_here _ _) Hid).
        rewrite syncLocal_cases, Hup. simpl.
        destruct (uploadProfile_stored
                    (serverNow (length (SyncState.uploadLog st))) L
                    (SyncState.drive st)) as (f & Hf & Hname & Hbody & Htime).
        by exists f, (length (SyncState.uploadLog st)).
      * destruct Hor as [[->|Hin]%elem_of_cons|(f & k & Hf & Hname & Hbody & Ht)];
          [done|by left|].
        right. exists f, k. split; [|done]. rewrite syncLocal_cases.
        destruct (uploadsLocal rmap l); [|by destruct (marksLocal rmap l)].
        simpl. apply uploadProfile_keeps_name; [done..|].
        rewrite Hname. by intros Heq%profileFileName_inj.
Qed.

Lemma syncProfiles_drive locals d st :
  syncProfiles serverNow locals (Some d) = Some st →
  SyncState.drive st
  = SyncState.drive
      (foldl (syncLocal serverNow (remoteMap (listRemoteProfiles d)))
         (SyncState.mk (SyncResult.mk [] [] []) d [] []) locals).
Proof.
  intros Hrun. unfold syncProfiles in Hrun. cbv zeta in Hrun.
  injection Hrun as <-.
  by destruct (foldl_syncRemote_logs (localIds locals) (listRemoteProfiles d)
    (foldl (syncLocal serverNow (remoteMap (listRemoteProfiles d)))
       (SyncState.mk (SyncResult.mk [] [] []) d [] []) locals))
    as (_ & -> & _).
Qed.

(** What a pass does to the Drive folder for one local profile [L], the
    only one of its id: when the first loop takes the upload branch on
    [L], the folder holds [L] afterwards; when it does not, every file
    named after [L] is as it was. *)
Lemma syncProfiles_stores locals d st L :
  syncProfiles serverNow locals (Some d) = Some st →
  drive_ids d →
  L ∈ locals →
  (∀ L', L' ∈ locals → Profile.id L' = Profile.id L → L' = L) →
  uploadsLocal (remoteMap (listRemoteProfiles d)) L = true →
  holds_upload serverNow (SyncState.drive st) L.
Proof.
  intros Hrun Hids HL Huniq Hup. rewrite (syncProfiles_drive _ _ _ Hrun).
  apply foldl_syncLocal_stores; [done..|by left].
Qed.

Lemma syncProfiles_leaves locals d st L f :
  syncProfiles serverNow locals (Some d) = Some st →
  drive_ids d →
  (∀ L', L' ∈ locals → Profile.id L' = Profile.id L → L' = L) →
  uploadsLocal (remoteMap (listRemoteProfiles d)) L = false →
  f ∈ Drive.files d →
  DriveFile.fileName f = profileFileName L →
  f ∈ Drive.files (SyncState.drive st).
Proof.
  intros Hrun Hids Huniq Hup Hf Hname. rewrite (syncProfiles_drive _ _ _ Hrun).
  apply foldl_syncLocal_keeps_name; [done..|].
  intros l Hl Hupl. rewrite Hname. intros Heq%profileFileName_inj.
  rewrite (Huniq l Hl) in Hupl by done. congruence.
Qed.
End DriveUnderSync.

(** ** The apply loop of [gdrive:sync] *)

Lemma filter_nil_iff {A} (P : A → Prop) `{∀ x, Decision (P x)} (l : list A) :
  filter P l = [] ↔ ∀ x, x ∈ l → ¬ P x.
Proof.
  induction l as [|a l IH].
  - split; [intros _ x Hx; by apply elem_of_nil in Hx|done].
  - rewrite filter_cons. destruct (decide (P a)) as [Ha|Ha].
    + split; [done|]. intros Hall. destruct (Hall a); [by left|done].
    + rewrite IH. split.
      * intros Hall x [->|Hx]%elem_of_cons; auto.
      * intros Hall x Hx. apply Hall. by right.
Qed.

Section ApplyLoop.
Context `{JSDate}.
Context (now : nat → string).


(** The test reads the list taken at the start of the pass and nothing
    else. *)
Lemma shouldSave_true locals rp :
  shouldSave locals rp = true →
  (∀ l, l ∈ locals → Profile.id l ≠ Profile.id rp) ∨
  ∃ l, l ∈ locals ∧ Profile.id l = Profile.id rp ∧
       date_gt (Profile.updatedAt rp) (Profile.updatedAt l) = true.
Proof.
  unfold shouldSave.
  destruct (List.find _ locals) as [l|] eqn:Hfind.
  - apply find_Some_elem_of in Hfind as [Hl Hid%bool_decide_eq_true]. eauto.
  - intros _. left. intros l Hl Hid. rewrite find_None_elem_of in Hfind.
    specialize (Hfind l Hl). by apply bool_decide_eq_false in Hfind.
Qed.

Lemma foldl_applyRemote_log locals pulled st :
  (foldl (applyRemote now locals) st pulled).2
  = st.2 ++ filter (λ rp, shouldSave locals rp = true) pulled.
Proof.
  revert st. induction pulled as [|rp pulled IH]; intros st; simpl.
  - by rewrite app_nil_r.
  - rewrite IH, filter_cons. unfold applyRemote.
    destruct (shouldSave locals rp); simpl; [by rewrite <-app_assoc|done].
Qed.



Lemma foldl_applyRemote_other locals pulled st i :
  (∀ rp, rp ∈ pulled → shouldSave locals rp = true → Profile.id rp ≠ i) →
  getProfile i (foldl (applyRemote now locals) st pulled).1 = getProfile i st.1.
Proof.
  revert st. induction pulled as [|rp pulled IH]; intros st Hne; [done|].
  cbn [foldl]. rewrite IH by (intros rp' Hrp'; apply Hne; by right).
  unfold applyRemote. destruct (shouldSave locals rp) eqn:Hsave; [|done].
  cbn [fst]. apply getProfile_save_ne. apply Hne; [by left|done].
Qed.


(** The test spelled out: [find] takes the first profile of the list that
    carries the id. *)
Lemma shouldSave_iff locals rp :
  shouldSave locals rp = true ↔
  (∀ l, l ∈ locals → Profile.id l ≠ Profile.id rp) ∨
  ∃ before l after,
    locals = before ++ l :: after ∧
    (∀ x, x ∈ before → Profile.id x ≠ Profile.id rp) ∧
    Profile.id l = Profile.id rp ∧
    date_gt (Profile.updatedAt rp) (Profile.updatedAt l) = true.
Proof.
  unfold shouldSave.
  destruct (List.find _ locals) as [l|] eqn:Hfind.
  - pose proof Hfind as Hfirst.
    apply find_Some_first in Hfirst
      as (before & after & Heq & Hbefore & Hid%bool_decide_eq_true).
    split.
    + intros Hgt. right. exists before, l, after. split; [done|].
      split; [|done]. intros x Hx.
      specialize (Hbefore x Hx). by apply bool_decide_eq_false in Hbefore.
    + intros [Hnone|(before' & l' & after' & Heq' & Hbefore' & Hid' & Hgt)].
      * destruct (Hnone l); [|done]. rewrite Heq. apply elem_of_app.
        right. by left.
      * assert (List.find
                  (λ p, bool_decide (Profile.id p = Profile.id rp)) locals
                = Some l') as Hfind'.
        { apply find_Some_first. exists before', after'. split; [done|].
          split; [|by apply bool_decide_eq_true].
          intros y Hy. apply bool_decide_eq_false. by apply Hbefore'. }
        rewrite Hfind in Hfind'. by injection Hfind' as ->.
  - split; [|done]. intros _. left. intros l Hl Hid.
    rewrite find_None_elem_of in Hfind. specialize (Hfind l Hl).
    by apply bool_decide_eq_false in Hfind.
Qed.

(** After the loop the store holds, under the id of a saved profile, the
    last saved profile with that id, stamped at its save. *)
Lemma foldl_applyRemote_last locals pulled st rp :
  rp ∈ pulled →
  shouldSave locals rp = true →
  ∃ before rp' later,
    pulled = before ++ rp' :: later ∧
    shouldSave locals rp' = true ∧
    Profile.id rp' = Profile.id rp ∧
    (∀ x, x ∈ later → shouldSave locals x = true →
          Profile.id x ≠ Profile.id rp) ∧
    getProfile (Profile.id rp) (foldl (applyRemote now locals) st pulled).1
    = Some (Profile.set_updatedAt
              (now (length st.2 +
                    length (filter (λ x, shouldSave locals x = true) before)))
              rp').
Proof.
  revert st rp. induction pulled as [|a pulled IH]; intros st rp Hin Hsave.
  - by apply elem_of_nil in Hin.
  - cbn [foldl].
    destruct (decide (Exists (λ x, shouldSave locals x = true ∧
                                    Profile.id x = Profile.id rp) pulled))
      as [Hlater|Hlater].
    + apply Exists_exists in Hlater as (x & Hx & Hsavex & Hidx).
      destruct (IH (applyRemote now locals st a) x Hx Hsavex)
        as (before & rp' & later & -> & Hsave' & Hid' & Hnone & Hget).
      exists (a :: before), rp', later. split; [done|]. split; [done|].
      split; [congruence|]. split.
      { intros y Hy Hsavey. rewrite <-Hidx. by apply Hnone. }
      rewrite <-Hidx, Hget. do 3 f_equal. rewrite filter_cons.
      unfold applyRemote. destruct (shouldSave locals a) eqn:Ha; simpl.
      * rewrite length_app. simpl. lia.
      * done.
    + assert (∀ x, x ∈ pulled → shouldSave locals x = true →
                   Profile.id x ≠ Profile.id rp) as Hnone.
      { intros x Hx Hsavex Hidx. apply Hlater, Exists_exists. eauto. }
      apply elem_of_cons in Hin as [->|Hin]; [|by destruct (Hnone rp Hin Hsave)].
      exists [], a, pulled. split; [done|]. split; [done|]. split; [done|].
      split; [done|]. rewrite foldl_applyRemote_other by done.
      unfold applyRemote. rewrite Hsave. cbn [fst]. simpl.
      rewrite Nat.add_0_r. apply getProfile_save_eq.
Qed.
End ApplyLoop.

(** ** One pass of [gdrive:sync] *)

Section Pass.
Context `{JSDate}.
Context (now serverNow : nat → string).

Lemma syncProfiles_Some locals d :
  ∃ st, syncProfiles serverNow locals (Some d) = Some st.
Proof. eexists. reflexivity. Qed.

(** C1 (amended).  Let [L] be a local profile and [R] the remote record
    that the pass keeps for [L]'s id: the last one listed with that id
    (the only one, when a single Drive file holds the id).  The pass
    uploads [L] iff [L.updatedAt > R.modifiedTime], marks [L] for download
    iff [R.modifiedTime > L.updatedAt], and does neither when the two
    instants are equal; the [uploaded] and [downloaded] lists of the result
    are the names of the profiles uploaded and marked.  On the Drive
    folder, [L] being the only local profile of its id: when [L] is later,
    the folder holds [L] afterwards as the body of [profile-<id>.json],
    stamped by the server; when it is not, and [R] is the file of that
    name, [R] is listed afterwards as it was. *)
Theorem syncProfiles_last_write_wins (locals : list Profile.t) (d : Drive.t)
    (st : SyncState.t) (L : Profile.t) (R : Remote.t)
    (earlier later : list Remote.t) :
  syncProfiles serverNow locals (Some d) = Some st →
  L ∈ locals →
  listRemoteProfiles d = earlier ++ R :: later →
  Profile.id (Remote.profile R) = Profile.id L →
  (∀ R', R' ∈ later → Profile.id (Remote.profile R') ≠ Profile.id L) →
  SyncResult.uploaded (SyncState.result st)
    = Profile.name <$> SyncState.uploadLog st ∧
  SyncResult.downloaded (SyncState.result st)
    = Profile.name <$> SyncState.markLog st ∧
  (L ∈ SyncState.uploadLog st
     ↔ date_gt (Profile.updatedAt L) (Remote.modifiedTime R) = true) ∧
  (L ∈ SyncState.markLog st
     ↔ date_gt (Remote.modifiedTime R) (Profile.updatedAt L) = true) ∧
  (Date_getTime (Profile.updatedAt L) = Date_getTime (Remote.modifiedTime R) →
     (L ∉ SyncState.uploadLog st) ∧ (L ∉ SyncState.markLog st)) ∧
  (drive_ids d →
   (∀ L', L' ∈ locals → Profile.id L' = Profile.id L → L' = L) →
   (date_gt (Profile.updatedAt L) (Remote.modifiedTime R) = true →
      holds_upload serverNow (SyncState.drive st) L) ∧
   (date_gt (Profile.updatedAt L) (Remote.modifiedTime R) = false →
      Remote.name R = profileFileName L →
      R ∈ listRemoteProfiles (SyncState.drive st))).
Proof.
  intros Hrun HL Hlist Hid Hlater.
  destruct (syncProfiles_logs serverNow _ _ _ Hrun) as ([Hup Hdown] & Hul & Hml).
  assert (remoteMap (listRemoteProfiles d) !! Profile.id L = Some R) as Hl.
  { rewrite Hlist, <-Hid. apply remoteMap_lookup_last.
    intros R' HR'. rewrite Hid. by apply Hlater. }
  assert (uploadsLocal (remoteMap (listRemoteProfiles d)) L
          = date_gt (Profile.updatedAt L) (Remote.modifiedTime R)) as Hbranch.
  { unfold uploadsLocal. by rewrite Hl. }
  assert (L ∈ SyncState.uploadLog st
          ↔ date_gt (Profile.updatedAt L) (Remote.modifiedTime R) = true) as Hiu.
  { rewrite Hul, list_elem_of_filter, Hbranch. by split; [intros [? _]|]. }
  assert (L ∈ SyncState.markLog st
          ↔ date_gt (Remote.modifiedTime R) (Profile.updatedAt L) = true) as Him.
  { rewrite Hml, elem_of_app, list_elem_of_filter, list_elem_of_fmap.
    unfold marksLocal. rewrite Hl. split.
    - intros [[Hm _]|(r & -> & Hr)].
      + by apply andb_true_iff in Hm as [_ Hm].
      + apply list_elem_of_filter in Hr as [Hnot _]. destruct Hnot.
        apply elem_of_localIds. eauto.
    - intros Hgt. left. split; [|done]. apply andb_true_iff. split; [|done].
      apply negb_true_iff. by apply num_gt_asym. }
  split; [done|]. split; [done|]. split; [done|]. split; [done|].
  split.
  { intros Heq. rewrite Hiu, Him. unfold date_gt.
    by rewrite Heq, num_gt_irrefl. }
  intros Hids Huniq. split.
  - intros Hgt. apply (syncProfiles_stores serverNow locals d); [done..|].
    by rewrite Hbranch.
  - intros Hgt Hname.
    assert (R ∈ listRemoteProfiles d) as HR.
    { rewrite Hlist. apply elem_of_app. right. by left. }
    apply elem_of_listRemoteProfiles in HR as (f & Hf & Hfetch & ->).
    simpl in Hname. apply elem_of_listRemoteProfiles. exists f.
    split; [|done].
    apply (syncProfiles_leaves serverNow locals d st L f Hrun Hids Huniq);
      [by rewrite Hbranch|done|done].
Qed.

End Pass.

(** C1, as stated, fails.  Two Drive files hold the profile [a1], the first
    modified at [t1], the second at [t3]; the local copy was written at
    [t2].  It is later than the first record, yet the pass does not upload
    it: the Map keeps the second record, and the local copy is marked for
    download. *)
Lemma syncProfiles_earlier_record_ignored :
  ¬ every_record_decides (H := iso_date).
Proof.
  intros Hclaim.
  destruct (syncProfiles_Some (H := iso_date) (Ex.clock Ex.t4)
              [Ex.raid] Ex.drive_raid_twice) as [st Hrun].
  destruct (Hclaim (Ex.clock Ex.t4) [Ex.raid] Ex.drive_raid_twice st Ex.raid
              Ex.record_raid_first Hrun) as [Hup _].
  - apply list_elem_of_here.
  - vm_compute. apply list_elem_of_here.
  - reflexivity.
  - vm_compute in Hrun. injection Hrun as <-.
    assert (Ex.raid ∈ @nil Profile.t) as Habs; [|by apply elem_of_nil in Habs].
    apply Hup. by vm_compute.
Qed.

Example earlier_record_marks :
  ∃ st,
    syncProfiles (H := iso_date) (Ex.clock Ex.t4) [Ex.raid]
      (Some Ex.drive_raid_twice) = Some st ∧
    SyncState.result st = SyncResult.mk [] ["Raid UI"] [] ∧
    SyncState.drive st = Ex.drive_raid_twice.
Proof. eexists. split; [reflexivity|]. split; by vm_compute. Qed.



(** ** Two passes in succession *)

Section Quiescence.
Context `{JSDate}.

Lemma foldl_syncLocal_conflicts serverNow rmap ls st :
  SyncResult.conflicts (SyncState.result (foldl (syncLocal serverNow rmap) st ls))
  = SyncResult.conflicts (SyncState.result st).
Proof.
  revert st. induction ls as [|l ls IH]; intros st; simpl; [done|].
  rewrite IH, syncLocal_cases.
  by destruct (uploadsLocal rmap l), (marksLocal rmap l).
Qed.

Lemma foldl_syncRemote_conflicts ids rs st :
  SyncResult.conflicts (SyncState.result (foldl (syncRemote ids) st rs))
  = SyncResult.conflicts (SyncState.result st).
Proof.
  revert st. induction rs as [|r rs IH]; intros st; simpl; [done|].
  rewrite IH. unfold syncRemote. by case_decide.
Qed.

(** The result of a pass, whatever the server clock. *)
Lemma syncProfiles_result serverNow locals d st :
  syncProfiles serverNow locals (Some d) = Some st →
  let rmap := remoteMap (listRemoteProfiles d) in
  SyncState.result st =
    SyncResult.mk
      (Profile.name <$> filter (λ l, uploadsLocal rmap l = true) locals)
      (Profile.name <$>
         (filter (λ l, marksLocal rmap l = true) locals ++
          (Remote.profile <$>
             filter (λ r, Profile.id (Remote.profile r) ∉ localIds locals)
               (listRemoteProfiles d))))
      [].
Proof.
  intros Hrun rmap.
  destruct (syncProfiles_logs serverNow _ _ _ Hrun) as ([Hup Hdown] & Hul & Hml).
  fold rmap in Hul, Hml. rewrite <-Hul, <-Hml, <-Hup, <-Hdown.
  assert (SyncResult.conflicts (SyncState.result st) = []) as Hc.
  { unfold syncProfiles in Hrun. cbv zeta in Hrun. injection Hrun as <-.
    by rewrite foldl_syncRemote_conflicts, foldl_syncLocal_conflicts. }
  destruct (SyncState.result st) as [u dl c]. simpl in *. by rewrite Hc.
Qed.

Lemma foldl_syncLocal_no_upload serverNow rmap ls st :
  (∀ l, l ∈ ls → uploadsLocal rmap l = false) →
  SyncState.drive (foldl (syncLocal serverNow rmap) st ls) = SyncState.drive st.
Proof.
  revert st. induction ls as [|l ls IH]; intros st Hno; simpl; [done|].
  rewrite IH by (intros l' Hl'; apply Hno; by right).
  rewrite syncLocal_cases, (Hno l) by (by left).
  by destruct (marksLocal rmap l).
Qed.

(** A pass that uploads nothing leaves the Drive folder as it was. *)
Lemma syncProfiles_no_upload serverNow locals d st :
  syncProfiles serverNow locals (Some d) = Some st →
  SyncResult.uploaded (SyncState.result st) = [] →
  SyncState.drive st = d.
Proof.
  intros Hrun Hempty.
  destruct (syncProfiles_logs serverNow _ _ _ Hrun) as ([Hup _] & Hul & _).
  rewrite Hup in Hempty. apply fmap_nil_inv in Hempty.
  rewrite Hul in Hempty.
  unfold syncProfiles in Hrun. cbv zeta in Hrun. injection Hrun as <-.
  destruct (foldl_syncRemote_logs (localIds locals) (listRemoteProfiles d)
    (foldl (syncLocal serverNow (remoteMap (listRemoteProfiles d)))
       (SyncState.mk (SyncResult.mk [] [] []) d [] []) locals))
    as (_ & -> & _).
  rewrite foldl_syncLocal_no_upload; [done|].
  intros l Hl. rewrite filter_nil_iff in Hempty.
  specialize (Hempty l Hl). by destruct (uploadsLocal _ l).
Qed.

Lemma syncProfiles_empty_iff serverNow locals d st :
  syncProfiles serverNow locals (Some d) = Some st →
  SyncResult.uploaded (SyncState.result st) = [] ∧
  SyncResult.downloaded (SyncState.result st) = []
  ↔ converged locals (listRemoteProfiles d).
Proof.
  intros Hrun. rewrite (syncProfiles_result _ _ _ _ Hrun). simpl.
  set (rmap := remoteMap (listRemoteProfiles d)).
  split.
  - intros [Hu%fmap_nil_inv Hd%fmap_nil_inv].
    apply app_nil in Hd as [Hm Hr%fmap_nil_inv].
    rewrite filter_nil_iff in Hu, Hm. rewrite filter_nil_iff in Hr. split.
    + intros L HL. specialize (Hu L HL). specialize (Hm L HL).
      unfold uploadsLocal, marksLocal in Hu, Hm. fold rmap.
      destruct (rmap !! Profile.id L) as [R|]; [|done].
      exists R. split; [done|].
      destruct (date_gt (Profile.updatedAt L) (Remote.modifiedTime R));
        [done|].
      split; [done|]. simpl in Hm.
      by destruct (date_gt (Remote.modifiedTime R) (Profile.updatedAt L)).
    + intros R HR. specialize (Hr R HR). apply dec_stable in Hr.
      apply elem_of_localIds in Hr as (L & HL & Hid). eauto.
  - intros [Hloc Hrem]. split.
    + assert (filter (λ l, uploadsLocal rmap l = true) locals = []) as ->;
        [|done].
      apply filter_nil_iff. intros L HL.
      destruct (Hloc L HL) as (R & Hl & Hg & _).
      unfold uploadsLocal. fold rmap in Hl. by rewrite Hl, Hg.
    + assert (filter (λ l, marksLocal rmap l = true) locals = []) as ->.
      { apply filter_nil_iff. intros L HL.
        destruct (Hloc L HL) as (R & Hl & _ & Hg).
        unfold marksLocal. fold rmap in Hl. rewrite Hl, Hg.
        by rewrite andb_false_r. }
      assert (filter (λ r, Profile.id (Remote.profile r) ∉ localIds locals)
                (listRemoteProfiles d) = []) as ->; [|done].
      apply filter_nil_iff. intros R HR Hnot. apply Hnot.
      apply elem_of_localIds. destruct (Hrem R HR) as (L & HL & Hid). eauto.
Qed.

(** C3 (amended).  A pass of [gdrive:sync] transfers nothing exactly when
    local and remote hold the same ids with, for every id, neither side
    later than the other; such a pass leaves the local store and the Drive
    folder as they were, and every pass that follows it returns the same
    empty lists. *)
Theorem gdrive_sync_quiescent (now serverNow : nat → string)
    (w w' : World.t) (d : Drive.t) (r : SyncResult.t) :
  World.googleDrive w = Some d →
  gdrive_sync now serverNow w = Some (r, w') →
  (SyncResult.uploaded r = [] ∧ SyncResult.downloaded r = []
   ↔ converged (listProfiles (World.profilesDir w)) (listRemoteProfiles d)) ∧
  (SyncResult.uploaded r = [] → SyncResult.downloaded r = [] →
   w' = w ∧
   ∀ now' serverNow', gdrive_sync now' serverNow' w' = Some (r, w')).
Proof.
  intros Hd Hsync. unfold gdrive_sync in Hsync. rewrite Hd in Hsync.
  destruct (syncProfiles_Some serverNow (listProfiles (World.profilesDir w)) d)
    as [st Hrun].
  rewrite Hrun in Hsync. injection Hsync as <- <-.
  split; [by apply (syncProfiles_empty_iff serverNow)|].
  intros Hu Hdown.
  pose proof (syncProfiles_no_upload _ _ _ _ Hrun Hu) as Hdrive.
  assert (World.mk
            match SyncResult.downloaded (SyncState.result st) with
            | [] => World.profilesDir w
            | _ :: _ =>
                (applyDownloads now (listProfiles (World.profilesDir w))
                   (pullProfiles (SyncState.drive st)) (World.profilesDir w)).1
            end (Some (SyncState.drive st)) = w) as Hw.
  { rewrite Hdown, Hdrive. destruct w as [dir g]. simpl in *. by rewrite Hd. }
  rewrite Hw. split; [done|]. intros now' serverNow'.
  unfold gdrive_sync. rewrite Hd.
  destruct (syncProfiles_Some serverNow' (listProfiles (World.profilesDir w)) d)
    as [st' Hrun'].
  rewrite Hrun'.
  assert (SyncState.result st' = SyncState.result st) as Hres.
  { rewrite (syncProfiles_result _ _ _ _ Hrun).
    by rewrite (syncProfiles_result _ _ _ _ Hrun'). }
  rewrite Hres, Hdown.
  rewrite <-Hres in Hu.
  rewrite (syncProfiles_no_upload _ _ _ _ Hrun' Hu).
  destruct w as [dir g]. simpl in *. by rewrite Hd.
Qed.

(** What the comparison has established for an id it marked. *)
Lemma syncProfiles_marked serverNow locals d st i :
  syncProfiles serverNow locals (Some d) = Some st →
  i ∈ Profile.id <$> SyncState.markLog st →
  (∀ l, l ∈ locals → Profile.id l ≠ i) ∨
  ∃ l R, l ∈ locals ∧ Profile.id l = i ∧
         remoteMap (listRemoteProfiles d) !! i = Some R ∧
         date_gt (Remote.modifiedTime R) (Profile.updatedAt l) = true.
Proof.
  intros Hrun (m & -> & Hm)%list_elem_of_fmap.
  destruct (syncProfiles_logs serverNow _ _ _ Hrun) as (_ & _ & Hml).
  rewrite Hml in Hm. apply elem_of_app in Hm as [Hm|Hm].
  - apply list_elem_of_filter in Hm as [Hmark Hm]. right.
    unfold marksLocal in Hmark.
    destruct (remoteMap (listRemoteProfiles d) !! Profile.id m) as [R|] eqn:HR;
      [|done].
    apply andb_true_iff in Hmark as [_ Hgt]. by exists m, R.
  - apply list_elem_of_fmap in Hm as (r & -> & Hr).
    apply list_elem_of_filter in Hr as [Hnot _]. left. intros l Hl Hid.
    apply Hnot, elem_of_localIds. eauto.
Qed.

(** C2 (amended).  The apply loop saves a pulled profile, marked or not,
    exactly when it passes the test against the list of local profiles
    read at the start of the pass: the list holds no profile with its id,
    or the first it holds with that id is older than the fetched profile's
    own [updatedAt].  The profiles directory as it is when the loop runs
    plays no part in the test.  When the loop ends the directory holds,
    under the id of each saved profile, the last saved profile with that
    id, stamped with the time of its save, and every other id reads as
    before the loop.  For an id that the comparison marked for download,
    the list read at the start holds no profile with the id, or holds one
    older than the [modifiedTime] of the remote record that the comparison
    kept for the id. *)
Theorem applyDownloads_reads_snapshot (now serverNow : nat → string)
    (locals : list Profile.t) (d : Drive.t) (st : SyncState.t)
    (pulled : list Profile.t) (dirNow : list (string * json_text)) :
  syncProfiles serverNow locals (Some d) = Some st →
  let after := applyDownloads now locals pulled dirNow in
  after.2 = filter (λ rp, shouldSave locals rp = true) pulled ∧
  (∀ rp, shouldSave locals rp = true ↔
     (∀ l, l ∈ locals → Profile.id l ≠ Profile.id rp) ∨
     ∃ before l rest,
       locals = before ++ l :: rest ∧
       (∀ x, x ∈ before → Profile.id x ≠ Profile.id rp) ∧
       Profile.id l = Profile.id rp ∧
       date_gt (Profile.updatedAt rp) (Profile.updatedAt l) = true) ∧
  (∀ dir', (applyDownloads now locals pulled dir').2 = after.2) ∧
  (∀ rp, rp ∈ after.2 →
     ∃ earlier rp' later,
       after.2 = earlier ++ rp' :: later ∧
       Profile.id rp' = Profile.id rp ∧
       (∀ x, x ∈ later → Profile.id x ≠ Profile.id rp) ∧
       getProfile (Profile.id rp) after.1
       = Some (Profile.set_updatedAt (now (length earlier)) rp')) ∧
  (∀ i, i ∉ Profile.id <$> after.2 →
        getProfile i after.1 = getProfile i dirNow) ∧
  (∀ i, i ∈ Profile.id <$> SyncState.markLog st →
     (∀ l, l ∈ locals → Profile.id l ≠ i) ∨
     ∃ l R, l ∈ locals ∧ Profile.id l = i ∧
            remoteMap (listRemoteProfiles d) !! i = Some R ∧
            date_gt (Remote.modifiedTime R) (Profile.updatedAt l) = true).
Proof.
  intros Hrun after.
  assert (∀ dir', (applyDownloads now locals pulled dir').2
                  = filter (λ rp, shouldSave locals rp = true) pulled) as Hlog.
  { intros dir'. unfold applyDownloads. by rewrite foldl_applyRemote_log. }
  split; [apply Hlog|]. split; [apply shouldSave_iff|].
  split; [intros dir'; unfold after; by rewrite !Hlog|].
  split; [|split].
  - intros rp. unfold after. rewrite Hlog.
    intros [Hsave Hin]%list_elem_of_filter.
    destruct (foldl_applyRemote_last now locals pulled (dirNow, []) rp Hin Hsave)
      as (before & rp' & later & -> & Hsave' & Hid & Hnone & Hget).
    exists (filter (λ x, shouldSave locals x = true) before), rp',
           (filter (λ x, shouldSave locals x = true) later).
    split; [by rewrite filter_app, filter_cons_True|]. split; [done|].
    split; [|done]. intros x [Hsavex Hx]%list_elem_of_filter. by apply Hnone.
  - intros i Hi. unfold after in *. rewrite Hlog in Hi.
    unfold applyDownloads. rewrite foldl_applyRemote_other; [done|].
    intros rp Hin Hsave Hid. apply Hi, list_elem_of_fmap.
    exists rp. split; [done|]. by apply list_elem_of_filter.
  - intros i Hi. by apply (syncProfiles_marked serverNow locals d st).
Qed.
End Quiescence.

Example pass_after_download :
  ∃ w1 w2,
    gdrive_sync (H := iso_date) (Ex.clock Ex.t3) (Ex.clock Ex.t3)
      Ex.world_remote_only = Some (SyncResult.mk [] ["PvP UI"] [], w1) ∧
    getProfile "c3" (World.profilesDir w1)
      = Some (Profile.set_updatedAt Ex.t3 Ex.pvp) ∧
    gdrive_sync (H := iso_date) (Ex.clock Ex.t4) (Ex.clock Ex.t4) w1
      = Some (SyncResult.mk ["PvP UI"] [] [], w2).
Proof. eexists _, _. split; [by vm_compute|]. split; by vm_compute. Qed.

(** C3, as stated, fails.  The local store is empty and the Drive folder
    holds one profile, modified at [t1].  The first pass downloads it and
    [saveProfile] stamps it with the time of the save, [t3]; the second pass
    finds the local copy later than the remote one and uploads it. *)
Lemma second_pass_uploads : ¬ second_pass_empty (H := iso_date).
Proof.
  intros Hclaim.
  destruct pass_after_download as (w1 & w2 & H1 & _ & H2).
  by destruct (Hclaim _ _ _ _ _ _ _ _ _ H1 H2) as [Hu _].
Qed.

Example apply_overwrites_edit :
  applyDownloads (H := iso_date) (Ex.clock Ex.t4) [Ex.raid] [Ex.raid_remote]
    [("a1.json", Encoded Ex.raid_edited)]
  = ([("a1.json", Encoded (Profile.set_updatedAt Ex.t4 Ex.raid_remote))],
     [Ex.raid_remote]).
Proof. by vm_compute. Qed.

(** Without any edit from outside: when two blobs hold the same id, the
    second save of the loop lands on the copy that the first one has just
    written, which is later than the second blob's [modifiedTime]. *)
Example apply_overwrites_own_save :
  ∃ w',
    gdrive_sync (H := iso_date) (Ex.clock Ex.t3) (Ex.clock Ex.t3)
      Ex.world_two_blobs
    = Some (SyncResult.mk [] ["PvP UI"; "PvP UI"] [], w') ∧
    getProfile "c3" (World.profilesDir w')
      = Some (Profile.set_updatedAt Ex.t3 Ex.pvp).
Proof. eexists. split; by vm_compute. Qed.

(** C2, as stated, fails.  The pass read [raid] written at [t2]; the remote
    record, modified at [t3], is marked for download.  A local edit at [t4]
    reaches the profiles directory before the apply loop runs; the loop
    still saves the remote profile over it. *)
Lemma apply_ignores_store : ¬ apply_rechecks_store (H := iso_date).
Proof.
  intros Hclaim.
  destruct (syncProfiles_Some (H := iso_date) (Ex.clock Ex.t4) [Ex.raid]
              Ex.drive_raid) as [st Hrun].
  specialize (Hclaim (Ex.clock Ex.t4) (Ex.clock Ex.t4) [Ex.raid] Ex.drive_raid
                st [("a1.json", Encoded Ex.raid_edited)] Ex.record_raid Hrun).
  vm_compute in Hrun. injection Hrun as <-.
  assert (date_gt (H := iso_date) Ex.t3 Ex.t4 = true) as Habs;
    [|by vm_compute in Habs].
  apply Hclaim; vm_compute; apply list_elem_of_here.
Qed.

(** ** Capture *)

Lemma obj_set_elem_of {A} key (v : A) obj k x :
  (k, x) ∈ obj_set key v obj → (k, x) = (key, v) ∨ (k, x) ∈ obj.
Proof.
  induction obj as [|[k' x'] rest IH]; simpl.
  - intros ->%list_elem_of_singleton. by left.
  - destruct (decide (k' = key)) as [->|Hne].
    + intros [->|Hin]%elem_of_cons; [by left|]. right. by right.
    + intros [->|Hin]%elem_of_cons; [right; by left|].
      destruct (IH Hin) as [?|?]; [by left|]. right. by right.
Qed.

Lemma obj_set_not_nil {A} key (v : A) obj : obj_set key v obj ≠ [].
Proof. destruct obj as [|[k x] rest]; simpl; [done|]. by case_decide. Qed.

Section CaptureLemmas.
Context (readable : string → bool).

Lemma foldl_captureFile_none dir names files :
  (∀ f, f ∈ names → obj_get f dir = None) →
  foldl (captureFile readable dir) files names = files.
Proof.
  revert files. induction names as [|f names IH]; intros files Hno; simpl.
  - done.
  - unfold captureFile at 2. rewrite (Hno f) by (by left).
    apply IH. intros g Hg. apply Hno. by right.
Qed.

Lemma foldl_captureFile_elem_of dir names files key content :
  (key, content) ∈ foldl (captureFile readable dir) files names →
  (key, content) ∈ files ∨
  ∃ f, key = "account/" +:+ f ∧ f ∈ names ∧
       obj_get f dir = Some content ∧ readable f = true.
Proof.
  revert files. induction names as [|f names IH]; intros files; simpl.
  - by left.
  - intros [Hin|(g & -> & Hg & Hget & Hread)]%IH.
    + unfold captureFile in Hin.
      destruct (obj_get f dir) as [c|] eqn:Hget; [|by left].
      destruct (readable f) eqn:Hread; [|by left].
      apply obj_set_elem_of in Hin as [[= -> ->]|Hin]; [|by left].
      right. exists f. split; [done|]. split; [by left|done].
    + right. exists g. split; [done|]. split; [by right|done].
Qed.

Lemma foldl_captureAddon_captured dir requested addons acc :
  (∀ a, a ∈ addons → a ∈ requested) →
  (∀ a data, (a, data) ∈ acc → captured readable dir requested a data) →
  ∀ a data, (a, data) ∈ foldl (captureAddon readable dir) acc addons →
            captured readable dir requested a data.
Proof.
  revert acc. induction addons as [|b addons IH]; intros acc Hreq Hacc; simpl.
  - done.
  - apply IH; [intros a Ha; apply Hreq; by right|].
    intros a data. unfold captureAddon.
    destruct (obj_get b ADDON_FILES) as [cfg|] eqn:Hcfg; [|apply Hacc].
    case_bool_decide as Hlen; [|apply Hacc].
    intros [[= -> ->]|Hin]%obj_set_elem_of; [|by apply Hacc].
    split; [done|]. split.
    { simpl. intros Hnil. rewrite Hnil in Hlen. simpl in Hlen. lia. }
    split; [apply Hreq; by left|].
    exists cfg. split; [done|]. intros key content Hin. simpl in Hin.
    apply foldl_captureFile_elem_of in Hin as [Hin|Hin]; [|done].
    by apply elem_of_nil in Hin.
Qed.

Lemma foldl_captureAddon_omits dir addons acc a :
  (∀ cfg f, obj_get a ADDON_FILES = Some cfg →
            f ∈ AddonFileConfig.accountLevel cfg → obj_get f dir = None) →
  obj_get a acc = None →
  obj_get a (foldl (captureAddon readable dir) acc addons) = None.
Proof.
  intros Hzero. revert acc.
  induction addons as [|b addons IH]; intros acc Hacc; simpl; [done|].
  apply IH. unfold captureAddon.
  destruct (obj_get b ADDON_FILES) as [cfg|] eqn:Hcfg; [|done].
  case_bool_decide as Hlen; [|done].
  destruct (decide (b = a)) as [->|Hne].
  - rewrite foldl_captureFile_none in Hlen; [simpl in Hlen; lia|].
    intros f Hf. by eapply Hzero.
  - by rewrite obj_get_set_ne.
Qed.

Lemma createFromCurrentSettings_addons_eq
    uuid created updated saved name version accountName addons account
    profilesDir :
  Profile.addons
    (createFromCurrentSettings readable uuid created updated saved name
       version accountName addons account profilesDir).2
  = match savedVars account with
    | Some dir => foldl (captureAddon readable dir) [] addons
    | None => []
    end.
Proof.
  unfold createFromCurrentSettings, saveProfile.
  destruct (savedVars account); [|done]. cbn [snd].
  destruct (account ≫= AccountDir.config_cache); [|done].
  by destruct (readable _).
Qed.

(** C9.  In the profile that [createFromCurrentSettings] returns, an add-on
    none of whose settings files is on disk has no entry in [addons], and
    every entry of [addons] is enabled, was requested, and holds at least
    one file, each of them a settings file of that add-on read from disk
    under the key [account/<file>]. *)
Theorem createFromCurrentSettings_addons
    (uuid created updated saved name : string) (version : WoWVersion)
    (accountName : string) (addons : list string)
    (account : option AccountDir.t)
    (profilesDir : list (string * json_text)) :
  let profile :=
    (createFromCurrentSettings readable uuid created updated saved name
       version accountName addons account profilesDir).2 in
  (∀ a, (∀ dir cfg f, savedVars account = Some dir →
                      obj_get a ADDON_FILES = Some cfg →
                      f ∈ AddonFileConfig.accountLevel cfg →
                      obj_get f dir = None) →
        obj_get a (Profile.addons profile) = None) ∧
  (∀ a data, (a, data) ∈ Profile.addons profile →
             ∃ dir, savedVars account = Some dir ∧
                    captured readable dir addons a data).
Proof.
  intros profile. subst profile. rewrite createFromCurrentSettings_addons_eq.
  destruct (savedVars account) as [dir|] eqn:Hdir.
  - split.
    + intros a Hzero. apply foldl_captureAddon_omits; [|done].
      intros cfg f Hcfg Hf. by eapply Hzero.
    + intros a data Hin. exists dir. split; [done|].
      eapply foldl_captureAddon_captured; [| |exact Hin]; [done|].
      intros ? ? Hnil. by apply elem_of_nil in Hnil.
  - split; [done|]. intros a data Hin. by apply elem_of_nil in Hin.
Qed.
End CaptureLemmas.

Lemma createFromCurrentSettings_addons_witness :
  obj_get "WeakAuras"
    (Profile.addons
       (createFromCurrentSettings Ex.all_ok "u1" Ex.t1 Ex.t1 Ex.t2 "Main"
          retail "PLAYER1" ["ElvUI"; "WeakAuras"] (Some Ex.live) []).2) = None.
Proof.
  apply (createFromCurrentSettings_addons Ex.all_ok "u1" Ex.t1 Ex.t1 Ex.t2
           "Main" retail "PLAYER1" ["ElvUI"; "WeakAuras"] (Some Ex.live) []).
  intros dir cfg f [= <-] [= <-] Hf. vm_compute in Hf.
  apply elem_of_cons in Hf as [->|Hf]; [reflexivity|].
  apply elem_of_cons in Hf as [->|Hf]; [reflexivity|].
  by apply elem_of_nil in Hf.
Defined.

(** ** Apply and backup *)

Section ApplyLemmas.
Context (copy_ok : string → bool).

Lemma copyFiles_throws files dest f content :
  (f, content) ∈ files →
  endsWith f ".lua" || endsWith f ".lua.bak" = true →
  copy_ok f = false →
  (copyFiles copy_ok files dest).1 = Threw.
Proof.
  intros Hin Hlua Hfail. revert dest.
  induction files as [|[g c] files IH]; intros dest.
  - by apply elem_of_nil in Hin.
  - simpl. apply elem_of_cons in Hin as [[= <- <-]|Hin].
    + by rewrite Hlua, Hfail.
    + destruct (endsWith g ".lua" || endsWith g ".lua.bak"); [|by apply IH].
      destruct (copy_ok g); [by apply IH|done].
Qed.

(** [createBackup] never touches the account directory. *)
Lemma createBackup_account accountName now fs :
  FS.account (createBackup copy_ok accountName now fs).2 = FS.account fs.
Proof.
  unfold createBackup. destruct (savedVars (FS.account fs)); [|done].
  by destruct (copyFiles _ _ _).
Qed.

Lemma createBackup_outcome accountName now fs files :
  savedVars (FS.account fs) = Some files →
  (createBackup copy_ok accountName now fs).1
  = (copyFiles copy_ok files
       (default [] (obj_get (backupDirName accountName now) (FS.backups fs)))).1.
Proof.
  intros Hsv. unfold createBackup. rewrite Hsv. by destruct (copyFiles _ _ _).
Qed.

Lemma copyFiles_get_other files dest g :
  g ∉ (fst <$> files) →
  obj_get g (copyFiles copy_ok files dest).2 = obj_get g dest.
Proof.
  revert dest. induction files as [|[f c] files IH]; intros dest Hg; simpl.
  - done.
  - apply not_elem_of_cons in Hg as [Hne Hg]. simpl in Hne.
    destruct (endsWith f ".lua" || endsWith f ".lua.bak"); [|by apply IH].
    destruct (copy_ok f); [|done].
    rewrite IH by done. by apply obj_get_set_ne.
Qed.

Lemma copyFiles_covers files dest f content :
  (copyFiles copy_ok files dest).1 = Returned →
  NoDup (fst <$> files) →
  (f, content) ∈ files →
  endsWith f ".lua" || endsWith f ".lua.bak" = true →
  obj_get f (copyFiles copy_ok files dest).2 = Some content.
Proof.
  revert dest. induction files as [|[g c] files IH]; intros dest Hret Hnd Hin Hlua.
  - by apply elem_of_nil in Hin.
  - simpl in Hret |- *. apply NoDup_cons in Hnd as [Hg Hnd].
    apply elem_of_cons in Hin as [[= <- <-]|Hin].
    + rewrite Hlua in Hret |- *. destruct (copy_ok f); [|done].
      rewrite copyFiles_get_other by done. apply obj_get_set_eq.
    + destruct (endsWith g ".lua" || endsWith g ".lua.bak"); [|by apply IH].
      destruct (copy_ok g); [by apply IH|done].
Qed.

(** When [createBackup] returns, the backup directory holds every [.lua]
    and [.lua.bak] file of [SavedVariables] with the content it had before
    the apply; [loadProfile] does not touch the backups afterwards. *)
Lemma createBackup_covers accountName now fs files f content :
  savedVars (FS.account fs) = Some files →
  NoDup (fst <$> files) →
  (createBackup copy_ok accountName now fs).1 = Returned →
  (f, content) ∈ files →
  endsWith f ".lua" || endsWith f ".lua.bak" = true →
  ∃ dir,
    obj_get (backupDirName accountName now)
      (FS.backups (createBackup copy_ok accountName now fs).2) = Some dir ∧
    obj_get f dir = Some content.
Proof.
  intros Hsv Hnd Hret Hin Hlua. unfold createBackup in *. rewrite Hsv in *.
  destruct (copyFiles copy_ok files _) as [o dest] eqn:Hcopy. simpl in *.
  exists dest. split; [apply obj_get_set_eq|].
  pose proof (copyFiles_covers files
    (default [] (obj_get (backupDirName accountName now) (FS.backups fs)))
    f content) as Hcov.
  rewrite Hcopy in Hcov. by apply Hcov.
Qed.

Lemma loadProfile_backups now profile fs :
  FS.backups (loadProfile copy_ok now profile fs).2
  = FS.backups
      (createBackup copy_ok (default "" (Profile.accountName profile)) now fs).2.
Proof.
  unfold loadProfile.
  destruct (createBackup copy_ok _ now fs) as [[] fs']; [|done].
  by destruct (applyProfile profile (FS.account fs')).
Qed.

(** C5.  When the copy of some file that the backup takes ([.lua] or
    [.lua.bak], in [SavedVariables]) throws, [loadProfile] throws and the
    account directory is as it was before the call: no add-on file and no
    game-settings file has been written.  When [SavedVariables] does not
    exist, [createBackup] returns without creating anything and
    [loadProfile] goes on to write the profile. *)
Theorem loadProfile_backup_guard (now : string) (profile : Profile.t)
    (fs : FS.t) :
  (∀ files f content,
     savedVars (FS.account fs) = Some files →
     (f, content) ∈ files →
     endsWith f ".lua" || endsWith f ".lua.bak" = true →
     copy_ok f = false →
     (loadProfile copy_ok now profile fs).1 = Threw ∧
     FS.account (loadProfile copy_ok now profile fs).2 = FS.account fs) ∧
  (savedVars (FS.account fs) = None →
     createBackup copy_ok (default "" (Profile.accountName profile)) now fs
       = (Returned, fs) ∧
     loadProfile copy_ok now profile fs
       = ((applyProfile profile (FS.account fs)).1,
          FS.mk (applyProfile profile (FS.account fs)).2 (FS.backups fs))).
Proof.
  split.
  - intros files f content Hsv Hin Hlua Hfail.
    pose proof (createBackup_outcome (default "" (Profile.accountName profile))
                  now fs files Hsv) as Hout.
    rewrite (copyFiles_throws files _ f content Hin Hlua Hfail) in Hout.
    pose proof (createBackup_account (default "" (Profile.accountName profile))
                  now fs) as Hacc.
    unfold loadProfile.
    destruct (createBackup copy_ok _ now fs) as [o fs'].
    simpl in Hout, Hacc. by subst o.
  - intros Hsv. unfold loadProfile, createBackup. rewrite Hsv.
    split; [done|]. by destruct (applyProfile profile (FS.account fs)).
Qed.
End ApplyLemmas.

Lemma loadProfile_backup_guard_witness :
  ((loadProfile Ex.details_fails Ex.t3 Ex.raid Ex.fs_live).1 = Threw ∧
   FS.account (loadProfile Ex.details_fails Ex.t3 Ex.raid Ex.fs_live).2
     = Some Ex.live) ∧
  loadProfile Ex.all_ok Ex.t3 Ex.raid Ex.fs_fresh
    = (Returned,
       FS.mk
         (Some (AccountDir.mk (Some [("ElvUI.lua", "ElvDB = {}")])
                  (Some "SET cameraDistance 2")))
         []).
Proof.
  split.
  - apply (loadProfile_backup_guard Ex.details_fails Ex.t3 Ex.raid Ex.fs_live)
      with (f := "Details.lua") (content := "old")
           (files := [("ElvUI.lua", "ElvDB = { old = true }");
                      ("Details.lua", "old")]).
    + reflexivity.
    + apply list_elem_of_further, list_elem_of_here.
    + reflexivity.
    + reflexivity.
  - destruct (loadProfile_backup_guard Ex.all_ok Ex.t3 Ex.raid Ex.fs_fresh)
      as [_ Hfresh].
    destruct (Hfresh eq_refl) as [_ ->]. reflexivity.
Defined.

(** C4.  [loadProfile] applies [Ex.raid], which carries game settings, onto
    a live account directory that has settings of its own.  The call
    returns; [config-cache.wtf] now holds the profile's game settings; the
    one backup directory holds the two [.lua] files of [SavedVariables] and
    nothing else: the former content of [config-cache.wtf] is in no
    backup. *)
Theorem loadProfile_overwrites_config_cache :
  FS.account Ex.fs_live ≫= AccountDir.config_cache
    = Some "SET cameraDistance 1" ∧
  loadProfile Ex.all_ok Ex.t3 Ex.raid Ex.fs_live =
    (Returned,
     FS.mk
       (Some (AccountDir.mk
                (Some [("ElvUI.lua", "ElvDB = {}"); ("Details.lua", "old")])
                (Some "SET cameraDistance 2")))
       [("PLAYER1-2024-03-03T10-00-00-000Z",
         [("ElvUI.lua", "ElvDB = { old = true }"); ("Details.lua", "old")])]).
Proof. by vm_compute. Qed.

(** ** The theorems at concrete inputs *)

Lemma raid_drive_ids : drive_ids Ex.drive_raid.
Proof.
  split; [apply NoDup_singleton|].
  intros f ->%list_elem_of_singleton. simpl. lia.
Qed.

Lemma syncProfiles_last_write_wins_witness :
  ∃ st,
    syncProfiles (H := iso_date) (Ex.clock Ex.t4) [Ex.raid_edited]
      (Some Ex.drive_raid) = Some st ∧
    (Ex.raid_edited ∈ SyncState.uploadLog st
       ↔ date_gt (H := iso_date) Ex.t4 Ex.t3 = true) ∧
    holds_upload (Ex.clock Ex.t4) (SyncState.drive st) Ex.raid_edited.
Proof.
  destruct (syncProfiles_Some (H := iso_date) (Ex.clock Ex.t4) [Ex.raid_edited]
              Ex.drive_raid) as [st Hrun].
  exists st. split; [done|].
  destruct (syncProfiles_last_write_wins (H := iso_date) (Ex.clock Ex.t4)
              [Ex.raid_edited] Ex.drive_raid st Ex.raid_edited Ex.record_raid
              [] [] Hrun)
    as (_ & _ & Hup & _ & _ & Hdrive).
  - apply list_elem_of_here.
  - reflexivity.
  - reflexivity.
  - intros R' HR'. by apply elem_of_nil in HR'.
  - split; [exact Hup|].
    destruct Hdrive as [Hheld _].
    + apply raid_drive_ids.
    + intros L' HL' _. by apply list_elem_of_singleton in HL'.
    + apply Hheld. by vm_compute.
Defined.

Lemma applyDownloads_reads_snapshot_witness :
  ∃ st,
    syncProfiles (H := iso_date) (Ex.clock Ex.t4) [Ex.raid] (Some Ex.drive_raid)
      = Some st ∧
    (applyDownloads (H := iso_date) (Ex.clock Ex.t4) [Ex.raid]
       (pullProfiles (SyncState.drive st))
       [("a1.json", Encoded Ex.raid_edited)]).2
    = filter (λ rp, shouldSave (H := iso_date) [Ex.raid] rp = true)
        (pullProfiles (SyncState.drive st)) ∧
    getProfile "a1"
      (applyDownloads (H := iso_date) (Ex.clock Ex.t4) [Ex.raid]
         (pullProfiles (SyncState.drive st))
         [("a1.json", Encoded Ex.raid_edited)]).1
    = Some (Profile.set_updatedAt Ex.t4 Ex.raid_remote).
Proof.
  destruct (syncProfiles_Some (H := iso_date) (Ex.clock Ex.t4) [Ex.raid]
              Ex.drive_raid) as [st Hrun].
  exists st. split; [done|].
  destruct (applyDownloads_reads_snapshot (H := iso_date) (Ex.clock Ex.t4)
              (Ex.clock Ex.t4) [Ex.raid] Ex.drive_raid st
              (pullProfiles (SyncState.drive st))
              [("a1.json", Encoded Ex.raid_edited)] Hrun)
    as (Hlog & _ & _ & Hstore & _).
  split; [exact Hlog|].
  vm_compute in Hrun. injection Hrun as <-.
  destruct (Hstore Ex.raid_remote) as (earlier & rp' & later & Heq & _ & _ & Hget).
  { rewrite Hlog. vm_compute. apply list_elem_of_here. }
  rewrite Hlog in Heq. vm_compute in Heq.
  destruct earlier as [|x earlier]; [|by destruct earlier].
  injection Heq as <- _. exact Hget.
Defined.

Lemma gdrive_sync_quiescent_witness :
  gdrive_sync (H := iso_date) (Ex.clock Ex.t4) (Ex.clock Ex.t4)
    Ex.world_converged
  = Some (SyncResult.mk [] [] [], Ex.world_converged).
Proof.
  assert (gdrive_sync (H := iso_date) (Ex.clock Ex.t3) (Ex.clock Ex.t3)
            Ex.world_converged
          = Some (SyncResult.mk [] [] [], Ex.world_converged)) as Hfirst
    by (by vm_compute).
  destruct (gdrive_sync_quiescent (H := iso_date) (Ex.clock Ex.t3)
              (Ex.clock Ex.t3) Ex.world_converged Ex.world_converged
              (Drive.mk [Ex.file_of 0 Ex.t2 Ex.raid] 1)
              (SyncResult.mk [] [] []) eq_refl Hfirst) as [_ Hstable].
  destruct (Hstable eq_refl eq_refl) as [_ Hnext]. apply Hnext.
Defined.

(** * Further properties *)

(** ** The profile store: save, delete, list *)

Lemma obj_del_get_eq {A} key (obj : list (string * A)) :
  obj_get key (obj_del key obj) = None.
Proof.
  induction obj as [|[k x] rest IH]; simpl; [done|].
  destruct (decide (k = key)) as [->|Hne]; [done|]. simpl.
  by rewrite decide_False.
Qed.

Lemma obj_del_get_ne {A} key key' (obj : list (string * A)) :
  key ≠ key' → obj_get key' (obj_del key obj) = obj_get key' obj.
Proof.
  intros Hne. induction obj as [|[k x] rest IH]; simpl; [done|].
  destruct (decide (k = key)) as [->|Hk]; simpl.
  - by rewrite decide_False.
  - by rewrite IH.
Qed.

Lemma obj_del_elem_of {A} key (obj : list (string * A)) k x :
  (k, x) ∈ obj_del key obj ↔ (k, x) ∈ obj ∧ k ≠ key.
Proof.
  induction obj as [|[k' x'] rest IH]; simpl.
  - split; [intros Hin; by apply elem_of_nil in Hin|].
    intros [Hin _]. by apply elem_of_nil in Hin.
  - destruct (decide (k' = key)) as [->|Hne].
    + rewrite IH, elem_of_cons. split; [intros [? ?]; auto|].
      intros [[[= -> ->]|Hin] Hk]; [done|auto].
    + rewrite !elem_of_cons, IH. split.
      * intros [[= -> ->]|[Hin Hk]]; auto.
      * intros [[Heq|Hin] Hk]; auto.
Qed.

Lemma obj_del_absent {A} key (obj : list (string * A)) :
  obj_get key obj = None → obj_del key obj = obj.
Proof.
  induction obj as [|[k x] rest IH]; simpl; [done|].
  destruct (decide (k = key)); [done|]. intros Hg. by rewrite IH.
Qed.

Lemma obj_set_keys_present {A} key (v x : A) obj :
  obj_get key obj = Some x → (obj_set key v obj).*1 = obj.*1.
Proof.
  induction obj as [|[k y] rest IH]; [done|]. cbn [obj_get obj_set].
  destruct (decide (k = key)) as [->|Hne]; [done|].
  intros Hg. rewrite !fmap_cons. by rewrite IH.
Qed.

Lemma obj_set_keys_absent {A} key (v : A) obj :
  obj_get key obj = None → (obj_set key v obj).*1 = obj.*1 ++ [key].
Proof.
  induction obj as [|[k y] rest IH]; [done|]. cbn [obj_get obj_set].
  destruct (decide (k = key)) as [->|Hne]; [done|].
  intros Hg. rewrite !fmap_cons. by rewrite IH.
Qed.

Lemma obj_set_NoDup {A} key (v : A) obj :
  NoDup obj.*1 → NoDup (obj_set key v obj).*1.
Proof.
  intros Hnd. destruct (obj_get key obj) as [x|] eqn:Hg.
  - by rewrite (obj_set_keys_present _ _ x).
  - rewrite obj_set_keys_absent by done. apply NoDup_app.
    split; [done|]. split; [|apply NoDup_singleton].
    intros k Hk ->%list_elem_of_singleton. by apply obj_get_None_keys in Hg.
Qed.

Lemma obj_del_NoDup {A} key (obj : list (string * A)) :
  NoDup obj.*1 → NoDup (obj_del key obj).*1.
Proof.
  induction obj as [|[k y] rest IH]; simpl; [done|].
  intros [Hk Hnd]%NoDup_cons. destruct (decide (k = key)); [by apply IH|].
  simpl. apply NoDup_cons. split; [|by apply IH].
  intros (e & Heq & Hin)%list_elem_of_fmap. destruct e as [k' y']. simpl in Heq.
  subst k'. apply obj_del_elem_of in Hin as [Hin _]. apply Hk.
  apply list_elem_of_fmap. by exists (k, y').
Qed.

(** X1.  [deleteProfile] removes the profile and nothing else: afterwards
    [getProfile] does not find the id, every other id reads as before, an id
    that has no file leaves the directory as it is, and deleting twice is
    deleting once. *)
Theorem deleteProfile_removes_only (id : string)
    (dir : list (string * json_text)) :
  getProfile id (deleteProfile id dir) = None ∧
  (∀ id', id' ≠ id →
          getProfile id' (deleteProfile id dir) = getProfile id' dir) ∧
  (obj_get (id +:+ ".json") dir = None → deleteProfile id dir = dir) ∧
  deleteProfile id (deleteProfile id dir) = deleteProfile id dir.
Proof.
  assert (obj_get (id +:+ ".json") (deleteProfile id dir) = None) as Hgone.
  { unfold deleteProfile. destruct (obj_get _ dir) eqn:Hg; [|done].
    apply obj_del_get_eq. }
  split; [|split; [|split]].
  - unfold getProfile. by rewrite Hgone.
  - intros id' Hne. unfold getProfile, deleteProfile.
    destruct (obj_get (id +:+ ".json") dir); [|done].
    rewrite obj_del_get_ne; [done|]. intros Heq. by apply json_name_inj in Heq.
  - intros Hnone. unfold deleteProfile. by rewrite Hnone.
  - unfold deleteProfile at 1. by rewrite Hgone.
Qed.

(** X2.  [saveProfile] is an upsert that touches one file: every other id
    reads as before, and the directory gains one entry when the id is new and
    none when it exists. *)
Theorem saveProfile_upsert (now : string) (p : Profile.t)
    (dir : list (string * json_text)) :
  (∀ id', id' ≠ Profile.id p →
          getProfile id' (saveProfile now p dir).1 = getProfile id' dir) ∧
  length (saveProfile now p dir).1
  = match obj_get (Profile.id p +:+ ".json") dir with
    | Some _ => length dir
    | None => S (length dir)
    end.
Proof.
  split.
  - intros id' Hne. apply getProfile_save_ne. congruence.
  - unfold saveProfile. simpl.
    rewrite <-(length_fmap fst (obj_set _ _ _)), <-(length_fmap fst dir).
    destruct (obj_get (Profile.id p +:+ ".json") dir) as [x|] eqn:Hg.
    + by rewrite (obj_set_keys_present _ _ x).
    + rewrite obj_set_keys_absent by done. rewrite length_app. simpl. lia.
Qed.

Lemma saveProfile_store_ok now p dir :
  store_ok dir → store_ok (saveProfile now p dir).1.
Proof.
  intros [Hnd Hfiles]. split; [by apply obj_set_NoDup|].
  intros f c [[= -> ->]|Hin]%obj_set_elem_of; [|by apply Hfiles].
  by exists (Profile.set_updatedAt now p).
Qed.

Lemma deleteProfile_store_ok id dir :
  store_ok dir → store_ok (deleteProfile id dir).
Proof.
  intros [Hnd Hfiles]. unfold deleteProfile.
  destruct (obj_get _ dir); [|done]. split; [by apply obj_del_NoDup|].
  intros f c [Hin _]%obj_del_elem_of. by apply Hfiles.
Qed.

Lemma store_ok_ids_NoDup dir :
  store_ok dir → NoDup (Profile.id <$> readProfiles dir).
Proof.
  intros Hok. rewrite store_ok_readProfiles by done.
  destruct Hok as [Hnd Hfiles].
  induction dir as [|[f c] dir IH]; simpl; [constructor|].
  apply NoDup_cons in Hnd as [Hf Hnd].
  destruct (Hfiles f c) as (q & -> & ->); [by left|]. simpl.
  assert (∀ g c', (g, c') ∈ dir →
            ∃ q', c' = Encoded q' ∧ g = Profile.id q' +:+ ".json") as Hrest.
  { intros g c' Hin. apply Hfiles. by right. }
  apply NoDup_cons. split; [|by apply IH].
  intros (q' & Hid & Hin)%list_elem_of_fmap.
  apply list_elem_of_omap in Hin as ([g c'] & Hin & Hparse). simpl in Hparse.
  destruct (Hrest g c' Hin) as (q'' & -> & ->). simpl in Hparse.
  injection Hparse as ->. apply Hf. apply list_elem_of_fmap.
  exists (Profile.id q' +:+ ".json", Encoded q'). by rewrite Hid.
Qed.

Section StoreListing.
Context `{JSDate}.

(** X3.  In a directory that only [saveProfile] and [deleteProfile] have
    written, [listProfiles] never returns two profiles with the same id, and
    both operations keep the directory in that shape. *)
Theorem store_ok_listing_unique (now id : string) (p : Profile.t)
    (dir : list (string * json_text)) :
  store_ok dir →
  NoDup (Profile.id <$> listProfiles dir) ∧
  store_ok (saveProfile now p dir).1 ∧
  store_ok (deleteProfile id dir).
Proof.
  intros Hok. split; [|split].
  - unfold listProfiles. rewrite Array_sort_perm. by apply store_ok_ids_NoDup.
  - by apply saveProfile_store_ok.
  - by apply deleteProfile_store_ok.
Qed.

(** X4.  In such a directory a saved profile is listed with the stamp of
    the save, every profile with another id stays listed, and a deleted
    profile is no longer listed. *)
Theorem listProfiles_after_save_delete (now : string) (p : Profile.t)
    (dir : list (string * json_text)) :
  store_ok dir →
  Profile.set_updatedAt now p ∈ listProfiles (saveProfile now p dir).1 ∧
  (∀ q, q ∈ listProfiles dir → Profile.id q ≠ Profile.id p →
        q ∈ listProfiles (saveProfile now p dir).1 ∧
        q ∈ listProfiles (deleteProfile (Profile.id p) dir)) ∧
  (∀ q, q ∈ listProfiles (deleteProfile (Profile.id p) dir) →
        Profile.id q ≠ Profile.id p).
Proof.
  intros Hok.
  pose proof (saveProfile_store_ok now p dir Hok) as Hok1.
  pose proof (deleteProfile_store_ok (Profile.id p) dir Hok) as Hok2.
  unfold listProfiles. split; [|split].
  - rewrite Array_sort_perm, store_ok_listed by done.
    apply obj_get_elem_of. unfold saveProfile. simpl. apply obj_get_set_eq.
  - intros q Hq Hne. rewrite Array_sort_perm in Hq.
    rewrite store_ok_listed in Hq by done.
    rewrite !Array_sort_perm, !store_ok_listed by done. split.
    + unfold saveProfile. simpl.
      destruct Hok as [Hnd _].
      apply obj_get_elem_of. rewrite obj_get_set_ne.
      * by apply obj_get_NoDup.
      * intros Heq. apply json_name_inj in Heq. simpl in Heq. congruence.
    + unfold deleteProfile. destruct (obj_get _ dir); [|done].
      apply obj_del_elem_of. split; [done|].
      intros Heq. by apply json_name_inj in Heq.
  - intros q Hq Hid. rewrite Array_sort_perm in Hq.
    rewrite store_ok_listed in Hq by done.
    apply obj_get_None in Hq; [done|]. rewrite Hid.
    destruct (deleteProfile_removes_only (Profile.id p) dir) as [Hgone _].
    unfold deleteProfile in *. destruct (obj_get _ dir) eqn:Hg; [|done].
    apply obj_del_get_eq.
Qed.
End StoreListing.

Lemma dir_two_ok : store_ok Ex.dir_two.
Proof.
  split.
  - apply NoDup_cons. split; [|apply NoDup_singleton].
    by intros Hin%list_elem_of_singleton.
  - intros f c Hin.
    apply elem_of_cons in Hin as [[= -> ->]|Hin]; [by exists Ex.raid|].
    apply elem_of_cons in Hin as [[= -> ->]|Hin]; [by exists Ex.pvp|].
    by apply elem_of_nil in Hin.
Qed.

Lemma store_ok_listing_unique_witness :
  NoDup (Profile.id <$> listProfiles (H := iso_date) Ex.dir_two).
Proof.
  apply (store_ok_listing_unique (H := iso_date) Ex.t4 "a1" Ex.solo Ex.dir_two
           dir_two_ok).
Defined.

Lemma listProfiles_after_save_delete_witness :
  Profile.set_updatedAt Ex.t4 Ex.solo
    ∈ listProfiles (H := iso_date) (saveProfile Ex.t4 Ex.solo Ex.dir_two).1.
Proof.
  destruct (listProfiles_after_save_delete (H := iso_date) Ex.t4 Ex.solo
              Ex.dir_two dir_two_ok) as [Hlisted _].
  exact Hlisted.
Defined.

(** ** The remote store: put, delete, push all, pull all *)

Lemma profile_name_inj (id1 id2 : string) :
  "profile-" +:+ id1 +:+ ".json" = "profile-" +:+ id2 +:+ ".json" → id1 = id2.
Proof.
  intros Heq. apply (inj (String.app "profile-")) in Heq.
  by apply string_app_inj_r in Heq.
Qed.

(** X5.  [uploadProfile] is a put keyed by the file name: afterwards the
    folder holds a file named [profile-<id>.json] with the profile as body
    and the server's stamp; the folder grows by one file when no file had
    that name and by none otherwise; and in a folder of the shape
    [uploadProfile] maintains, that shape is kept and the files of other
    profiles are untouched. *)
Theorem uploadProfile_put (t : string) (p : Profile.t) (d : Drive.t) :
  (∃ f, f ∈ Drive.files (uploadProfile t p d) ∧
        DriveFile.fileName f = profileFileName p ∧
        DriveFile.body f = p ∧ DriveFile.modifiedTime f = t) ∧
  length (Drive.files (uploadProfile t p d))
  = match findFileByName (profileFileName p) d with
    | Some _ => length (Drive.files d)
    | None => S (length (Drive.files d))
    end ∧
  (drive_wf d →
   drive_wf (uploadProfile t p d) ∧
   ∀ g, g ∈ Drive.files d →
        Profile.id (DriveFile.body g) ≠ Profile.id p →
        g ∈ Drive.files (uploadProfile t p d)).
Proof.
  split; [apply uploadProfile_stored|]. split.
  - unfold uploadProfile.
    destruct (findFileByName (profileFileName p) d); simpl.
    + by rewrite length_fmap.
    + rewrite length_app. simpl. lia.
  - intros Hwf. split; [by apply uploadProfile_wf|].
    intros g Hg Hne. by apply uploadProfile_keeps.
Qed.

Lemma NoDup_fmap_filter {A B} (h : A → B) (P : A → Prop)
    `{∀ x, Decision (P x)} (l : list A) :
  NoDup (h <$> l) → NoDup (h <$> filter P l).
Proof.
  intros Hnd. apply (sublist_NoDup _ (h <$> l)); [done|].
  apply fmap_sublist, sublist_filter.
Qed.

(** X6.  In a folder of the shape [uploadProfile] maintains,
    [deleteRemoteProfile] removes the file of the profile and nothing else:
    afterwards no file holds a profile with that id, every file of another
    profile is still there, the shape is kept, and an id that has no file
    leaves the folder as it is. *)
Theorem deleteRemoteProfile_removes_only (profileId : string) (d : Drive.t) :
  drive_wf d →
  drive_wf (deleteRemoteProfile profileId d) ∧
  (∀ f, f ∈ Drive.files (deleteRemoteProfile profileId d) →
        Profile.id (DriveFile.body f) ≠ profileId) ∧
  (∀ f, f ∈ Drive.files d → Profile.id (DriveFile.body f) ≠ profileId →
        f ∈ Drive.files (deleteRemoteProfile profileId d)) ∧
  (findFileByName ("profile-" +:+ profileId +:+ ".json") d = None →
   deleteRemoteProfile profileId d = d).
Proof.
  intros (Hids & Hnames & Hfiles). unfold deleteRemoteProfile.
  destruct (findFileByName _ d) as [fid|] eqn:Hfind.
  - apply findFileByName_Some in Hfind as (x & Hx & Hxname & Hxid).
    split; [|split; [|split; [|done]]].
    + split; [by apply NoDup_fmap_filter|]. split; [by apply NoDup_fmap_filter|].
      intros f [_ Hf]%list_elem_of_filter. by apply Hfiles.
    + simpl. intros f [Hid Hf]%list_elem_of_filter Heq. apply Hid.
      assert (f = x) as ->; [|done].
      apply (NoDup_fmap_elem_inj DriveFile.fileName (Drive.files d)); [done..|].
      destruct (Hfiles f Hf) as [-> _]. unfold profileFileName.
      by rewrite Heq, Hxname.
    + simpl. intros f Hf Hne. apply list_elem_of_filter. split; [|done].
      intros Hid. apply Hne.
      assert (f = x) as ->.
      { apply (NoDup_fmap_elem_inj DriveFile.fileId (Drive.files d));
          [done..|congruence]. }
      destruct (Hfiles x Hx) as [Hname _]. rewrite Hname in Hxname.
      by apply profile_name_inj in Hxname.
  - split; [done|]. split; [|done].
    intros f Hf Heq. apply (findFileByName_None _ _ Hfind f Hf).
    destruct (Hfiles f Hf) as [-> _]. unfold profileFileName. by rewrite Heq.
Qed.

Lemma deleteRemoteProfile_removes_only_witness :
  Drive.files (deleteRemoteProfile "c3" Ex.drive_pvp) = [].
Proof.
  destruct (deleteRemoteProfile_removes_only "c3" Ex.drive_pvp)
    as (_ & Hgone & _).
  - split; [|split].
    + apply NoDup_singleton.
    + apply NoDup_singleton.
    + intros f ->%list_elem_of_singleton. split; [reflexivity|simpl; lia].
  - destruct (Drive.files (deleteRemoteProfile "c3" Ex.drive_pvp))
      as [|f fs] eqn:Hfs; [done|].
    vm_compute in Hfs. discriminate.
Defined.


Section Bulk.
Context `{JSDate}.






End Bulk.

Lemma pvp_drive_wf : drive_wf Ex.drive_pvp.
Proof.
  split; [apply NoDup_singleton|]. split; [apply NoDup_singleton|].
  intros f ->%list_elem_of_singleton. split; [reflexivity|simpl; lia].
Qed.



(** ** A pass and the Drive folder *)

Section PassAndDrive.
Context `{JSDate}.
Context (now serverNow : nat → string).

(** X9.  A pass of [syncProfiles] reports no conflict, uploads only profiles
    of the local list, and never both uploads a profile and marks it for
    download. *)
Theorem syncProfiles_no_double_transfer (locals : list Profile.t)
    (d : Drive.t) :
  ∃ st,
    syncProfiles serverNow locals (Some d) = Some st ∧
    SyncResult.conflicts (SyncState.result st) = [] ∧
    ∀ p, p ∈ SyncState.uploadLog st →
         p ∈ locals ∧ p ∉ SyncState.markLog st.
Proof.
  destruct (syncProfiles_Some serverNow locals d) as [st Hrun].
  exists st. split; [done|].
  pose proof (syncProfiles_result serverNow _ _ _ Hrun) as Hres.
  destruct (syncProfiles_logs serverNow _ _ _ Hrun) as (_ & Hul & Hml).
  split; [by rewrite Hres|].
  intros p. rewrite Hul, Hml.
  intros [Hup Hp]%list_elem_of_filter. split; [done|].
  intros [[Hmark _]%list_elem_of_filter|(r & -> & Hr)%list_elem_of_fmap]%elem_of_app.
  - rewrite (uploads_marks_exclusive _ _ Hup) in Hmark. done.
  - apply list_elem_of_filter in Hr as [Hnot _]. apply Hnot.
    apply elem_of_localIds. eauto.
Qed.

Lemma foldl_syncLocal_uploads rmap ls st :
  drive_wf (SyncState.drive st) →
  NoDup (Profile.id <$> ls) →
  drive_wf (SyncState.drive (foldl (syncLocal serverNow rmap) st ls)) ∧
  (∀ g, g ∈ Drive.files (SyncState.drive st) →
        (∀ l, l ∈ ls → uploadsLocal rmap l = true →
              Profile.id l ≠ Profile.id (DriveFile.body g)) →
        g ∈ Drive.files
              (SyncState.drive (foldl (syncLocal serverNow rmap) st ls))) ∧
  (∀ l, l ∈ ls → uploadsLocal rmap l = true →
        ∃ f, f ∈ Drive.files
                   (SyncState.drive (foldl (syncLocal serverNow rmap) st ls)) ∧
             DriveFile.fileName f = profileFileName l ∧ DriveFile.body f = l).
Proof.
  revert st. induction ls as [|l ls IH]; intros st Hwf Hnd.
  - simpl. split; [done|]. split; [done|]. intros l Hl. by apply elem_of_nil in Hl.
  - rewrite fmap_cons in Hnd. apply NoDup_cons in Hnd as [Hl Hnd].
    cbn [foldl].
    assert (drive_wf (SyncState.drive (syncLocal serverNow rmap st l))) as Hwf1.
    { rewrite syncLocal_cases.
      destruct (uploadsLocal rmap l); [by apply uploadProfile_wf|].
      by destruct (marksLocal rmap l). }
    destruct (IH (syncLocal serverNow rmap st l) Hwf1 Hnd)
      as (Hwf' & Hkeep & Hput).
    assert (∀ g, g ∈ Drive.files (SyncState.drive st) →
              (uploadsLocal rmap l = true →
               Profile.id l ≠ Profile.id (DriveFile.body g)) →
              g ∈ Drive.files (SyncState.drive (syncLocal serverNow rmap st l)))
      as Hstep.
    { intros g Hg Hne. rewrite syncLocal_cases.
      destruct (uploadsLocal rmap l); [|by destruct (marksLocal rmap l)].
      simpl. apply uploadProfile_keeps; [done..|].
      intros Heq. by apply Hne. }
    split; [done|]. split.
    + intros g Hg Hne. apply Hkeep.
      * apply Hstep; [done|]. apply Hne. by left.
      * intros l' Hl'. apply Hne. by right.
    + intros l' [->|Hl']%elem_of_cons Hup; [|by apply Hput].
      destruct (uploadProfile_stored
                  (serverNow (length (SyncState.uploadLog st))) l
                  (SyncState.drive st)) as (f & Hf & Hname & Hbody & _).
      exists f. split; [|done]. apply Hkeep.
      * rewrite syncLocal_cases, Hup. done.
      * intros l2 Hl2 _ Heq. apply Hl. apply list_elem_of_fmap.
        exists l2. by rewrite Hbody in Heq.
Qed.

(** X10.  After a pass of [syncProfiles] (local ids unique, Drive folder in
    the shape [uploadProfile] maintains) every uploaded profile is the body
    of the Drive file named after it, every file of a profile that was not
    uploaded is untouched, and the folder has kept its shape. *)
Theorem syncProfiles_stores_uploads (locals : list Profile.t) (d : Drive.t) :
  drive_wf d →
  NoDup (Profile.id <$> locals) →
  ∃ st,
    syncProfiles serverNow locals (Some d) = Some st ∧
    drive_wf (SyncState.drive st) ∧
    (∀ L, L ∈ SyncState.uploadLog st →
          ∃ f, f ∈ Drive.files (SyncState.drive st) ∧
               DriveFile.fileName f = profileFileName L ∧
               DriveFile.body f = L) ∧
    (∀ g, g ∈ Drive.files d →
          (∀ L, L ∈ SyncState.uploadLog st →
                Profile.id L ≠ Profile.id (DriveFile.body g)) →
          g ∈ Drive.files (SyncState.drive st)).
Proof.
  intros Hwf Hnd. destruct (syncProfiles_Some serverNow locals d) as [st Hrun].
  exists st. split; [done|].
  destruct (syncProfiles_logs serverNow _ _ _ Hrun) as (_ & Hul & _).
  unfold syncProfiles in Hrun. cbv zeta in Hrun. injection Hrun as Hst.
  set (rmap := remoteMap (listRemoteProfiles d)) in *.
  set (st0 := SyncState.mk (SyncResult.mk [] [] []) d [] []) in *.
  destruct (foldl_syncRemote_logs (localIds locals) (listRemoteProfiles d)
              (foldl (syncLocal serverNow rmap) st0 locals)) as (_ & Hdrive & _).
  rewrite Hst in Hdrive.
  destruct (foldl_syncLocal_uploads rmap locals st0 Hwf Hnd)
    as (Hwf' & Hkeep & Hput).
  rewrite Hdrive. split; [done|]. split.
  - intros L HL. rewrite Hul in HL.
    apply list_elem_of_filter in HL as [Hup HL]. by apply Hput.
  - intros g Hg Hne. apply Hkeep; [done|]. intros l Hl Hup. apply Hne.
    rewrite Hul. by apply list_elem_of_filter.
Qed.

Lemma syncProfiles_stores_uploads_aux (locals : list Profile.t) (d : Drive.t) :
  drive_wf d →
  NoDup (Profile.id <$> locals) →
  ∃ st,
    syncProfiles serverNow locals (Some d) = Some st ∧
    drive_wf (SyncState.drive st) ∧
    (∀ L, L ∈ SyncState.uploadLog st →
          ∃ f, f ∈ Drive.files (SyncState.drive st) ∧
               DriveFile.fileName f = profileFileName L ∧
               DriveFile.body f = L) ∧
    (∀ L, L ∈ SyncState.uploadLog st → L ∈ locals).
Proof.
  intros Hwf Hnd. destruct (syncProfiles_Some serverNow locals d) as [st Hrun].
  exists st. split; [done|].
  destruct (syncProfiles_logs serverNow _ _ _ Hrun) as (_ & Hul & _).
  unfold syncProfiles in Hrun. cbv zeta in Hrun. injection Hrun as Hst.
  set (rmap := remoteMap (listRemoteProfiles d)) in *.
  set (st0 := SyncState.mk (SyncResult.mk [] [] []) d [] []) in *.
  destruct (foldl_syncRemote_logs (localIds locals) (listRemoteProfiles d)
              (foldl (syncLocal serverNow rmap) st0 locals)) as (_ & Hdrive & _).
  rewrite Hst in Hdrive.
  destruct (foldl_syncLocal_uploads rmap locals st0 Hwf Hnd)
    as (Hwf' & _ & Hput).
  rewrite Hdrive. split; [done|]. split.
  - intros L HL. rewrite Hul in HL.
    apply list_elem_of_filter in HL as [Hup HL]. by apply Hput.
  - intros L HL. rewrite Hul in HL. by apply list_elem_of_filter in HL as [_ ?].
Qed.

Lemma store_ok_getProfile dir L :
  store_ok dir → L ∈ listProfiles dir → getProfile (Profile.id L) dir = Some L.
Proof.
  intros Hok HL. unfold listProfiles in HL. rewrite Array_sort_perm in HL.
  rewrite store_ok_listed in HL by done. destruct Hok as [Hnd _].
  unfold getProfile. by rewrite (obj_get_NoDup _ (Encoded L)).
Qed.

(** X11.  A pass of [gdrive:sync] never writes over a local profile that it
    has just uploaded: for stores in the shapes their writers maintain, the
    local copy of every uploaded profile reads the same when the handler
    returns. *)
Theorem gdrive_sync_keeps_uploaded (w : World.t) (d : Drive.t) :
  store_ok (World.profilesDir w) →
  World.googleDrive w = Some d →
  drive_wf d →
  ∃ st w',
    syncProfiles serverNow (listProfiles (World.profilesDir w)) (Some d)
      = Some st ∧
    gdrive_sync now serverNow w = Some (SyncState.result st, w') ∧
    ∀ L, L ∈ SyncState.uploadLog st →
         getProfile (Profile.id L) (World.profilesDir w') = Some L.
Proof.
  intros Hok Hd Hwf. set (locals := listProfiles (World.profilesDir w)).
  assert (NoDup (Profile.id <$> locals)) as Hnd.
  { unfold locals, listProfiles. rewrite Array_sort_perm.
    by apply store_ok_ids_NoDup. }
  destruct (syncProfiles_stores_uploads_aux locals d Hwf Hnd)
    as (st & Hrun & Hwf' & Hput & HinL).
  exists st. eexists. split; [done|]. split.
  { unfold gdrive_sync. fold locals. rewrite Hd, Hrun. reflexivity. }
  intros L HL. cbn [World.profilesDir].
  pose proof (store_ok_getProfile _ L Hok (HinL L HL)) as Hget.
  destruct (SyncResult.downloaded (SyncState.result st)); [done|].
  unfold applyDownloads. rewrite foldl_applyRemote_other; [done|].
  intros rp (r & -> & Hr)%list_elem_of_fmap Hsave Hid.
  apply elem_of_listRemoteProfiles in Hr as (g & Hg & _ & ->). simpl in *.
  destruct (Hput L HL) as (f & Hf & _ & Hbody).
  assert (g = f) as -> by (apply (drive_wf_id_unique _ g f Hwf' Hg Hf); congruence).
  rewrite Hbody in Hsave.
  unfold shouldSave in Hsave.
  destruct (List.find _ locals) as [L'|] eqn:Hfind.
  - apply find_Some_elem_of in Hfind as [HL' Hid'%bool_decide_eq_true].
    assert (L' = L) as ->.
    { apply (NoDup_fmap_elem_inj Profile.id locals); [done|done| |done].
      by apply HinL. }
    unfold date_gt in Hsave. by rewrite num_gt_irrefl in Hsave.
  - rewrite find_None_elem_of in Hfind.
    specialize (Hfind L (HinL L HL)). by apply bool_decide_eq_false in Hfind.
Qed.
End PassAndDrive.

Lemma raid_pvp_ids : NoDup (Profile.id <$> [Ex.raid; Ex.pvp]).
Proof.
  apply NoDup_cons. split; [|apply NoDup_singleton].
  by intros Hin%list_elem_of_singleton.
Qed.

Lemma syncProfiles_stores_uploads_witness :
  ∃ st,
    syncProfiles (H := iso_date) (Ex.clock Ex.t4) [Ex.raid; Ex.pvp]
      (Some Ex.drive_pvp) = Some st ∧
    drive_wf (SyncState.drive st).
Proof.
  destruct (syncProfiles_stores_uploads (H := iso_date) (Ex.clock Ex.t4)
              [Ex.raid; Ex.pvp] Ex.drive_pvp pvp_drive_wf raid_pvp_ids)
    as (st & Hrun & Hwf & _).
  by exists st.
Defined.

Lemma gdrive_sync_keeps_uploaded_witness :
  ∃ st w',
    gdrive_sync (H := iso_date) (Ex.clock Ex.t4) (Ex.clock Ex.t4)
      (World.mk Ex.dir_two (Some Ex.drive_pvp))
    = Some (SyncState.result st, w') ∧
    ∀ L, L ∈ SyncState.uploadLog st →
         getProfile (Profile.id L) (World.profilesDir w') = Some L.
Proof.
  destruct (gdrive_sync_keeps_uploaded (H := iso_date) (Ex.clock Ex.t4)
              (Ex.clock Ex.t4) (World.mk Ex.dir_two (Some Ex.drive_pvp))
              Ex.drive_pvp dir_two_ok eq_refl pvp_drive_wf)
    as (st & w' & _ & Hsync & Hkeep).
  by exists st, w'.
Defined.

(** ** Capture and apply *)

Lemma account_key_inj (f g : string) :
  "account/" +:+ f = "account/" +:+ g → f = g.
Proof. intros Heq. vm_compute in Heq. congruence. Qed.

Lemma ADDON_FILES_keys : NoDup ADDON_FILES.*1.
Proof.
  unfold ADDON_FILES. rewrite !fmap_cons, fmap_nil. simpl.
  repeat (apply NoDup_cons; split;
          [rewrite ?elem_of_cons, elem_of_nil; intros Hin;
           repeat destruct Hin as [Hin|Hin]; done|]).
  apply NoDup_nil_2.
Qed.

Lemma ADDON_FILES_split a cfg f :
  obj_get a ADDON_FILES = Some cfg →
  f ∈ AddonFileConfig.accountLevel cfg →
  split "/" ("account/" +:+ f) = ["account"; f].
Proof.
  intros Hcfg%obj_get_elem_of Hf. unfold ADDON_FILES in Hcfg.
  repeat (apply elem_of_cons in Hcfg as [[= -> ->]|Hcfg];
          [simpl in Hf;
           repeat (apply elem_of_cons in Hf as [->|Hf]; [reflexivity|]);
           by apply elem_of_nil in Hf|]).
  by apply elem_of_nil in Hcfg.
Qed.

Lemma obj_set_same {A} key (v : A) obj :
  obj_get key obj = Some v → obj_set key v obj = obj.
Proof.
  induction obj as [|[k x] rest IH]; simpl; [done|].
  destruct (decide (k = key)) as [->|Hne]; [by intros [= ->]|].
  intros Hget. by rewrite IH.
Qed.

Lemma reads_writeSavedVar f c account g :
  reads (writeSavedVar f c account) g
  = if decide (f = g) then Some c else reads account g.
Proof.
  unfold reads, savedVars, writeSavedVar.
  destruct account as [[sv cc]|]; simpl.
  - destruct (decide (f = g)) as [->|Hne].
    + apply obj_get_set_eq.
    + rewrite obj_get_set_ne by done. by destruct sv.
  - by destruct (decide (f = g)).
Qed.

Lemma config_of_writeSavedVar f c account :
  config_of (writeSavedVar f c account) = config_of account.
Proof. by destruct account. Qed.

Lemma writeFiles_transfer dir files account :
  keyed dir files →
  ∃ account',
    writeFiles files account = (Returned, account') ∧
    (is_Some account → is_Some account') ∧
    config_of account' = config_of account ∧
    (∀ g c, reads account g = Some c → obj_get g dir = Some c →
            reads account' g = Some c) ∧
    (∀ key c, (key, c) ∈ files →
       ∃ f, key = "account/" +:+ f ∧ reads account' f = Some c) ∧
    (∀ g, (∀ c, ("account/" +:+ g, c) ∉ files) →
          reads account' g = reads account g).
Proof.
  revert account. induction files as [|[key c] files IH]; intros account Hkeyed.
  - exists account. split; [done|]. split; [done|]. split; [done|].
    split; [done|]. split; [|done].
    intros key c Hin. by apply elem_of_nil in Hin.
  - destruct (Hkeyed key c) as (f & -> & Hsplit & Hdir); [by left|].
    assert (keyed dir files) as Hrest.
    { intros k' c' Hin. apply (Hkeyed k' c'). by right. }
    destruct (IH (writeSavedVar f c account) Hrest)
      as (account' & Hrun & Hsome & Hcc & Hagree & Hput & Hframe).
    exists account'. cbn [writeFiles]. rewrite Hsplit.
    rewrite decide_True by done. split; [done|].
    split; [intros _; apply Hsome; by destruct account|].
    split; [by rewrite Hcc, config_of_writeSavedVar|].
    assert (reads account' f = Some c) as Hf.
    { apply Hagree; [|done]. rewrite reads_writeSavedVar.
      by rewrite decide_True. }
    split; [|split].
    + intros g c' Hg Hdg. apply Hagree; [|done].
      rewrite reads_writeSavedVar. destruct (decide (f = g)) as [->|]; [|done].
      congruence.
    + intros key' c' [[= -> ->]|Hin]%elem_of_cons; [by exists f|].
      by apply Hput.
    + intros g Hg. rewrite Hframe.
      * rewrite reads_writeSavedVar. rewrite decide_False; [done|].
        intros ->. apply (Hg c). by left.
      * intros c' Hin. apply (Hg c'). by right.
Qed.

Lemma writeAddons_transfer dir addons account :
  (∀ a data, (a, data) ∈ addons →
     AddonConfig.enabled data = true ∧ keyed dir (AddonConfig.files data)) →
  ∃ account',
    writeAddons addons account = (Returned, account') ∧
    (is_Some account → is_Some account') ∧
    config_of account' = config_of account ∧
    (∀ g c, reads account g = Some c → obj_get g dir = Some c →
            reads account' g = Some c) ∧
    (∀ a data key c, (a, data) ∈ addons → (key, c) ∈ AddonConfig.files data →
       ∃ f, key = "account/" +:+ f ∧ reads account' f = Some c) ∧
    (∀ g, (∀ a data c, (a, data) ∈ addons →
                       ("account/" +:+ g, c) ∉ AddonConfig.files data) →
          reads account' g = reads account g).
Proof.
  revert account. induction addons as [|[a data] addons IH]; intros account Hall.
  - exists account. split; [done|]. split; [done|]. split; [done|].
    split; [done|]. split; [|done].
    intros a data key c Hin. by apply elem_of_nil in Hin.
  - destruct (Hall a data) as [Hen Hkeyed]; [by left|].
    destruct (writeFiles_transfer dir (AddonConfig.files data) account Hkeyed)
      as (account1 & Hrun1 & Hsome1 & Hcc1 & Hagree1 & Hput1 & Hframe1).
    destruct (IH account1) as
      (account' & Hrun & Hsome & Hcc & Hagree & Hput & Hframe).
    { intros a' data' Hin. apply (Hall a' data'). by right. }
    exists account'. cbn [writeAddons]. rewrite Hen, Hrun1.
    split; [done|]. split; [by intros ?; apply Hsome, Hsome1|].
    split; [by rewrite Hcc|]. split; [|split].
    + intros g c Hg Hdg. apply Hagree; [|done]. by apply Hagree1.
    + intros a' data' key c [[= -> ->]|Hin]%elem_of_cons Hkey.
      * destruct (Hput1 key c Hkey) as (f & -> & Hf). exists f. split; [done|].
        apply Hagree; [done|].
        destruct (Hkeyed _ c Hkey) as (f' & Heq%account_key_inj & _ & Hdir).
        by subst f'.
      * by eapply Hput.
    + intros g Hg. rewrite Hframe, Hframe1; [done| |].
      * intros c. apply (Hg a data c). by left.
      * intros a' data' c Hin. apply (Hg a' data' c). by right.
Qed.

Lemma writeFiles_same dir cc files :
  keyed dir files →
  writeFiles files (Some (AccountDir.mk (Some dir) cc))
  = (Returned, Some (AccountDir.mk (Some dir) cc)).
Proof.
  induction files as [|[key c] files IH]; intros Hkeyed; [done|].
  destruct (Hkeyed key c) as (f & -> & Hsplit & Hdir); [by left|].
  cbn [writeFiles]. rewrite Hsplit. rewrite decide_True by done.
  unfold writeSavedVar. simpl. rewrite (obj_set_same _ _ _ Hdir).
  apply IH. intros k' c' Hin. apply (Hkeyed k' c'). by right.
Qed.

Lemma writeAddons_same dir cc addons :
  (∀ a data, (a, data) ∈ addons → keyed dir (AddonConfig.files data)) →
  writeAddons addons (Some (AccountDir.mk (Some dir) cc))
  = (Returned, Some (AccountDir.mk (Some dir) cc)).
Proof.
  induction addons as [|[a data] addons IH]; intros Hall; [done|].
  cbn [writeAddons].
  assert (writeAddons addons (Some (AccountDir.mk (Some dir) cc))
          = (Returned, Some (AccountDir.mk (Some dir) cc))) as Hrest.
  { apply IH. intros a' data' Hin. apply (Hall a'). by right. }
  destruct (AddonConfig.enabled data); [|done].
  rewrite (writeFiles_same dir cc); [done|]. apply (Hall a). by left.
Qed.

Lemma writeFiles_skips files account :
  (∀ key c, (key, c) ∈ files → head (split "/" key) ≠ Some "account") →
  writeFiles files account = (Returned, account).
Proof.
  induction files as [|[key c] files IH]; intros Hall; [done|].
  cbn [writeFiles].
  assert (writeFiles files account = (Returned, account)) as Hrest.
  { apply IH. intros k' c' Hin. apply (Hall k' c'). by right. }
  pose proof (Hall key c (list_elem_of_here _ _)) as Hhead.
  destruct (split "/" key) as [|level parts]; [done|].
  destruct (decide (level = "account")) as [->|]; [by destruct Hhead|done].
Qed.

Section CaptureMore.
Context (readable : string → bool).

Lemma captured_keyed dir addons a data :
  captured readable dir addons a data → keyed dir (AddonConfig.files data).
Proof.
  intros (_ & _ & _ & cfg & Hcfg & Hfiles) key c Hin.
  destruct (Hfiles key c Hin) as (f & -> & Hf & Hdir & _).
  exists f. split; [done|]. split; [|done]. by eapply ADDON_FILES_split.
Qed.

Lemma capture_entries
    uuid created updated saved name version accountName addons account
    profilesDir dir a data :
  savedVars account = Some dir →
  (a, data) ∈ Profile.addons
    (createFromCurrentSettings readable uuid created updated saved name
       version accountName addons account profilesDir).2 →
  captured readable dir addons a data.
Proof.
  intros Hdir. rewrite createFromCurrentSettings_addons_eq, Hdir.
  apply foldl_captureAddon_captured; [done|].
  intros a' data' Hin. by apply elem_of_nil in Hin.
Qed.

Lemma capture_gameSettings
    uuid created updated saved name version accountName addons account
    profilesDir :
  Profile.gameSettings
    (createFromCurrentSettings readable uuid created updated saved name
       version accountName addons account profilesDir).2
  = match savedVars account with
    | Some _ => if readable "config-cache.wtf" then config_of account else None
    | None => None
    end.
Proof.
  unfold createFromCurrentSettings, saveProfile, config_of.
  destruct (savedVars account); [|done]. cbn [snd].
  destruct (account ≫= AccountDir.config_cache);
    by destruct (readable _).
Qed.

Lemma capture_saved
    uuid created updated saved name version accountName addons account
    profilesDir :
  ∃ p0,
    createFromCurrentSettings readable uuid created updated saved name
      version accountName addons account profilesDir
    = saveProfile saved p0 profilesDir ∧
    Profile.id p0 = uuid ∧ Profile.name p0 = name ∧
    Profile.createdAt p0 = created ∧ Profile.wowVersion p0 = version ∧
    Profile.accountName p0 = Some accountName.
Proof.
  unfold createFromCurrentSettings.
  destruct (savedVars account); [|by eexists].
  destruct (account ≫= AccountDir.config_cache); [|by eexists].
  destruct (readable _); by eexists.
Qed.

(** X12.  The profile object that [createFromCurrentSettings] returns is the
    record it has stored: reading the new id back gives the returned
    object, whose [updatedAt] is the instant of the save (not the one taken
    when the object was built); no other profile of the store has changed. *)
Theorem createFromCurrentSettings_persists
    (uuid created updated saved name : string) (version : WoWVersion)
    (accountName : string) (addons : list string)
    (account : option AccountDir.t)
    (profilesDir : list (string * json_text)) :
  let r :=
    createFromCurrentSettings readable uuid created updated saved name
      version accountName addons account profilesDir in
  getProfile uuid r.1 = Some r.2 ∧
  Profile.id r.2 = uuid ∧
  Profile.createdAt r.2 = created ∧
  Profile.updatedAt r.2 = saved ∧
  Profile.accountName r.2 = Some accountName ∧
  ∀ i, i ≠ uuid → getProfile i r.1 = getProfile i profilesDir.
Proof.
  intros r. subst r.
  destruct (capture_saved uuid created updated saved name version accountName
              addons account profilesDir)
    as (p0 & -> & <- & _ & <- & _ & Hacc).
  split; [apply getProfile_save_eq|]. split; [done|]. split; [done|].
  split; [done|]. split; [done|].
  intros i Hi. apply getProfile_save_ne. congruence.
Qed.

Lemma foldl_captureFile_get dir names files f content :
  obj_get f dir = Some content →
  readable f = true →
  f ∈ names ∨ obj_get ("account/" +:+ f) files = Some content →
  obj_get ("account/" +:+ f) (foldl (captureFile readable dir) files names)
  = Some content.
Proof.
  intros Hdir Hread. revert files.
  induction names as [|g names IH]; intros files Hor.
  - destruct Hor as [Hin|Hget]; [by apply elem_of_nil in Hin|done].
  - cbn [foldl]. apply IH.
    destruct (decide (g = f)) as [->|Hne].
    + right. unfold captureFile. rewrite Hdir, Hread. apply obj_get_set_eq.
    + destruct Hor as [[->|Hin]%elem_of_cons|Hget]; [done|by left|].
      right. unfold captureFile.
      destruct (obj_get g dir); [|done]. destruct (readable g); [|done].
      rewrite obj_get_set_ne; [done|]. by intros Heq%account_key_inj.
Qed.

Lemma foldl_captureAddon_get dir addons acc a cfg :
  obj_get a ADDON_FILES = Some cfg →
  foldl (captureFile readable dir) [] (AddonFileConfig.accountLevel cfg) ≠ [] →
  a ∈ addons ∨
    obj_get a acc
    = Some (AddonConfig.mk true
              (foldl (captureFile readable dir) []
                 (AddonFileConfig.accountLevel cfg))) →
  obj_get a (foldl (captureAddon readable dir) acc addons)
  = Some (AddonConfig.mk true
            (foldl (captureFile readable dir) []
               (AddonFileConfig.accountLevel cfg))).
Proof.
  intros Hcfg Hne. revert acc.
  induction addons as [|b addons IH]; intros acc Hor.
  - destruct Hor as [Hin|Hget]; [by apply elem_of_nil in Hin|done].
  - cbn [foldl]. apply IH.
    destruct (decide (b = a)) as [->|Hba].
    + right. unfold captureAddon. rewrite Hcfg.
      rewrite bool_decide_eq_true_2; [apply obj_get_set_eq|].
      destruct (foldl _ _ _); [done|simpl; lia].
    + destruct Hor as [[->|Hin]%elem_of_cons|Hget]; [done|by left|].
      right. unfold captureAddon.
      destruct (obj_get b ADDON_FILES); [|done].
      destruct (bool_decide _); [|done].
      by rewrite obj_get_set_ne.
Qed.

Lemma capture_entry_get
    uuid created updated saved name version accountName addons account
    profilesDir dir a cfg f content :
  savedVars account = Some dir →
  a ∈ addons →
  obj_get a ADDON_FILES = Some cfg →
  f ∈ AddonFileConfig.accountLevel cfg →
  obj_get f dir = Some content →
  readable f = true →
  let files :=
    foldl (captureFile readable dir) [] (AddonFileConfig.accountLevel cfg) in
  obj_get a
    (Profile.addons
       (createFromCurrentSettings readable uuid created updated saved name
          version accountName addons account profilesDir).2)
  = Some (AddonConfig.mk true files) ∧
  obj_get ("account/" +:+ f) files = Some content.
Proof.
  intros Hsv Ha Hcfg Hf Hdir Hread files. subst files.
  rewrite createFromCurrentSettings_addons_eq, Hsv.
  pose proof (foldl_captureFile_get dir (AddonFileConfig.accountLevel cfg) []
                f content Hdir Hread (or_introl Hf)) as Hget.
  split; [|done].
  apply (foldl_captureAddon_get dir addons [] a cfg Hcfg); [|by left].
  intros Hnil. by rewrite Hnil in Hget.
Qed.

(** X13.  [createFromCurrentSettings] captures every file it can: for a
    requested add-on of the table [ADDON_FILES], each of its settings files
    that is in [SavedVariables] and can be read is in the add-on's entry of
    the returned profile, under the key [account/<file>] with the content
    on disk, and the entry is enabled. *)
Theorem createFromCurrentSettings_complete
    (uuid created updated saved name : string) (version : WoWVersion)
    (accountName : string) (addons : list string)
    (account : option AccountDir.t)
    (profilesDir : list (string * json_text))
    (dir : list (string * string)) (a : string) (cfg : AddonFileConfig.t)
    (f content : string) :
  savedVars account = Some dir →
  a ∈ addons →
  obj_get a ADDON_FILES = Some cfg →
  f ∈ AddonFileConfig.accountLevel cfg →
  obj_get f dir = Some content →
  readable f = true →
  ∃ data,
    obj_get a
      (Profile.addons
         (createFromCurrentSettings readable uuid created updated saved name
            version accountName addons account profilesDir).2) = Some data ∧
    AddonConfig.enabled data = true ∧
    obj_get ("account/" +:+ f) (AddonConfig.files data) = Some content.
Proof.
  intros Hsv Ha Hcfg Hf Hdir Hread.
  destruct (capture_entry_get uuid created updated saved name version
              accountName addons account profilesDir dir a cfg f content
              Hsv Ha Hcfg Hf Hdir Hread) as [Hentry Hfile].
  eexists. split; [exact Hentry|]. split; [reflexivity|exact Hfile].
Qed.

Lemma elem_of_scanInstalledAddons account a :
  a ∈ scanInstalledAddons account ↔
  ∃ dir cfg f, savedVars account = Some dir ∧ (a, cfg) ∈ ADDON_FILES ∧
               f ∈ AddonFileConfig.accountLevel cfg ∧ f ∈ dir.*1.
Proof.
  unfold scanInstalledAddons. destruct (savedVars account) as [dir|].
  - rewrite list_elem_of_fmap. split.
    + intros ([a' cfg] & -> & [Hany Hin]%list_elem_of_filter).
      unfold hasAnyFile in Hany. apply existsb_exists in Hany as (f & Hf & Hinc).
      exists dir, cfg, f. split; [done|]. split; [done|].
      split; [by apply list_elem_of_In|].
      by apply bool_decide_eq_true in Hinc.
    + intros (dir' & cfg & f & [= <-] & Hin & Hf & Hex).
      exists (a, cfg). split; [done|]. apply list_elem_of_filter. split; [|done].
      unfold hasAnyFile. apply existsb_exists. exists f.
      split; [by apply list_elem_of_In|]. by apply bool_decide_eq_true.
  - split; [by intros Hin%elem_of_nil|]. by intros (? & ? & ? & [=] & _).
Qed.

(** X14.  [scanInstalledAddons] and [createFromCurrentSettings] agree on the
    same account directory: the scan lists no add-on twice; every add-on
    with an entry in the captured profile is listed by the scan; and when
    every file can be read, a requested add-on that the scan lists has an
    entry in the captured profile. *)
Theorem scanInstalledAddons_covers_capture
    (uuid created updated saved name : string) (version : WoWVersion)
    (accountName : string) (addons : list string)
    (account : option AccountDir.t)
    (profilesDir : list (string * json_text)) :
  let profile :=
    (createFromCurrentSettings readable uuid created updated saved name
       version accountName addons account profilesDir).2 in
  NoDup (scanInstalledAddons account) ∧
  (∀ a data, (a, data) ∈ Profile.addons profile →
             a ∈ scanInstalledAddons account) ∧
  ((∀ f, readable f = true) →
   ∀ a, a ∈ scanInstalledAddons account → a ∈ addons →
        is_Some (obj_get a (Profile.addons profile))).
Proof.
  intros profile. subst profile. split; [|split].
  - unfold scanInstalledAddons. destruct (savedVars account); [|apply NoDup_nil_2].
    apply (sublist_NoDup _ ADDON_FILES.*1); [apply ADDON_FILES_keys|].
    apply fmap_sublist, sublist_filter.
  - intros a data Hin.
    destruct (savedVars account) as [dir|] eqn:Hsv.
    + pose proof (capture_entries _ _ _ _ _ _ _ _ _ _ dir a data Hsv Hin)
        as (_ & Hne & _ & cfg & Hcfg & Hfiles).
      destruct (AddonConfig.files data) as [|[key c] rest] eqn:Hf; [done|].
      destruct (Hfiles key c) as (f & _ & Hfin & Hdir & _); [by left|].
      apply elem_of_scanInstalledAddons. exists dir, cfg, f.
      split; [done|]. split; [by apply obj_get_elem_of|]. split; [done|].
      apply obj_get_elem_of in Hdir. apply list_elem_of_fmap. by exists (f, c).
    + rewrite createFromCurrentSettings_addons_eq, Hsv in Hin.
      by apply elem_of_nil in Hin.
  - intros Hread a (dir & cfg & f & Hsv & Hcfg & Hf & Hex)%elem_of_scanInstalledAddons
      Ha.
    destruct (obj_get f dir) as [content|] eqn:Hdir.
    + assert (obj_get a ADDON_FILES = Some cfg) as Hget.
      { apply obj_get_NoDup; [apply ADDON_FILES_keys|done]. }
      destruct (capture_entry_get uuid created updated saved name version
                  accountName addons account profilesDir dir a cfg f content
                  Hsv Ha Hget Hf Hdir (Hread f)) as [-> _].
      done.
    + by apply obj_get_None_keys in Hdir.
Qed.
End CaptureMore.

Section ApplyMore.
Context (readable copy_ok : string → bool).

Lemma reads_set_config sv c g :
  reads (Some (AccountDir.mk sv c)) g = sv ≫= obj_get g.
Proof. done. Qed.

(** X15.  A captured profile carries the settings to another account
    directory: [applyProfile] of what [createFromCurrentSettings] returned,
    on an existing account directory, returns; afterwards every captured
    file reads in [SavedVariables] with the content it had where it was
    captured, the files that the profile does not hold read as before, and
    [config-cache.wtf] holds the captured game settings when there are some
    (and they are not the empty text). *)
Theorem capture_apply_transfers
    (uuid created updated saved name : string) (version : WoWVersion)
    (accountName : string) (addons : list string)
    (account : option AccountDir.t)
    (profilesDir : list (string * json_text))
    (dir : list (string * string)) (target : AccountDir.t) :
  savedVars account = Some dir →
  let p :=
    (createFromCurrentSettings readable uuid created updated saved name
       version accountName addons account profilesDir).2 in
  ∃ target',
    applyProfile p (Some target) = (Returned, Some target') ∧
    (∀ a data key content,
       (a, data) ∈ Profile.addons p → (key, content) ∈ AddonConfig.files data →
       ∃ f, key = "account/" +:+ f ∧ obj_get f dir = Some content ∧
            reads (Some target') f = Some content) ∧
    (∀ g, (∀ a data c, (a, data) ∈ Profile.addons p →
                       ("account/" +:+ g, c) ∉ AddonConfig.files data) →
          reads (Some target') g = reads (Some target) g) ∧
    AccountDir.config_cache target'
    = match Profile.gameSettings p with
      | Some c => if decide (c = "") then AccountDir.config_cache target
                  else Some c
      | None => AccountDir.config_cache target
      end.
Proof.
  intros Hsv p.
  assert (∀ a data, (a, data) ∈ Profile.addons p →
            AddonConfig.enabled data = true ∧ keyed dir (AddonConfig.files data))
    as Hall.
  { intros a data Hin.
    pose proof (capture_entries readable _ _ _ _ _ _ _ _ _ _ dir a data Hsv Hin)
      as Hcap.
    split; [by destruct Hcap|]. by eapply captured_keyed. }
  destruct (writeAddons_transfer dir (Profile.addons p) (Some target) Hall)
    as (account1 & Hrun & Hsome & Hcc & _ & Hput & Hframe).
  destruct (Hsome (mk_is_Some _ _ eq_refl)) as [t1 ->].
  unfold config_of in Hcc. simpl in Hcc.
  assert (∀ a data key content,
            (a, data) ∈ Profile.addons p →
            (key, content) ∈ AddonConfig.files data →
            ∃ f, key = "account/" +:+ f ∧ obj_get f dir = Some content ∧
                 reads (Some t1) f = Some content) as Hput'.
  { intros a data key content Hin Hkey.
    destruct (Hput a data key content Hin Hkey) as (f & -> & Hf).
    exists f. split; [done|]. split; [|done].
    destruct (Hall a data Hin) as [_ Hkeyed].
    destruct (Hkeyed _ content Hkey) as (f' & Heq%account_key_inj & _ & Hdir).
    by subst f'. }
  unfold applyProfile. rewrite Hrun. unfold writeGameSettings.
  destruct (Profile.gameSettings p) as [c|]; [|by exists t1].
  destruct (decide (c = "")); [by exists t1|].
  eexists. split; [done|]. destruct t1 as [sv1 cc1]. by simpl.
Qed.

Lemma applyProfile_capture_same
    uuid created updated saved name version accountName addons account
    profilesDir :
  applyProfile
    (createFromCurrentSettings readable uuid created updated saved name
       version accountName addons account profilesDir).2 account
  = (Returned, account).
Proof.
  unfold applyProfile.
  pose proof (capture_gameSettings readable uuid created updated saved name
                version accountName addons account profilesDir) as Hgs.
  destruct (savedVars account) as [dir|] eqn:Hsv.
  - destruct account as [[sv cc]|]; [|done]. simpl in Hsv. subst sv.
    rewrite (writeAddons_same dir cc).
    + rewrite Hgs. unfold writeGameSettings, config_of. simpl.
      destruct (readable _); [|done]. destruct cc as [c|]; [|done].
      by destruct (decide (c = "")).
    + intros a data Hin. apply (captured_keyed readable dir addons a).
      by apply (capture_entries readable uuid created updated saved name
                  version accountName addons
                  (Some (AccountDir.mk (Some dir) cc)) profilesDir dir a data
                  eq_refl).
  - rewrite Hgs, createFromCurrentSettings_addons_eq, Hsv. done.
Qed.

(** X16.  Capturing an account directory and applying the result to the
    same directory changes nothing in it: after [loadProfile] of the profile
    that [createFromCurrentSettings] has just returned, the account
    directory is as it was, and the call throws exactly when its backup
    does. *)
Theorem loadProfile_of_capture_keeps_account
    (uuid created updated saved name : string) (version : WoWVersion)
    (accountName : string) (addons : list string)
    (profilesDir : list (string * json_text)) (now : string) (fs : FS.t) :
  let p :=
    (createFromCurrentSettings readable uuid created updated saved name
       version accountName addons (FS.account fs) profilesDir).2 in
  FS.account (loadProfile copy_ok now p fs).2 = FS.account fs ∧
  (loadProfile copy_ok now p fs).1
  = (createBackup copy_ok accountName now fs).1.
Proof.
  intros p.
  assert (Profile.accountName p = Some accountName) as Hname.
  { subst p.
    by destruct (capture_saved readable uuid created updated saved name version
                   accountName addons (FS.account fs) profilesDir)
      as (p0 & -> & _ & _ & _ & _ & Hacc). }
  pose proof (createBackup_account copy_ok accountName now fs) as Hacc.
  unfold loadProfile. rewrite Hname. simpl.
  destruct (createBackup copy_ok accountName now fs) as [[] fs']; [|done].
  simpl in Hacc. rewrite Hacc. subst p.
  by rewrite applyProfile_capture_same.
Qed.

Lemma writeAddons_skips addons account :
  (∀ a data key c, (a, data) ∈ addons → AddonConfig.enabled data = true →
     (key, c) ∈ AddonConfig.files data →
     head (split "/" key) ≠ Some "account") →
  writeAddons addons account = (Returned, account).
Proof.
  induction addons as [|[a data] addons IH]; intros Hall; [done|].
  cbn [writeAddons].
  assert (writeAddons addons account = (Returned, account)) as Hrest.
  { apply IH. intros a' data' key c Hin. apply (Hall a' data' key c). by right. }
  destruct (AddonConfig.enabled data) eqn:Hen; [|done].
  rewrite writeFiles_skips; [done|].
  intros key c Hin. apply (Hall a data key c); [by left|done..].
Qed.

(** X17.  [loadProfile] writes neither the files of a disabled add-on nor a
    file whose key names another level than [account]: for a profile that
    has only such files and no game settings, the account directory is as
    it was after the call, whatever the backup did. *)
Theorem loadProfile_skips_disabled_and_other_levels
    (now : string) (profile : Profile.t) (fs : FS.t) :
  (∀ a data key c,
     (a, data) ∈ Profile.addons profile → AddonConfig.enabled data = true →
     (key, c) ∈ AddonConfig.files data →
     head (split "/" key) ≠ Some "account") →
  Profile.gameSettings profile = None →
  FS.account (loadProfile copy_ok now profile fs).2 = FS.account fs.
Proof.
  intros Hall Hgs.
  pose proof (createBackup_account copy_ok
                (default "" (Profile.accountName profile)) now fs) as Hacc.
  unfold loadProfile.
  destruct (createBackup copy_ok _ now fs) as [[] fs']; [|done].
  simpl in Hacc. unfold applyProfile.
  rewrite (writeAddons_skips _ _ Hall), Hgs. done.
Qed.

(** X18.  When [loadProfile] returns on an account whose [SavedVariables]
    exists, the backup directory [<account>-<timestamp>] holds every [.lua]
    and [.lua.bak] file of [SavedVariables] with the content it had before
    the call, and every other backup directory is as it was. *)
Theorem loadProfile_backup_complete
    (now : string) (profile : Profile.t) (fs : FS.t)
    (files : list (string * string)) :
  savedVars (FS.account fs) = Some files →
  NoDup files.*1 →
  (loadProfile copy_ok now profile fs).1 = Returned →
  let backupDir :=
    backupDirName (default "" (Profile.accountName profile)) now in
  let after := FS.backups (loadProfile copy_ok now profile fs).2 in
  (∃ dir, obj_get backupDir after = Some dir ∧
     ∀ f content, (f, content) ∈ files →
       endsWith f ".lua" || endsWith f ".lua.bak" = true →
       obj_get f dir = Some content) ∧
  ∀ other, other ≠ backupDir →
           obj_get other after = obj_get other (FS.backups fs).
Proof.
  intros Hsv Hnd Hret backupDir after. subst after.
  rewrite loadProfile_backups.
  assert ((createBackup copy_ok (default "" (Profile.accountName profile))
             now fs).1 = Returned) as Hback.
  { unfold loadProfile in Hret.
    by destruct (createBackup copy_ok _ now fs) as [[] fs']. }
  unfold createBackup in *. rewrite Hsv in *. fold backupDir in Hback |- *.
  destruct (copyFiles copy_ok files _) as [o dest] eqn:Hcopy.
  simpl in Hback. subst o. cbn [snd FS.backups]. split.
  - exists dest. split; [apply obj_get_set_eq|].
    intros f content Hin Hlua.
    pose proof (copyFiles_covers copy_ok files
                  (default [] (obj_get backupDir (FS.backups fs))) f content)
      as Hcov.
    rewrite Hcopy in Hcov. by apply Hcov.
  - intros other Hne. by rewrite obj_get_set_ne.
Qed.
End ApplyMore.

Lemma createFromCurrentSettings_complete_witness :
  ∃ data,
    obj_get "ElvUI"
      (Profile.addons
         (createFromCurrentSettings Ex.all_ok "u1" Ex.t1 Ex.t1 Ex.t2 "Main"
            retail "PLAYER1" ["ElvUI"; "WeakAuras"] (Some Ex.live) []).2)
      = Some data ∧
    AddonConfig.enabled data = true ∧
    obj_get "account/ElvUI.lua" (AddonConfig.files data)
      = Some "ElvDB = { old = true }".
Proof.
  apply (createFromCurrentSettings_complete Ex.all_ok "u1" Ex.t1 Ex.t1 Ex.t2
           "Main" retail "PLAYER1" ["ElvUI"; "WeakAuras"] (Some Ex.live) []
           [("ElvUI.lua", "ElvDB = { old = true }"); ("Details.lua", "old")]
           "ElvUI" (AddonFileConfig.mk ["ElvUI.lua"] (Some ["ElvUI.lua"]))
           "ElvUI.lua" "ElvDB = { old = true }");
    first [reflexivity | by left].
Defined.

Lemma capture_apply_transfers_witness :
  ∃ target',
    applyProfile
      (createFromCurrentSettings Ex.all_ok "u1" Ex.t1 Ex.t1 Ex.t2 "Main"
         retail "PLAYER1" ["ElvUI"; "WeakAuras"] (Some Ex.live) []).2
      (Some (AccountDir.mk None None))
    = (Returned, Some target') ∧
    AccountDir.config_cache target' = Some "SET cameraDistance 1".
Proof.
  destruct (capture_apply_transfers Ex.all_ok "u1" Ex.t1 Ex.t1 Ex.t2 "Main"
              retail "PLAYER1" ["ElvUI"; "WeakAuras"] (Some Ex.live) []
              [("ElvUI.lua", "ElvDB = { old = true }"); ("Details.lua", "old")]
              (AccountDir.mk None None) eq_refl)
    as (target' & Hrun & _ & _ & Hcc).
  exists target'. split; [exact Hrun|exact Hcc].
Defined.

Lemma loadProfile_skips_disabled_and_other_levels_witness :
  FS.account
    (loadProfile Ex.all_ok Ex.t3
       (Profile.mk "d4" "Alt UI" None None Ex.t1 Ex.t1 retail (Some "PLAYER1")
          [("ElvUI", AddonConfig.mk false [("account/ElvUI.lua", "off")]);
           ("DBM", AddonConfig.mk true [("character/DBM-Core.lua", "char")])]
          None)
       Ex.fs_live).2
  = FS.account Ex.fs_live.
Proof.
  apply loadProfile_skips_disabled_and_other_levels; [|reflexivity].
  intros a data key c Hin Hen Hkey.
  apply elem_of_cons in Hin as [[= -> ->]|Hin]; [done|].
  apply elem_of_cons in Hin as [[= -> ->]|Hin]; [|by apply elem_of_nil in Hin].
  apply list_elem_of_singleton in Hkey as [= -> ->]. by vm_compute.
Defined.

Lemma loadProfile_backup_complete_witness :
  ∃ dir,
    obj_get "PLAYER1-2024-03-03T10-00-00-000Z"
      (FS.backups (loadProfile Ex.all_ok Ex.t3 Ex.raid Ex.fs_live).2)
      = Some dir ∧
    obj_get "Details.lua" dir = Some "old".
Proof.
  assert (NoDup [("ElvUI.lua", "ElvDB = { old = true }");
                 ("Details.lua", "old")].*1) as Hnd.
  { apply NoDup_cons. split; [|apply NoDup_singleton].
    by intros Hin%list_elem_of_singleton. }
  destruct (loadProfile_backup_complete Ex.all_ok Ex.t3 Ex.raid Ex.fs_live
              [("ElvUI.lua", "ElvDB = { old = true }"); ("Details.lua", "old")]
              eq_refl Hnd eq_refl) as [(dir & Hdir & Hall) _].
  exists dir. split; [exact Hdir|].
  apply Hall; [|reflexivity]. right. by left.
Defined.

(** ** Application settings *)

Lemma spread_stringify (base s : AppSettings.t) (p : PartialSettings.t) :
  stringify_settings s = SettingsJson p → spread base p = s.
Proof. intros [= <-]. by destruct s. Qed.

(** X19.  Settings survive a save: [getSettings] after [saveSettings s]
    returns [s], whatever the settings file was before (missing, malformed
    or holding other settings). *)
Theorem getSettings_saveSettings (s : AppSettings.t)
    (file : option settings_text) :
  getSettings (saveSettings s file) = s.
Proof.
  unfold saveSettings, getSettings.
  by apply (spread_stringify DEFAULT_SETTINGS s).
Qed.

(** X20.  The stamp that ends the [gdrive:sync], [gdrive:push] and
    [gdrive:pull] handlers changes [lastSyncTime] and nothing else of what
    [getSettings] returns; a missing or malformed settings file is replaced
    by the defaults with the stamp; and of two stamps the later one
    remains. *)
Theorem stampLastSyncTime_only_stamps (now later : string)
    (file : option settings_text) :
  let before := getSettings file in
  let after := getSettings (stampLastSyncTime now file) in
  AppSettings.lastSyncTime after = Some now ∧
  AppSettings.wowPath after = AppSettings.wowPath before ∧
  AppSettings.selectedVersion after = AppSettings.selectedVersion before ∧
  AppSettings.selectedAccount after = AppSettings.selectedAccount before ∧
  AppSettings.enabledAddons after = AppSettings.enabledAddons before ∧
  AppSettings.googleDriveConnected after
    = AppSettings.googleDriveConnected before ∧
  AppSettings.googleDriveEmail after = AppSettings.googleDriveEmail before ∧
  AppSettings.autoSync after = AppSettings.autoSync before ∧
  stampLastSyncTime later (stampLastSyncTime now file)
    = stampLastSyncTime later file.
Proof.
  intros before after. subst before after.
  assert (∀ s f, getSettings (saveSettings s f) = s) as Hround.
  { intros s f. unfold saveSettings, getSettings.
    by apply (spread_stringify DEFAULT_SETTINGS s). }
  unfold stampLastSyncTime at 1 2 3 4 5 6 7 8.
  rewrite Hround. cbn.
  repeat (split; [done|]).
  unfold stampLastSyncTime at 1. unfold stampLastSyncTime at 1.
  by rewrite Hround.
Qed.

(** ** Accounts and characters *)

Section AccountsMore.
Context (path_join : string → string → string).

Lemma elem_of_scanCharDirs realm realmPath charDirs c :
  c ∈ scanCharDirs path_join realm realmPath charDirs →
  WoWCharacter.realm c = realm ∧
  WoWCharacter.path c = path_join realmPath (WoWCharacter.name c) ∧
  (WoWCharacter.name c, true) ∈ charDirs.
Proof.
  unfold scanCharDirs.
  intros ([n b] & -> & [Hb Hin]%list_elem_of_filter)%list_elem_of_fmap.
  simpl in *. by subst b.
Qed.

Lemma elem_of_scanRealmDirs accountPath realmDirs c :
  c ∈ scanRealmDirs path_join accountPath realmDirs →
  WoWCharacter.realm c ≠ "SavedVariables" ∧
  WoWCharacter.path c
  = path_join (path_join accountPath (WoWCharacter.realm c))
      (WoWCharacter.name c) ∧
  ∃ charDirs, (WoWCharacter.realm c, Directory (Some charDirs)) ∈ realmDirs ∧
              (WoWCharacter.name c, true) ∈ charDirs.
Proof.
  induction realmDirs as [|[n [|listing]] rest IH]; simpl.
  - by intros Hin%elem_of_nil.
  - intros Hin. destruct (IH Hin) as (Hne & Hpath & chars & Hr & Hc).
    split; [done|]. split; [done|]. exists chars. split; [by right|done].
  - destruct (decide (n = "SavedVariables")) as [->|Hn].
    + intros Hin. destruct (IH Hin) as (Hne & Hpath & chars & Hr & Hc).
      split; [done|]. split; [done|]. exists chars. split; [by right|done].
    + destruct listing as [charDirs|]; [|by intros Hin%elem_of_nil].
      intros [Hin|Hin]%elem_of_app.
      * apply elem_of_scanCharDirs in Hin as (Hrealm & Hpath & Hc).
        rewrite Hrealm. split; [done|]. split; [done|].
        exists charDirs. split; [by left|done].
      * destruct (IH Hin) as (Hne & Hpath & chars & Hr & Hc).
        split; [done|]. split; [done|]. exists chars. split; [by right|done].
Qed.

Lemma scanAccountDirs_names wtfPath accountDirs :
  WoWAccount.name <$> scanAccountDirs path_join wtfPath accountDirs
  = (filter (λ e, kept_dir e = true) accountDirs).*1.
Proof.
  induction accountDirs as [|[n [|listing]] rest IH]; simpl; [done|..].
  - rewrite filter_cons_False; [done|]. by unfold kept_dir.
  - destruct (decide (n = "SavedVariables")) as [->|Hn].
    + rewrite filter_cons_False; [done|]. unfold kept_dir. by simpl.
    + rewrite filter_cons_True.
      * rewrite !fmap_cons. simpl. by rewrite IH.
      * unfold kept_dir. simpl. by apply bool_decide_eq_true_2.
Qed.

Lemma elem_of_scanAccountDirs wtfPath accountDirs a :
  a ∈ scanAccountDirs path_join wtfPath accountDirs →
  WoWAccount.name a ≠ "SavedVariables" ∧
  WoWAccount.path a = path_join wtfPath (WoWAccount.name a) ∧
  ∃ listing, (WoWAccount.name a, Directory listing) ∈ accountDirs ∧
             WoWAccount.characters a
             = scanCharacters path_join (WoWAccount.path a) listing.
Proof.
  induction accountDirs as [|[n [|listing]] rest IH]; simpl.
  - by intros Hin%elem_of_nil.
  - intros Hin. destruct (IH Hin) as (Hne & Hpath & l & Hl & Hc).
    split; [done|]. split; [done|]. exists l. split; [by right|done].
  - destruct (decide (n = "SavedVariables")) as [->|Hn].
    + intros Hin. destruct (IH Hin) as (Hne & Hpath & l & Hl & Hc).
      split; [done|]. split; [done|]. exists l. split; [by right|done].
    + intros [->|Hin]%elem_of_cons.
      * simpl. split; [done|]. split; [done|]. exists listing.
        split; [by left|done].
      * destruct (IH Hin) as (Hne & Hpath & l & Hl & Hc).
        split; [done|]. split; [done|]. exists l. split; [by right|done].
Qed.

Lemma scanAccountDirs_unreadable wtfPath accountDirs n :
  (n, Directory None) ∈ accountDirs → n ≠ "SavedVariables" →
  WoWAccount.mk n (path_join wtfPath n) []
    ∈ scanAccountDirs path_join wtfPath accountDirs.
Proof.
  intros Hin Hn. induction accountDirs as [|[m [|listing]] rest IH]; simpl.
  - by apply elem_of_nil in Hin.
  - apply elem_of_cons in Hin as [[=]|Hin]. by apply IH.
  - apply elem_of_cons in Hin as [[= <- <-]|Hin].
    + rewrite decide_False by done. by left.
    + destruct (decide (m = "SavedVariables")); [by apply IH|].
      right. by apply IH.
Qed.

(** X21.  [scanWoWAccounts] reports exactly the directories of
    [WTF/Account] other than [SavedVariables], in the order of the listing,
    each under the path joined from its name; a reported character lies in
    a realm directory other than [SavedVariables], under the path joined
    from account, realm and character name; and an account whose directory
    cannot be read is still reported, with no characters. *)
Theorem scanWoWAccounts_reports_directories
    (wowPath : string) (version : WoWVersion)
    (accountDirs :
       list (string * dirent (list (string * dirent (list (string * bool)))))) :
  let wtfPath :=
    path_join (path_join (path_join wowPath (getVersionFolder version)) "WTF")
      "Account" in
  let accounts :=
    scanWoWAccounts path_join wowPath version (Some (Some accountDirs)) in
  WoWAccount.name <$> accounts
    = (filter (λ e, kept_dir e = true) accountDirs).*1 ∧
  (∀ a, a ∈ accounts →
     WoWAccount.path a = path_join wtfPath (WoWAccount.name a) ∧
     ∀ c, c ∈ WoWAccount.characters a →
       WoWCharacter.realm c ≠ "SavedVariables" ∧
       WoWCharacter.path c
       = path_join (path_join (WoWAccount.path a) (WoWCharacter.realm c))
           (WoWCharacter.name c)) ∧
  (∀ n, (n, Directory None) ∈ accountDirs → n ≠ "SavedVariables" →
        WoWAccount.mk n (path_join wtfPath n) [] ∈ accounts).
Proof.
  intros wtfPath accounts. subst accounts. unfold scanWoWAccounts.
  fold wtfPath. split; [apply scanAccountDirs_names|]. split.
  - intros a (Hne & Hpath & listing & _ & Hchars)%elem_of_scanAccountDirs.
    split; [done|]. intros c Hc. rewrite Hchars in Hc.
    unfold scanCharacters in Hc.
    destruct listing as [realmDirs|]; [|by apply elem_of_nil in Hc].
    by apply elem_of_scanRealmDirs in Hc as (? & ? & _).
  - intros n Hin Hn. by apply scanAccountDirs_unreadable.
Qed.

(** X22.  In [scanCharacters] a realm directory that cannot be read ends
    the scan of the account: the characters of the realms listed before it
    are returned, those of the realms listed after it are not. *)
Theorem scanCharacters_stops_at_unreadable_realm
    (accountPath realm : string)
    (before after : list (string * dirent (list (string * bool)))) :
  realm ≠ "SavedVariables" →
  scanCharacters path_join accountPath
    (Some (before ++ (realm, Directory None) :: after))
  = scanCharacters path_join accountPath (Some before).
Proof.
  intros Hrealm. unfold scanCharacters.
  induction before as [|[n [|listing]] rest IH]; simpl.
  - by rewrite decide_False.
  - done.
  - destruct (decide (n = "SavedVariables")); [done|].
    destruct listing; [by rewrite IH|done].
Qed.
End AccountsMore.

Lemma scanCharacters_stops_at_unreadable_realm_witness :
  scanCharacters (λ d n, d +:+ "/" +:+ n) "WTF/Account/PLAYER1"
    (Some ([("Silvermoon", Directory (Some [("Arthas", true)]))]
           ++ ("Draenor", Directory None)
           :: [("Kazzak", Directory (Some [("Jaina", true)]))]))
  = [WoWCharacter.mk "Arthas" "Silvermoon"
       "WTF/Account/PLAYER1/Silvermoon/Arthas"].
Proof.
  rewrite (scanCharacters_stops_at_unreadable_realm (λ d n, d +:+ "/" +:+ n)
             "WTF/Account/PLAYER1" "Draenor"); [reflexivity|done].
Defined.
